(** * sqlite_utils/db.py: schema inference and batched writes

    A shallow embedding of [Database] and [Table] from [sqlite_utils/db.py]
    and the properties of type inference, lazy table creation and chunked
    insert/upsert that follow from the code.

    Conventions.
    - A Python [dict] is an association list in insertion order ([dict]);
      its keys are unique, which every operation below preserves.
    - A Python [set] is a [gset].
    - Field names are Python [str]; they are modelled by their UTF-8 bytes
      ([string]), whose bytewise lexicographic order coincides with
      Python's code-point order used by [sorted].
    - The sqlite3 connection is external to the repository: the methods
      are written against an [Engine] interface (execute / commit), and a
      relational model of it is given as an instance for every
      [Dialect], which gathers what differs from one build of the engine
      to the next. *)

From Stdlib Require Import ZArith Floats.SpecFloat.
From stdpp Require Import base decidable option list sorting countable
  gmap strings pretty.

Local Open Scope string_scope.
Local Open Scope list_scope.

#[local] Set Warnings "-clear-no-such-hyp".

(** ** Python values and their runtime types *)

(** Scalars a record may hold: [None], [bool], [int], [float], [str]. *)
Inductive value : Type :=
  | VNone
  | VBool (b : bool)
  | VInt (z : Z)
  | VFloat (f : spec_float)
  | VStr (s : string).

#[global] Instance spec_float_eq_dec : EqDecision spec_float.
Proof. solve_decision. Defined.

#[global] Instance value_eq_dec : EqDecision value.
Proof. solve_decision. Defined.

(** The classes [type(value)] can return for such scalars. *)
Inductive py_type : Type := NoneType | bool_ | int_ | float_ | str_.

#[global] Instance py_type_eq_dec : EqDecision py_type.
Proof. solve_decision. Defined.

Definition py_type_index (t : py_type) : nat :=
  match t with
  | NoneType => 0 | bool_ => 1 | int_ => 2 | float_ => 3 | str_ => 4
  end.

Definition py_type_of_index (n : nat) : option py_type :=
  match n with
  | 0 => Some NoneType | 1 => Some bool_ | 2 => Some int_
  | 3 => Some float_ | 4 => Some str_ | _ => None
  end.

#[global] Instance py_type_countable : Countable py_type.
Proof.
  apply (inj_countable py_type_index py_type_of_index).
  intros []; reflexivity.
Defined.

(** [type(value)] *)
Definition type (v : value) : py_type :=
  match v with
  | VNone => NoneType
  | VBool _ => bool_
  | VInt _ => int_
  | VFloat _ => float_
  | VStr _ => str_
  end.

(** ** Dictionaries *)

Abbreviation dict V := (list (string * V)) (only parsing).

Definition keys {V} (d : dict V) : list string := d.*1.

(** [d.get(key)] *)
Fixpoint dict_get {V} (key : string) (d : dict V) : option V :=
  match d with
  | [] => None
  | (k, v) :: d' => if decide (k = key) then Some v else dict_get key d'
  end.

(** [d[key] = v]: an existing key keeps its position, a new key goes last. *)
Fixpoint dict_set {V} (key : string) (v : V) (d : dict V) : dict V :=
  match d with
  | [] => [(key, v)]
  | (k, w) :: d' =>
      if decide (k = key) then (k, v) :: d' else (k, w) :: dict_set key v d'
  end.

(** [d.setdefault(key, default)]: the value now stored under [key], and
    the dictionary. *)
Definition dict_setdefault {V} (key : string) (default : V) (d : dict V)
  : V * dict V :=
  match dict_get key d with
  | Some v => (v, d)
  | None => (default, dict_set key default d)
  end.

(** [del d[key]] (no error in this model when the key is absent). *)
Definition dict_del {V} (key : string) (d : dict V) : dict V :=
  filter (λ kv, kv.1 ≠ key) d.

(** A record: field name to scalar. *)
Abbreviation record := (dict value) (only parsing).

(** ** Table.detect_column_types *)

(** The reduction of one field's set of observed types (the body of the
    second loop). [len(types) == 1] holds exactly when the set lists as a
    single element, which is then [list(types)[0]]. *)
Definition unify (types : gset py_type) : py_type :=
  match elements types with
  | [t] => t
  | _ =>
      if decide (types ⊆ {[int_; bool_]}) then int_
      else if decide (types ⊆ {[int_; float_; bool_]}) then float_
      else str_
  end.

(** [all_column_types.setdefault(key, set()).add(type(value))]: the set
    stored in the dictionary is the object that [add] mutates. *)
Definition observe (all_column_types : dict (gset py_type))
    (key : string) (v : value) : dict (gset py_type) :=
  let '(types, d) := dict_setdefault key ∅ all_column_types in
  dict_set key (types ∪ {[type v]}) d.

Definition observe_record (all_column_types : dict (gset py_type))
    (r : record) : dict (gset py_type) :=
  foldl (λ acc kv, observe acc kv.1 kv.2) all_column_types r.

Definition collect_types (records : list record) : dict (gset py_type) :=
  foldl observe_record [] records.

Definition detect_column_types (records : list record) : dict py_type :=
  let all_column_types := collect_types records in
  foldl (λ column_types kt, dict_set kt.1 (unify kt.2) column_types)
        [] all_column_types.

(** The keyword table of [Database.create_table]. *)
Definition col_type_keyword (col_type : py_type) : string :=
  match col_type with
  | float_ => "FLOAT"
  | int_ => "INTEGER"
  | bool_ => "INTEGER"
  | str_ => "TEXT"
  | NoneType => "TEXT"
  end.

(** ** Type inference: what is observed *)

(** The value kinds observed for [key]: the types of the values stored
    under [key] in the records that have it. *)
Definition observed_kinds (records : list record) (key : string)
  : gset py_type :=
  list_to_set ((λ kv, type kv.2) <$> filter (λ kv, kv.1 = key) (mjoin records)).

(** The set stored for [key], empty when there is none. *)
Definition types_at (acc : dict (gset py_type)) (key : string)
  : gset py_type :=
  default ∅ (dict_get key acc).

(** The column type a field ends up with: the keyword [create_table]
    writes for the inferred type. *)
Definition inferred_column_type (records : list record) (key : string)
  : option string :=
  col_type_keyword <$> dict_get key (detect_column_types records).


(** ** Exceptions, statements and the storage engine *)

(** Errors raised by [sqlite3]'s [execute]: the module's own classes
    and the built-in [OverflowError], raised for an [int] that does not
    fit the engine's integers. *)
Inductive sqlite_error : Type :=
  | OperationalError (msg : string)
  | IntegrityError (msg : string)
  | ProgrammingError (msg : string)
  | OverflowError (msg : string).

(** The exceptions the methods can end with. *)
Inductive exception : Type :=
  | Sqlite3Error (e : sqlite_error)
  | UnboundLocalError (local_name : string)
  | ValueError (msg : string)
  | IndexError (msg : string)
  | TypeError (msg : string).

(** What [execute] returns: the rows [fetchall()] gives and the row
    count. *)
Record cursor : Type := { fetchall : list (list value); rowcount : Z }.

(** The SQL texts the module builds, one constructor per format string.
    Table and column names are spliced into the text unquoted; the
    constructors carry them as they are given.
    - [SelectTableNames]: [select name from sqlite_master where type = 'table']
    - [PragmaTableInfo t]: [PRAGMA table_info([t])]
    - [CreateTable t cols]: [CREATE TABLE t (col type primary_key, ...)],
      each column with its type keyword and whether [PRIMARY KEY] follows
    - [DropTable t]: [DROP TABLE t]
    - [AlterTableAddColumn t c ty ot oc]:
      [ALTER TABLE t ADD COLUMN c ty REFERENCES ot(oc)]
    - [Insert upsert t cols n]: [INSERT (OR REPLACE) INTO t (cols) VALUES]
      followed by [n] groups of [len(cols)] placeholders. *)
Inductive statement : Type :=
  | SelectTableNames
  | PragmaTableInfo (table : string)
  | CreateTable (table : string) (columns : list (string * string * bool))
  | DropTable (table : string)
  | AlterTableAddColumn (table column column_type other_table other_column : string)
  | Insert (upsert : bool) (table : string) (columns : list string) (rows : nat).

(** The connection, as the module consumes it: [execute(sql, parameters)],
    which returns a cursor or raises, and [commit()], for which the
    contract has no failure. *)
Class Engine : Type := {
  connection : Type;
  engine_execute :
    statement → list value → connection → (sqlite_error + cursor) * connection;
  engine_commit : connection → connection;
}.

(** One call made on the connection. *)
Inductive event : Type :=
  | EvExecute (sql : statement) (parameters : list value)
              (outcome : sqlite_error + cursor)
  | EvCommit.


(** ** Computations that may raise *)

Definition M (S A : Type) : Type := S → (exception + A) * S.

Definition ret {S A} (a : A) : M S A := λ s, (inr a, s).

Definition raise {S A} (e : exception) : M S A := λ s, (inl e, s).

Definition bind {S A B} (m : M S A) (k : A → M S B) : M S B :=
  λ s, match m s with
       | (inl e, s') => (inl e, s')
       | (inr a, s') => k a s'
       end.

Notation "'let!' x ':=' m 'in' k" := (bind m (λ x, k))
  (at level 10, x binder, m at level 100, k at level 200,
   format "'[' 'let!'  x  ':='  m  'in' ']' '/' k").

(** A pure step that may raise. *)
Definition lift_result {S A} (r : exception + A) : M S A := λ s, (r, s).

(** A list comprehension whose element expression may raise. *)
Fixpoint comprehension {S A B} (f : A → M S B) (l : list A) : M S (list B) :=
  match l with
  | [] => ret []
  | x :: l' =>
      let! y := f x in
      let! ys := comprehension f l' in
      ret (y :: ys)
  end.

(** A [for] loop run for its effects. *)
Fixpoint for_each {S A} (body : A → M S ()) (l : list A) : M S () :=
  match l with
  | [] => ret ()
  | x :: l' => let! _ := body x in for_each body l'
  end.

(** ** Built-ins used by [chunks] *)

Fixpoint range_up (fuel : nat) (i stop step : Z) : list Z :=
  match fuel with
  | O => []
  | S fuel' =>
      if (i <? stop)%Z then i :: range_up fuel' (i + step)%Z stop step else []
  end.

Fixpoint range_down (fuel : nat) (i stop step : Z) : list Z :=
  match fuel with
  | O => []
  | S fuel' =>
      if (stop <? i)%Z then i :: range_down fuel' (i + step)%Z stop step
      else []
  end.

(** [range(start, stop, step)], listed. At most [|stop - start|] values
    are produced since the step is at least one in magnitude. *)
Definition range (start stop step : Z) : exception + list Z :=
  if decide (step = 0)%Z then
    inl (ValueError "range() arg 3 must not be zero")
  else if decide (0 < step)%Z then
    inr (range_up (Z.to_nat (stop - start)) start stop step)
  else
    inr (range_down (Z.to_nat (start - stop)) start stop step).

(** How a slice bound is read against a sequence of length [len]. *)
Definition slice_bound (len i : Z) : Z :=
  if decide (i < 0)%Z then Z.max 0 (i + len) else Z.min i len.

(** [sequence[i : j]] *)
Definition slice {A} (sequence : list A) (i j : Z) : list A :=
  let len := Z.of_nat (length sequence) in
  let lo := slice_bound len i in
  let hi := slice_bound len j in
  take (Z.to_nat (hi - lo)) (drop (Z.to_nat lo) sequence).

(** [chunks(sequence, size)]: the generator's values in order. The
    generator raises on its first step exactly when [range] does. *)
Definition chunks {A} (sequence : list A) (size : Z)
  : exception + list (list A) :=
  match range 0 (Z.of_nat (length sequence)) size with
  | inl e => inl e
  | inr starts => inr ((λ i, slice sequence i (i + size)%Z) <$> starts)
  end.

(** ** Database and Table objects *)

(** The [Database] object: its connection, and the calls made on it so
    far, oldest first. *)
Record Database `{Engine} : Type := { conn : connection; trace : list event }.

(** A [Table] object. Its [db] is the one [Database] of the state. *)
Record Table : Type := { name : string; exists_ : bool }.

(** The namedtuple [Column]. *)
Module Column.
Record t : Type := {
  cid : value; name : value; type : value;
  notnull : value; default_value : value; is_pk : value;
}.
End Column.

(** A foreign key, as the 4-tuple [add_foreign_key] is applied to. *)
Record foreign_key : Type := {
  column : string; column_type : string;
  other_table : string; other_column : string;
}.

(** [foreign_keys or []] *)
Definition or_empty {A} (l : option (list A)) : list A := default [] l.

(** ** class Database *)

Module Database.
Section methods.
Context `{Engine}.

(** [self.conn.execute(sql, parameters)] *)
Definition execute (sql : statement) (parameters : list value)
  : M Database cursor :=
  λ db,
    let '(outcome, c) := engine_execute sql parameters (conn db) in
    (match outcome with
     | inl e => inl (Sqlite3Error e)
     | inr cur => inr cur
     end,
     {| conn := c;
        trace := trace db ++ [EvExecute sql parameters outcome] |}).

(** [self.conn.commit()] *)
Definition commit : M Database () :=
  λ db,
    (inr (),
     {| conn := engine_commit (conn db);
        trace := trace db ++ [EvCommit] |}).

(** [r[0]] *)
Definition first_item (r : list value) : exception + value :=
  match r with
  | v :: _ => inr v
  | [] => inl (IndexError "tuple index out of range")
  end.

(** [Database.tables] *)
Definition tables : M Database (list value) :=
  let! cur := execute SelectTableNames [] in
  comprehension (λ r, lift_result (first_item r)) (fetchall cur).

(** [Table.__init__(self, db, name)], which [__getitem__] runs. *)
Definition Table__init__ (name : string) : M Database Table :=
  let! ts := tables in
  ret {| name := name; exists_ := bool_decide (VStr name ∈ ts) |}.

(** [Database.__getitem__] *)
Definition getitem (table_name : string) : M Database Table :=
  Table__init__ table_name.

(** [" PRIMARY KEY" if (pk == col_name) else ""] *)
Definition primary_key (pk : option string) (col_name : string) : bool :=
  bool_decide (pk = Some col_name).

(** The column list of the [CREATE TABLE] text. *)
Definition create_columns (columns : dict py_type) (pk : option string)
  : list (string * string * bool) :=
  (λ '(col_name, col_type),
     (col_name, col_type_keyword col_type, primary_key pk col_name))
  <$> columns.

(** [Database.create_table] *)
Definition create_table (name : string) (columns : dict py_type)
    (pk : option string) : M Database Table :=
  let sql := CreateTable name (create_columns columns pk) in
  let! _ := execute sql [] in
  getitem name.
End methods.
End Database.

(** ** class Table *)

Module Table.
Section methods.
Context `{Engine}.

(** Methods run on the object and its database. *)
Definition on_db {A} (m : M Database A) : M (Table * Database) A :=
  λ '(self, db), let '(r, db') := m db in (r, (self, db')).

Definition get_self : M (Table * Database) Table :=
  λ '(self, db), (inr self, (self, db)).

(** [self.exists = b] *)
Definition set_exists (b : bool) : M (Table * Database) () :=
  λ '(self, db), (inr (), ({| name := name self; exists_ := b |}, db)).

(** [Column( *row)] *)
Definition Column_of_row (row : list value) : exception + Column.t :=
  match row with
  | [a; b; c; d; e; f] =>
      inr {| Column.cid := a; Column.name := b; Column.type := c;
             Column.notnull := d; Column.default_value := e;
             Column.is_pk := f |}
  | _ => inl (TypeError "__new__() takes 7 positional arguments")
  end.

(** [Table.columns] *)
Definition columns : M (Table * Database) (list Column.t) :=
  let! self := get_self in
  if negb (exists_ self) then ret []
  else
    let! cur :=
      on_db (Database.execute (PragmaTableInfo (name self)) []) in
    comprehension (λ row, lift_result (Column_of_row row)) (fetchall cur).

(** [Table.add_foreign_key] *)
Definition add_foreign_key
    (column column_type other_table other_column : string)
  : M (Table * Database) cursor :=
  let! self := get_self in
  let sql :=
    AlterTableAddColumn (name self) column column_type
                        other_table other_column in
  let! result := on_db (Database.execute sql []) in
  let! _ := on_db Database.commit in
  ret result.

(** The set [{fk[0] for fk in (foreign_keys or [])}] *)
Definition claimed_columns (foreign_keys : option (list foreign_key))
  : gset string :=
  list_to_set (column <$> or_empty foreign_keys).

(** [Table.create] *)
Definition create (columns : dict py_type) (pk : option string)
    (foreign_keys : option (list foreign_key))
  : M (Table * Database) () :=
  let! self := get_self in
  let columns :=
    filter (λ nv, nv.1 ∉ claimed_columns foreign_keys) columns in
  let! _ := on_db (Database.create_table (name self) columns pk) in
  let! _ :=
    match foreign_keys with
    | Some fks =>
        if bool_decide (fks ≠ []) then
          for_each
            (λ args,
               let! _ := add_foreign_key (column args) (column_type args)
                           (other_table args) (other_column args) in
               ret ())
            fks
        else ret ()
    | None => ret ()
    end in
  set_exists true.

(** [Table.drop] *)
Definition drop : M (Table * Database) cursor :=
  let! self := get_self in
  on_db (Database.execute (DropTable (name self)) []).

(** [list(sorted(all_columns))] for the union of the records' keys. *)
Definition all_columns (records : list record) : list string :=
  let all_columns : gset string :=
    foldl (λ acc (r : record), acc ∪ list_to_set (keys r)) ∅ records in
  merge_sort String.le (elements all_columns).

(** [record.get(key, None) for key in all_columns] *)
Definition row_values (all_columns : list string) (r : record)
  : list value :=
  (λ key, default VNone (dict_get key r)) <$> all_columns.

(** The list [values] bound for one chunk: each record's row values
    appended in turn. *)
Definition chunk_values (all_columns : list string)
    (chunk : list record) : list value :=
  foldl (λ values r, values ++ row_values all_columns r) [] chunk.

(** The loop of [insert_all] over the chunks; [result] is the local
    variable, unbound before the first iteration. *)
Fixpoint insert_chunks (upsert : bool) (table : string)
    (all_columns : list string) (cs : list (list record))
    (result : option cursor) : M (Table * Database) (option cursor) :=
  match cs with
  | [] => ret result
  | chunk :: cs' =>
      let sql := Insert upsert table all_columns (length chunk) in
      let values := chunk_values all_columns chunk in
      let! result := on_db (Database.execute sql values) in
      let! _ := on_db Database.commit in
      insert_chunks upsert table all_columns cs' (Some result)
  end.

(** The first statement of [insert_all]:
    [if not self.exists: self.create(self.detect_column_types(records), pk, foreign_keys)] *)
Definition create_if_absent (records : list record)
    (pk : option string) (foreign_keys : option (list foreign_key))
  : M (Table * Database) () :=
  let! self := get_self in
  if negb (exists_ self)
  then create (detect_column_types records) pk foreign_keys
  else ret ().

(** [Table.insert_all] *)
Definition insert_all (records : list record) (pk : option string)
    (foreign_keys : option (list foreign_key)) (upsert : bool)
    (batch_size : Z) : M (Table * Database) cursor :=
  let! _ := create_if_absent records pk foreign_keys in
  let all_columns := all_columns records in
  let! cs := lift_result (chunks records batch_size) in
  let! self := get_self in
  let! result := insert_chunks upsert (name self) all_columns cs None in
  match result with
  | Some result => ret result
  | None =>
      raise (UnboundLocalError
               "local variable 'result' referenced before assignment")
  end.

(** [Table.insert] *)
Definition insert (r : record) (pk : option string)
    (foreign_keys : option (list foreign_key)) (upsert : bool)
  : M (Table * Database) cursor :=
  insert_all [r] pk foreign_keys upsert 100.

(** [Table.upsert] *)
Definition upsert (r : record) (pk : option string)
    (foreign_keys : option (list foreign_key))
  : M (Table * Database) cursor :=
  insert r pk foreign_keys true.

(** [Table.upsert_all] *)
Definition upsert_all (records : list record) (pk : option string)
    (foreign_keys : option (list foreign_key))
  : M (Table * Database) cursor :=
  insert_all records pk foreign_keys true 100.
End methods.
End Table.
(** ** A relational model of the connection *)

(** Modelled from the spec: the storage engine behind [sqlite3.connect]
    is not part of the repository. The model follows the contract the
    module consumes, for a connection opened with the default settings
    of [sqlite3.connect]:
    - [execute] runs one statement and fails without changing any table;
    - an [INSERT] opens a transaction when none is open, and [commit]
      makes the transaction's state the committed one; a statement that
      changes the schema joins the open transaction, and is committed at
      once when none is open;
    - names are compared without regard to ASCII case;
    - a table has named columns with declared types, at most one of them
      the primary key, and rows, kept in the order of insertion (the
      order carries no meaning); a value is converted by the declared
      type of its column when it is stored;
    - a row whose key is not NULL conflicts with an existing row of equal
      key, which [INSERT] rejects and [INSERT OR REPLACE] resolves by
      deleting the old row; a primary key declared [INTEGER] holds
      integers only and is given the next free one for NULL.
    What one build of the engine does differently from another (which
    texts it can prepare, how it converts values, when it accepts a
    reference) is a parameter, the [Dialect]. Tables with constraints
    that the module never declares are outside the model. *)

Record column_def : Type := {
  def_name : string;
  def_type : string;
  def_pk : bool;
  def_references : option (string * string);
}.

Record table_data : Type := {
  td_columns : list column_def;
  td_rows : list (list value);
}.

(** The committed tables, and the tables as the open transaction has
    them when one is open. *)
Record sqlite_connection : Type := {
  committed : dict table_data;
  transaction : option (dict table_data);
}.

(** The tables as the next statement finds them. *)
Definition pending (c : sqlite_connection) : dict table_data :=
  default (committed c) (transaction c).

(** *** Names *)

Definition lower (a : Ascii.ascii) : Ascii.ascii :=
  let n := Ascii.nat_of_ascii a in
  if bool_decide (65 ≤ n ≤ 90)%nat then Ascii.ascii_of_nat (n + 32) else a.

(** A name with its ASCII letters in lower case: two names are the same
    to the engine when they fold to the same string. *)
Fixpoint fold_case (s : string) : string :=
  match s with
  | EmptyString => EmptyString
  | String a s' => String (lower a) (fold_case s')
  end.

(** The first entry under a name, up to case. *)
Fixpoint lookup_name {V} (n : string) (d : dict V) : option V :=
  match d with
  | [] => None
  | (k, v) :: d' =>
      if decide (fold_case k = fold_case n) then Some v
      else lookup_name n d'
  end.

(** The entry under a name replaced, its name kept as first written, or
    a new entry added last. *)
Fixpoint replace_name {V} (n : string) (v : V) (d : dict V) : dict V :=
  match d with
  | [] => [(n, v)]
  | (k, w) :: d' =>
      if decide (fold_case k = fold_case n) then (k, v) :: d'
      else (k, w) :: replace_name n v d'
  end.

Definition remove_name {V} (n : string) (d : dict V) : dict V :=
  filter (λ kv, fold_case kv.1 ≠ fold_case n) d.

Definition column_names (td : table_data) : list string :=
  fold_case <$> (def_name <$> td_columns td).

(** *** What differs between builds of the engine *)

(** - [prepares]: whether the engine can read the statement's text: the
      names spliced into it are read as the identifiers meant (not as
      keywords, not as several tokens, not as reserved names) and the
      text is within the limits of the build;
    - [max_variables]: the limit on the [?] of one statement, which a
      statement that [prepares] respects;
    - [store]: the conversion of a bound value by the declared type of
      the column it is stored in; NULL is stored as NULL;
    - [key_eq]: whether two stored keys are equal;
    - [references]: whether the engine accepts a column that references
      the given column of the given table (an engine may check that they
      exist, or leave the check to later);
    - [random_rowid]: the key chosen for NULL once the largest integer
      key is in use, if one is found. *)
Class Dialect : Type := {
  prepares : statement → bool;
  max_variables : nat;
  prepares_variables upsert table columns rows :
    prepares (Insert upsert table columns rows) = true →
    (rows * length columns ≤ max_variables)%nat;
  store : string → value → value;
  store_null column_type : store column_type VNone = VNone;
  key_eq : value → value → bool;
  references : dict table_data → string → string → bool;
  random_rowid : list Z → option Z;
}.

(** *** Binding *)

(** How a Python value is bound: a [bool] as the integer 0 or 1, a NaN
    as NULL. *)
Definition adapt (v : value) : value :=
  match v with
  | VBool b => VInt (if b then 1 else 0)
  | VFloat S754_nan => VNone
  | _ => v
  end.

(** An [int] is bound when it fits 64 bits. *)
Definition bindable (v : value) : Prop :=
  match v with
  | VInt z => (- 2 ^ 63 ≤ z < 2 ^ 63)%Z
  | _ => True
  end.

#[global] Instance bindable_dec v : Decision (bindable v).
Proof. destruct v; cbn; apply _. Defined.

(** *** Rows *)

Section storage.
Context `{Dialect}.

Definition pk_index (td : table_data) : option nat :=
  fst <$> list_find (λ c, def_pk c = true) (td_columns td).

(** A primary key declared [INTEGER] is the row's integer key itself. *)
Definition integer_key (td : table_data) : bool :=
  match list_find (λ c, def_pk c = true) (td_columns td) with
  | Some (_, c) => bool_decide (fold_case (def_type c) = "integer")
  | None => false
  end.

(** The key of a row: its value in the primary-key column, NULL when the
    table has none. *)
Definition row_key (td : table_data) (row : list value) : value :=
  match pk_index td with
  | Some i => default VNone (row !! i)
  | None => VNone
  end.

(** The stored row for the values bound to [columns]: each converted by
    the type of its column, NULL in every other column. *)
Definition bound_row (td : table_data) (columns : list string)
    (vals : list value) : list value :=
  (λ c, store (def_type c)
          (default VNone (lookup_name (def_name c) (zip columns vals))))
  <$> td_columns td.

(** The integer keys in use. *)
Definition integer_keys (td : table_data) : list Z :=
  omap (λ r, match row_key td r with VInt z => Some z | _ => None end)
       (td_rows td).

(** The key given to a row inserted with a NULL integer key: 1 in an
    empty table, else one more than the largest key in use, and a key of
    the engine's choice once the largest integer is in use. *)
Definition next_rowid (td : table_data) : option Z :=
  match integer_keys td with
  | [] => Some 1%Z
  | z :: zs =>
      let m := foldr Z.max z zs in
      if decide (m < 2 ^ 63 - 1)%Z then Some (m + 1)%Z
      else random_rowid (z :: zs)
  end.

(** An existing row conflicts with the key [key]. *)
Definition clashes (td : table_data) (key : value) (r : list value) : bool :=
  match row_key td r with
  | VNone => false
  | k => key_eq k key
  end.

(** The row is added under the key [key], which is not NULL. *)
Definition insert_keyed (upsert : bool) (td : table_data)
    (key : value) (row : list value) : sqlite_error + table_data :=
  if existsb (clashes td key) (td_rows td) then
    if upsert then
      inr {| td_columns := td_columns td;
             td_rows :=
               filter (λ r, clashes td key r = false) (td_rows td)
               ++ [row] |}
    else inl (IntegrityError "UNIQUE constraint failed")
  else
    inr {| td_columns := td_columns td; td_rows := td_rows td ++ [row] |}.

Definition insert_row (upsert : bool) (columns : list string)
    (td : table_data) (vals : list value) : sqlite_error + table_data :=
  let row := bound_row td columns vals in
  let append row :=
    inr {| td_columns := td_columns td; td_rows := td_rows td ++ [row] |} in
  match pk_index td with
  | None => append row
  | Some i =>
      match row_key td row with
      | VNone =>
          if integer_key td then
            match next_rowid td with
            | Some z => append (<[i := VInt z]> row)
            | None => inl (OperationalError "database or disk is full")
            end
          else append row
      | key =>
          if integer_key td && negb (bool_decide (type key = int_)) then
            inl (IntegrityError "datatype mismatch")
          else insert_keyed upsert td key row
      end
  end.

(** The rows of one statement are inserted in order; the first failure
    fails the statement. *)
Fixpoint insert_rows (upsert : bool) (columns : list string)
    (td : table_data) (rows : list (list value)) : sqlite_error + table_data :=
  match rows with
  | [] => inr td
  | vals :: rows' =>
      match insert_row upsert columns td vals with
      | inl e => inl e
      | inr td' => insert_rows upsert columns td' rows'
      end
  end.

(** *** Statements *)

(** What is checked when an insert is prepared, before anything is
    bound: the table, the text, and the columns named. *)
Definition prepare_insert (upsert : bool) (table : string)
    (columns : list string) (rows : nat) (db : dict table_data)
  : sqlite_error + table_data :=
  match lookup_name table db with
  | None => inl (OperationalError "no such table")
  | Some td =>
      if negb (prepares (Insert upsert table columns rows)) then
        inl (OperationalError "syntax error")
      else if decide (columns = [] ∨ rows = 0) then
        inl (OperationalError "syntax error")
      else if decide (fold_case <$> columns ⊆ column_names td) then inr td
      else inl (OperationalError "table has no column named")
  end.

(** The prepared insert run: the parameters are bound, then the rows are
    inserted. *)
Definition run_insert (upsert : bool) (columns : list string) (rows : nat)
    (parameters : list value) (td : table_data)
  : sqlite_error + table_data :=
  if decide (length parameters = rows * length columns) then
    if decide (Forall bindable parameters) then
      insert_rows upsert columns td
        (reshape (replicate rows (length columns)) (adapt <$> parameters))
    else
      inl (OverflowError "Python int too large to convert to SQLite INTEGER")
  else inl (ProgrammingError "Incorrect number of bindings supplied").

Definition sqlite_create (table : string)
    (columns : list (string * string * bool)) (db : dict table_data)
  : sqlite_error + dict table_data :=
  if decide (fold_case table ∈ fold_case <$> keys db) then
    inl (OperationalError "table already exists")
  else if decide (columns = []) then inl (OperationalError "syntax error")
  else if negb (prepares (CreateTable table columns)) then
    inl (OperationalError "syntax error")
  else if decide (NoDup (fold_case <$> columns.*1.*1)) then
    if decide (length (filter (λ c, c.2 = true) columns) ≤ 1)%nat then
      inr (db ++
           [(table,
             {| td_columns :=
                  (λ '(n, ty, pk),
                     {| def_name := n; def_type := ty; def_pk := pk;
                        def_references := None |}) <$> columns;
                td_rows := [] |})])
    else inl (OperationalError "table has more than one primary key")
  else inl (OperationalError "duplicate column name").

Definition sqlite_alter
    (table column column_type other_table other_column : string)
    (db : dict table_data) : sqlite_error + dict table_data :=
  match lookup_name table db with
  | None => inl (OperationalError "no such table")
  | Some td =>
      if negb (prepares (AlterTableAddColumn table column column_type
                           other_table other_column)) then
        inl (OperationalError "syntax error")
      else if decide (fold_case column ∈ column_names td) then
        inl (OperationalError "duplicate column name")
      else if negb (references db other_table other_column) then
        inl (OperationalError "foreign key mismatch")
      else
        inr (replace_name table
               {| td_columns :=
                    td_columns td ++
                    [{| def_name := column; def_type := column_type;
                        def_pk := false;
                        def_references := Some (other_table, other_column) |}];
                  td_rows := (λ r, r ++ [VNone]) <$> td_rows td |}
               db)
  end.

Definition sqlite_drop (table : string) (db : dict table_data)
  : sqlite_error + dict table_data :=
  if decide (fold_case table ∈ fold_case <$> keys db) then
    if prepares (DropTable table) then inr (remove_name table db)
    else inl (OperationalError "syntax error")
  else inl (OperationalError "no such table").

(** The rows of [PRAGMA table_info]: position, name, declared type,
    not-null flag, default, primary-key flag. *)
Definition table_info (td : table_data) : list (list value) :=
  imap (λ i c, [VInt (Z.of_nat i); VStr (def_name c); VStr (def_type c);
                VInt 0; VNone; VInt (if def_pk c then 1 else 0)])
       (td_columns td).

(** Modelled from the spec: [execute] of the storage engine. *)
Definition sqlite_execute (sql : statement) (parameters : list value)
    (c : sqlite_connection) : (sqlite_error + cursor) * sqlite_connection :=
  let unbound :=
    (inl (ProgrammingError "Incorrect number of bindings supplied"), c) in
  let schema (r : sqlite_error + dict table_data) :=
    match parameters, r with
    | _ :: _, _ => unbound
    | [], inl e => (inl e, c)
    | [], inr db =>
        (inr {| fetchall := []; rowcount := (-1)%Z |},
         match transaction c with
         | Some _ => {| committed := committed c; transaction := Some db |}
         | None => {| committed := db; transaction := None |}
         end)
    end in
  let query (rows : list (list value)) :=
    match parameters with
    | _ :: _ => unbound
    | [] => (inr {| fetchall := rows; rowcount := (-1)%Z |}, c)
    end in
  match sql with
  | SelectTableNames => query ((λ n, [VStr n]) <$> keys (pending c))
  | PragmaTableInfo table =>
      if prepares sql then
        query (default [] (table_info <$> lookup_name table (pending c)))
      else (inl (OperationalError "syntax error"), c)
  | CreateTable table columns =>
      schema (sqlite_create table columns (pending c))
  | DropTable table => schema (sqlite_drop table (pending c))
  | AlterTableAddColumn table column column_type other_table other_column =>
      schema (sqlite_alter table column column_type other_table other_column
                           (pending c))
  | Insert upsert table columns rows =>
      match prepare_insert upsert table columns rows (pending c) with
      | inl e => (inl e, c)
      | inr td =>
          match run_insert upsert columns rows parameters td with
          | inl e =>
              (inl e, {| committed := committed c;
                         transaction := Some (pending c) |})
          | inr td' =>
              (inr {| fetchall := []; rowcount := Z.of_nat rows |},
               {| committed := committed c;
                  transaction :=
                    Some (replace_name table td' (pending c)) |})
          end
      end
  end.

(** Modelled from the spec: [commit] of the storage engine, which
    persists everything executed since the last commit. *)
Definition sqlite_commit (c : sqlite_connection) : sqlite_connection :=
  {| committed := pending c; transaction := None |}.

#[global] Instance sqlite_model : Engine := {
  connection := sqlite_connection;
  engine_execute := sqlite_execute;
  engine_commit := sqlite_commit;
}.

(** A fresh connection to an empty database. *)
Definition empty_database : @Database sqlite_model :=
  {| conn := {| committed := []; transaction := None |}; trace := [] |}.
End storage.

(** *** A dialect for the examples *)

(** The examples run on one dialect: 999 variables to a statement;
    identifiers that are words of letters, digits and underscores and
    not among a few reserved words; an integer stored as its decimal
    text in a [TEXT] column and as a float in a [FLOAT] column, a float
    without fraction stored as an integer in an [INTEGER] column, and
    every other value stored as bound (the conversions between floats
    and text are not part of this dialect, and the examples do not store
    such values); floats compared by value and other keys by identity; a
    reference accepted when the table and the column referred to
    exist. The theorems hold for every dialect. *)
Definition reserved_words : list string :=
  ["select"; "from"; "where"; "table"; "order"; "group"; "insert"; "into";
   "values"; "create"; "drop"; "index"; "primary"; "references"; "and";
   "or"; "not"; "null"].

Definition word_char (a : Ascii.ascii) : bool :=
  let n := Ascii.nat_of_ascii a in
  bool_decide ((48 ≤ n ≤ 57) ∨ (65 ≤ n ≤ 90) ∨ (97 ≤ n ≤ 122) ∨ n = 95)%nat.

Definition plain_name (s : string) : bool :=
  match s with
  | EmptyString => false
  | String a _ =>
      negb (bool_decide (48 ≤ Ascii.nat_of_ascii a ≤ 57)%nat)
      && forallb word_char (String.list_ascii_of_string s)
      && bool_decide (fold_case s ∉ reserved_words)
  end.

(** The names spliced into a statement's text unquoted. *)
Definition statement_names (sql : statement) : list string :=
  match sql with
  | SelectTableNames | PragmaTableInfo _ => []
  | CreateTable table columns =>
      table :: mjoin ((λ '(n, ty, _), [n; ty]) <$> columns)
  | DropTable table => [table]
  | AlterTableAddColumn table column column_type other_table other_column =>
      [table; column; column_type; other_table; other_column]
  | Insert _ table columns _ => table :: columns
  end.

Definition statement_variables (sql : statement) : nat :=
  match sql with
  | Insert _ _ columns rows => rows * length columns
  | _ => 0
  end.

Definition reference_prepares (sql : statement) : bool :=
  forallb plain_name (statement_names sql)
  && bool_decide (statement_variables sql ≤ 999)%nat
  && match sql with
     | PragmaTableInfo table =>
         forallb (λ a, negb (bool_decide (Ascii.nat_of_ascii a = 93%nat)))
                 (String.list_ascii_of_string table)
     | _ => true
     end.

(** The integer a float stands for, when it has no fraction. *)
Definition float_integer (f : spec_float) : option Z :=
  match f with
  | S754_zero _ => Some 0%Z
  | S754_finite s m e =>
      let z :=
        if decide (0 ≤ e)%Z then Some (Zpos m * 2 ^ e)%Z
        else if decide ((Zpos m) mod 2 ^ (- e) = 0)%Z
             then Some (Zpos m / 2 ^ (- e))%Z
             else None in
      (λ z : Z, if s then (- z)%Z else z) <$> z
  | _ => None
  end.

Definition reference_store (column_type : string) (v : value) : value :=
  match v with
  | VInt z =>
      if decide (fold_case column_type = "text") then VStr (pretty z)
      else if decide (fold_case column_type = "float")
           then VFloat (binary_normalize 53 1024 z 0 false)
           else v
  | VFloat f =>
      if decide (fold_case column_type = "integer") then
        match float_integer f with
        | Some z =>
            if decide (- 2 ^ 63 < z < 2 ^ 63 - 1)%Z then VInt z else v
        | None => v
        end
      else v
  | _ => v
  end.

Definition reference_key_eq (a b : value) : bool :=
  match a, b with
  | VFloat f, VFloat g => SFeqb f g
  | _, _ => bool_decide (a = b)
  end.

Definition reference_references (db : dict table_data)
    (other_table other_column : string) : bool :=
  match lookup_name other_table db with
  | Some td => bool_decide (fold_case other_column ∈ column_names td)
  | None => false
  end.

#[global] Program Instance reference_dialect : Dialect := {
  prepares := reference_prepares;
  max_variables := 999;
  store := reference_store;
  key_eq := reference_key_eq;
  references := reference_references;
  random_rowid := λ _, None;
}.
Next Obligation.
  intros upsert table columns rows Hp. unfold reference_prepares in Hp.
  apply andb_prop in Hp as [Hp _]. apply andb_prop in Hp as [_ Hp].
  by apply bool_decide_eq_true in Hp.
Qed.
Next Obligation. done. Qed.

(** ** Several handles on one database *)

(** The public methods of [Table] that touch the object or the
    database. *)
Inductive call : Type :=
  | CallColumns
  | CallCreate (columns : dict py_type) (pk : option string)
               (foreign_keys : option (list foreign_key))
  | CallDrop
  | CallAddForeignKey (column column_type other_table other_column : string)
  | CallInsert (r : record) (pk : option string)
               (foreign_keys : option (list foreign_key)) (upsert : bool)
  | CallInsertAll (records : list record) (pk : option string)
                  (foreign_keys : option (list foreign_key)) (upsert : bool)
                  (batch_size : Z)
  | CallUpsert (r : record) (pk : option string)
               (foreign_keys : option (list foreign_key))
  | CallUpsertAll (records : list record) (pk : option string)
                  (foreign_keys : option (list foreign_key)).

(** Whether the call returned or raised. *)
Definition outcome_of {S A} (r : (exception + A) * S) : (exception + ()) * S :=
  (match r.1 with inl e => inl e | inr _ => inr () end, r.2).

Definition invoke `{Engine} (c : call) : M (Table * Database) () :=
  λ s,
    match c with
    | CallColumns => outcome_of (Table.columns s)
    | CallCreate cols pk fks => Table.create cols pk fks s
    | CallDrop => outcome_of (Table.drop s)
    | CallAddForeignKey c ty ot oc => outcome_of (Table.add_foreign_key c ty ot oc s)
    | CallInsert r pk fks u => outcome_of (Table.insert r pk fks u s)
    | CallInsertAll rs pk fks u b => outcome_of (Table.insert_all rs pk fks u b s)
    | CallUpsert r pk fks => outcome_of (Table.upsert r pk fks s)
    | CallUpsertAll rs pk fks => outcome_of (Table.upsert_all rs pk fks s)
    end.

(** The calls that reach [Table.create]. *)
Definition may_create (c : call) : bool :=
  match c with
  | CallCreate _ _ _ | CallInsert _ _ _ _ | CallInsertAll _ _ _ _ _
  | CallUpsert _ _ _ | CallUpsertAll _ _ _ => true
  | _ => false
  end.

(** A program's view: the [Table] objects it holds, each a separate
    object, and the database they share. *)
Record session `{Engine} : Type := {
  handles : list Table;
  shared : Database;
}.

(** What can happen next: a new handle is taken with [db[table_name]], a
    method is called on the [i]-th handle, or a statement or commit
    reaches the connection from elsewhere. An exception ends the call and
    the program goes on. *)
Inductive action : Type :=
  | Open (table_name : string)
  | Invoke (i : nat) (c : call)
  | Execute (sql : statement) (parameters : list value)
  | Commit.

Definition step `{Engine} (s : session) (a : action) : session :=
  match a with
  | Open table_name =>
      match Database.getitem table_name (shared s) with
      | (inr t, db) => {| handles := handles s ++ [t]; shared := db |}
      | (inl _, db) => {| handles := handles s; shared := db |}
      end
  | Invoke i c =>
      match handles s !! i with
      | Some t =>
          let '(_, (t', db)) := invoke c (t, shared s) in
          {| handles := <[i := t']> (handles s); shared := db |}
      | None => s
      end
  | Execute sql parameters =>
      {| handles := handles s;
         shared := (Database.execute sql parameters (shared s)).2 |}
  | Commit => {| handles := handles s; shared := (Database.commit (shared s)).2 |}
  end.

Definition run `{Engine} (s : session) (actions : list action) : session :=
  foldl step s actions.

(** ** Reading traces *)

(** The calls a successful run of the chunk loop makes: for each chunk
    its insert, which returned the given cursor, then a commit. *)
Fixpoint chunk_events (upsert : bool) (table : string)
    (all_columns : list string) (cs : list (list record))
    (results : list cursor) : list event :=
  match cs, results with
  | chunk :: cs', cur :: results' =>
      EvExecute (Insert upsert table all_columns (length chunk))
                (Table.chunk_values all_columns chunk) (inr cur)
      :: EvCommit
      :: chunk_events upsert table all_columns cs' results'
  | _, _ => []
  end.

(** The connection after the calls of a trace. *)
Definition replay `{Engine} (events : list event) (c : connection)
  : connection :=
  foldl (λ c ev,
           match ev with
           | EvExecute sql parameters _ => (engine_execute sql parameters c).2
           | EvCommit => engine_commit c
           end)
        c events.

(** The outcomes a trace records are the ones the engine gives when the
    calls are made from [c]. *)
Fixpoint consistent `{Engine} (events : list event) (c : connection) : Prop :=
  match events with
  | [] => True
  | EvExecute sql parameters outcome :: events' =>
      (engine_execute sql parameters c).1 = outcome ∧
      consistent events' (engine_execute sql parameters c).2
  | EvCommit :: events' => consistent events' (engine_commit c)
  end.

(** The statements of a trace, in order. *)
Definition statements (events : list event) : list statement :=
  omap (λ ev, match ev with
              | EvExecute sql _ _ => Some sql
              | EvCommit => None
              end) events.

Definition is_insert (sql : statement) : bool :=
  match sql with Insert _ _ _ _ => true | _ => false end.

(** The statement [add_foreign_key] builds for one foreign key. *)
Definition alter_statement (table : string) (fk : foreign_key) : statement :=
  AlterTableAddColumn table (column fk) (column_type fk)
                      (other_table fk) (other_column fk).

(** The calls a successful run of the foreign-key loop makes. *)
Fixpoint foreign_key_events (table : string) (fks : list foreign_key)
    (results : list cursor) : list event :=
  match fks, results with
  | fk :: fks', cur :: results' =>
      EvExecute (alter_statement table fk) [] (inr cur)
      :: EvCommit
      :: foreign_key_events table fks' results'
  | _, _ => []
  end.

(** [db'] is [db] after exactly the calls [events], with the outcomes the
    engine gave. *)
Definition extends `{Engine} (db db' : Database) (events : list event) : Prop :=
  trace db' = trace db ++ events ∧
  conn db' = replay events (conn db) ∧
  consistent events (conn db).

(** A handle whose flag was set. *)
Definition present (self : Table) : Table :=
  {| name := name self; exists_ := true |}.

(** The statement [create] has [create_table] build: the columns not
    claimed by a foreign key. *)
Definition create_statement (table : string) (columns : dict py_type)
    (pk : option string) (foreign_keys : option (list foreign_key))
  : statement :=
  CreateTable table
    (Database.create_columns
       (filter (λ nv, nv.1 ∉ Table.claimed_columns foreign_keys) columns) pk).

(** The two calls of a [create_table] that returned. *)
Definition create_table_events (sql : statement) (cur cur' : cursor)
  : list event :=
  [EvExecute sql [] (inr cur); EvExecute SelectTableNames [] (inr cur')].

(** The insert of one chunk. *)
Definition insert_statement (upsert : bool) (table : string)
    (all_columns : list string) (chunk : list record) : statement :=
  Insert upsert table all_columns (length chunk).

(** The inserts of a trace, in order: each statement with the values
    bound to it. *)
Definition insert_calls (events : list event)
  : list (statement * list value) :=
  omap (λ ev, match ev with
              | EvExecute (Insert u t c n) ps _ => Some (Insert u t c n, ps)
              | _ => None
              end) events.

(** A call that is not an insert. *)
Definition no_insert (ev : event) : Prop :=
  match ev with
  | EvExecute sql _ _ => is_insert sql = false
  | EvCommit => True
  end.

(** The exception of the [return result] that finds [result] unbound. *)
Definition result_unbound : exception :=
  UnboundLocalError "local variable 'result' referenced before assignment".

(** A method leaves the handle as it was or sets the flag of a handle
    that was absent. *)
Definition keeps_or_sets `{Engine} {A} (m : M (Table * Database) A) : Prop :=
  ∀ self db, (m (self, db)).2.1 = self ∨
             ((m (self, db)).2.1 = present self ∧ exists_ self = false).

(** The rows the model stores for records written with the column list
    [cols], before the columns of the table are filled in. *)
Definition bound_rows (cols : list string) (records : list record)
  : list (list value) :=
  (λ r, adapt <$> Table.row_values cols r) <$> records.

(** ** Handles and records used in the examples *)

(** A handle on a table [t] that was absent when the handle was taken. *)
Definition absent_t : Table := {| name := "t"; exists_ := false |}.

(** A handle on a table [t] that was present when the handle was taken. *)
Definition present_t : Table := {| name := "t"; exists_ := true |}.

(** The record [{"id": i}]. *)
Definition id_record (i : Z) : record := [("id", VInt i)].

(** The record [{"id": i, "v": s}]. *)
Definition id_v_record (i : Z) (s : string) : record :=
  [("id", VInt i); ("v", VStr s)].

(** The foreign key [("b", "INTEGER", "other", "id")]. *)
Definition fk_b : foreign_key :=
  {| column := "b"; column_type := "INTEGER";
     other_table := "other"; other_column := "id" |}.

(** The rows of a table of the model, pending and committed. *)
Definition pending_rows `{Dialect} (table : string)
    (db : @Database sqlite_model) : option (list (list value)) :=
  td_rows <$> lookup_name table (pending (conn db)).

Definition committed_rows `{Dialect} (table : string)
    (db : @Database sqlite_model) : option (list (list value)) :=
  td_rows <$> lookup_name table (committed (conn db)).

(** ** Reading results *)

(** The distinct items of a list, in the order of their first
    occurrence. *)
Definition first_occurrences (l : list string) : list string :=
  reverse (remove_dups (reverse l)).

(** A [Column] read back as the tuple it was built from. *)
Definition Column_fields (c : Column.t) : list value :=
  [Column.cid c; Column.name c; Column.type c;
   Column.notnull c; Column.default_value c; Column.is_pk c].

(** The keyword written for a set of observed kinds: TEXT as soon as a
    [str] or [None] was seen, else FLOAT as soon as a [float] was seen,
    else INTEGER. *)
Definition widest_keyword (kinds : gset py_type) : string :=
  if decide (str_ ∈ kinds ∨ NoneType ∈ kinds) then "TEXT"
  else if decide (float_ ∈ kinds) then "FLOAT"
  else "INTEGER".

(** ** Reading the model *)

Section reading.
Context `{Dialect}.

(** The checks an insert of [rows] rows passes before it is run: its
    text can be prepared, it names a column, and the table has every
    column it names. *)
Definition prepared (upsert : bool) (table : string) (cols : list string)
    (td : table_data) (rows : nat) : Prop :=
  prepares (Insert upsert table cols rows) = true ∧
  cols ≠ [] ∧ fold_case <$> cols ⊆ column_names td.

#[global] Instance prepared_dec upsert table cols td rows :
  Decision (prepared upsert table cols td rows).
Proof. unfold prepared. apply _. Defined.

(** The column definitions the model keeps for a mapping created
    without primary key and without foreign keys. *)
Definition plain_columns (columns : dict py_type) : list column_def :=
  (λ '(n, ty), {| def_name := n; def_type := col_type_keyword ty;
                  def_pk := false; def_references := None |}) <$> columns.

(** The row stored for a record in the table created from the mapping
    [columns]: for each field the record's value, or NULL where the
    record lacks the field, bound and converted by the column's type. *)
Definition stored_row (columns : dict py_type) (r : record) : list value :=
  (λ '(n, ty),
     store (col_type_keyword ty) (adapt (default VNone (dict_get n r))))
  <$> columns.

(** Replace on conflict, in the spec's words: the rows whose key is the
    new row's are deleted, and the new row is added. *)
Definition replace_row (td : table_data) (rows : list (list value))
    (new : list value) : list (list value) :=
  filter (λ r, clashes td (row_key td new) r = false) rows ++ [new].

(** A key the table can hold: not NULL, and an integer where the primary
    key is declared [INTEGER]. *)
Definition storable_key (td : table_data) (row : list value) : Prop :=
  row_key td row ≠ VNone ∧
  (integer_key td = true → type (row_key td row) = int_).
End reading.

(** The [Column] that [columns] builds from the row by which the model's
    [PRAGMA table_info] describes the column at position [i]. *)
Definition described_column (i : nat) (c : column_def) : Column.t :=
  {| Column.cid := VInt (Z.of_nat i);
     Column.name := VStr (def_name c);
     Column.type := VStr (def_type c);
     Column.notnull := VInt 0;
     Column.default_value := VNone;
     Column.is_pk := VInt (if def_pk c then 1 else 0) |}.
(** ** Facts about dictionaries *)

Section dict_facts.
Context {V : Type}.
Implicit Types (d : dict V) (key k : string) (v : V).

Lemma dict_get_None key d : dict_get key d = None ↔ key ∉ keys d.
Proof.
  unfold keys. induction d as [|[k w] d IH].
  - split; [intros _; apply not_elem_of_nil | done].
  - cbn [dict_get fmap list_fmap fst]. rewrite not_elem_of_cons.
    destruct (decide (k = key)) as [->|Hne].
    + split; [done | by intros []].
    + rewrite IH. split; [by split | by intros []].
Qed.

Lemma dict_get_is_Some key d : is_Some (dict_get key d) ↔ key ∈ keys d.
Proof.
  rewrite <- not_eq_None_Some, dict_get_None.
  destruct (decide (key ∈ keys d)); split; auto.
  intros H. by destruct H.
Qed.

Lemma dict_get_elem_of key v d : dict_get key d = Some v → (key, v) ∈ d.
Proof.
  induction d as [|[k w] d IH]; cbn [dict_get]; [done|].
  destruct (decide (k = key)) as [->|Hne].
  - intros [= ->]. left.
  - intros ?. right. auto.
Qed.

Lemma dict_set_notin key v d :
  key ∉ keys d → dict_set key v d = d ++ [(key, v)].
Proof.
  unfold keys. induction d as [|[k w] d IH]; [done|].
  cbn [dict_set fmap list_fmap fst]. rewrite not_elem_of_cons.
  intros [? ?]. rewrite decide_False by done. by rewrite IH.
Qed.

Lemma keys_dict_set key v d :
  keys (dict_set key v d) =
    if decide (key ∈ keys d) then keys d else keys d ++ [key].
Proof.
  unfold keys. induction d as [|[k w] d IH].
  - rewrite decide_False by apply not_elem_of_nil. done.
  - cbn [dict_set fmap list_fmap fst].
    destruct (decide (k = key)) as [->|Hne].
    + rewrite decide_True by left. done.
    + cbn [fmap list_fmap fst]. rewrite IH.
      destruct (decide (key ∈ d.*1)) as [Hin|Hin].
      * rewrite decide_True by (by right). done.
      * rewrite decide_False; [done|].
        rewrite elem_of_cons. by intros [->|].
Qed.

Lemma elem_of_keys_dict_set key k v d :
  k ∈ keys (dict_set key v d) ↔ k = key ∨ k ∈ keys d.
Proof.
  rewrite keys_dict_set. case_decide.
  - naive_solver.
  - rewrite elem_of_app, list_elem_of_singleton. naive_solver.
Qed.

Lemma NoDup_keys_dict_set key v d :
  NoDup (keys d) → NoDup (keys (dict_set key v d)).
Proof.
  intros Hd. rewrite keys_dict_set. case_decide; [done|].
  apply NoDup_app. split_and!; [done| |apply NoDup_singleton].
  intros x Hx Hx'. apply list_elem_of_singleton in Hx'. by subst.
Qed.

Lemma dict_get_dict_set key k v d :
  dict_get k (dict_set key v d) =
    if decide (key = k) then Some v else dict_get k d.
Proof.
  induction d as [|[k' w] d IH]; cbn [dict_set dict_get].
  - done.
  - destruct (decide (k' = key)) as [->|Hne]; cbn [dict_get].
    + by destruct (decide (key = k)).
    + rewrite IH. destruct (decide (k' = k)) as [->|]; [|done].
      by rewrite decide_False.
Qed.

Lemma keys_fmap {W} (f : W → V) (l : dict W) :
  keys (prod_map id f <$> l) = keys l.
Proof.
  unfold keys. induction l as [|[k w] l IH]; [done|].
  cbn [fmap list_fmap prod_map fst id]. by f_equal.
Qed.

Lemma dict_get_fmap {W} (f : W → V) key (l : dict W) :
  dict_get key (prod_map id f <$> l) = f <$> dict_get key l.
Proof.
  induction l as [|[k w] l IH]; [done|].
  cbn [fmap list_fmap prod_map fst snd id dict_get].
  by destruct (decide (k = key)).
Qed.

(** Building a dictionary by successive assignments from a list of
    pairs with distinct keys keeps the list's order. *)
Lemma foldl_dict_set {W} (f : W → V) (l : dict W) :
  NoDup (keys l) →
  foldl (λ acc kw, dict_set kw.1 (f kw.2) acc) [] l = prod_map id f <$> l.
Proof.
  induction l as [|[k w] l IH] using rev_ind; [done|].
  unfold keys. rewrite fmap_app, NoDup_app. intros (Hl & Hk & _).
  rewrite foldl_snoc, fmap_app, IH by done.
  apply dict_set_notin. rewrite keys_fmap.
  intros Hin. apply (Hk k); [done | left].
Qed.
End dict_facts.

(** ** Type inference: what is observed and what is inferred *)

Lemma elem_of_observed_kinds records key t :
  t ∈ observed_kinds records key ↔
  ∃ r v, r ∈ records ∧ (key, v) ∈ r ∧ type v = t.
Proof.
  unfold observed_kinds. rewrite elem_of_list_to_set, list_elem_of_fmap.
  split.
  - intros ([k v] & -> & Hin). apply list_elem_of_filter in Hin as [Hk Hin].
    simpl in Hk. subst k. apply list_elem_of_join in Hin as (r & ? & ?).
    by exists r, v.
  - intros (r & v & Hr & Hv & <-). exists (key, v). split; [done|].
    apply list_elem_of_filter. split; [done|].
    apply list_elem_of_join. by exists r.
Qed.

Lemma types_at_observe acc k v key :
  types_at (observe acc k v) key =
    if decide (k = key) then types_at acc key ∪ {[type v]}
    else types_at acc key.
Proof.
  unfold types_at, observe, dict_setdefault.
  destruct (dict_get k acc) as [s|] eqn:Hk.
  - rewrite dict_get_dict_set. case_decide; subst; [by rewrite Hk | done].
  - rewrite !dict_get_dict_set. case_decide; subst; [by rewrite Hk | done].
Qed.

Lemma keys_observe acc k v key :
  key ∈ keys (observe acc k v) ↔ key = k ∨ key ∈ keys acc.
Proof.
  unfold observe, dict_setdefault.
  destruct (dict_get k acc) as [s|] eqn:Hk.
  - apply elem_of_keys_dict_set.
  - rewrite !elem_of_keys_dict_set. naive_solver.
Qed.

Lemma NoDup_keys_observe acc k v :
  NoDup (keys acc) → NoDup (keys (observe acc k v)).
Proof.
  intros. unfold observe, dict_setdefault.
  destruct (dict_get k acc); auto using NoDup_keys_dict_set.
Qed.

Lemma collect_types_concat records :
  collect_types records =
    foldl (λ acc kv, observe acc kv.1 kv.2) [] (mjoin records).
Proof.
  unfold collect_types. generalize (@nil (string * gset py_type)).
  induction records as [|r records IH]; intros acc; simpl; [done|].
  by rewrite foldl_app, IH.
Qed.

Lemma observe_items_spec (items : list (string * value)) acc key :
  let acc' := foldl (λ acc kv, observe acc kv.1 kv.2) acc items in
  types_at acc' key =
    types_at acc key ∪
    list_to_set ((λ kv, type kv.2) <$> filter (λ kv, kv.1 = key) items)
  ∧ (key ∈ keys acc' ↔ key ∈ keys acc ∨ key ∈ items.*1)
  ∧ (NoDup (keys acc) → NoDup (keys acc')).
Proof.
  revert acc. induction items as [|[k v] items IH]; intros acc; simpl.
  - split_and!; [set_solver | | done].
    rewrite elem_of_nil. naive_solver.
  - destruct (IH (observe acc k v)) as (IH1 & IH2 & IH3).
    split_and!.
    + rewrite IH1, types_at_observe, filter_cons. simpl.
      case_decide; simpl; set_solver.
    + rewrite IH2, keys_observe, elem_of_cons. naive_solver.
    + auto using NoDup_keys_observe.
Qed.

Lemma collect_types_spec records key :
  dict_get key (collect_types records) =
    if decide (observed_kinds records key = ∅) then None
    else Some (observed_kinds records key).
Proof.
  rewrite collect_types_concat.
  destruct (observe_items_spec (mjoin records) [] key) as (H1 & H2 & _).
  simpl in *. unfold types_at at 2 in H1. simpl in H1.
  rewrite (left_id_L ∅ (∪)) in H1. fold (observed_kinds records key) in H1.
  set (acc := foldl _ _ _) in *.
  assert (key ∈ keys acc ↔ observed_kinds records key ≠ ∅) as Hkeys.
  { rewrite H2. unfold observed_kinds, keys. rewrite elem_of_nil.
    rewrite list_elem_of_fmap. split.
    - intros [[]|([k v] & -> & Hin)]. simpl.
      intros Hempty. apply (not_elem_of_empty (C:=gset py_type) (type v)).
      rewrite <- Hempty, elem_of_list_to_set, list_elem_of_fmap.
      exists (k, v). split; [done|]. by apply list_elem_of_filter.
    - intros Hne. right.
      destruct (filter (λ kv, kv.1 = key) (mjoin records))
        as [|[k v] l] eqn:Hf; [done|].
      assert ((k, v) ∈ filter (λ kv, kv.1 = key) (mjoin records)) as Hin
        by (rewrite Hf; left).
      apply list_elem_of_filter in Hin as [Hk Hin]. simpl in Hk. subst.
      by exists (key, v). }
  case_decide as Hobs.
  - apply dict_get_None. rewrite Hkeys. by intros [].
  - apply Hkeys, dict_get_is_Some in Hobs as [s Hs].
    unfold types_at in H1. rewrite Hs in H1. simpl in H1. by subst.
Qed.

Lemma NoDup_keys_collect_types records : NoDup (keys (collect_types records)).
Proof.
  rewrite collect_types_concat.
  apply (observe_items_spec (mjoin records) [] ""). constructor.
Qed.

Lemma detect_column_types_fmap records :
  detect_column_types records = prod_map id unify <$> collect_types records.
Proof.
  unfold detect_column_types. apply foldl_dict_set, NoDup_keys_collect_types.
Qed.

(** What inference returns for a field: nothing when the field was never
    observed, else the reduction of the observed kinds. *)
Lemma detect_column_types_spec records key :
  dict_get key (detect_column_types records) =
    if decide (observed_kinds records key = ∅) then None
    else Some (unify (observed_kinds records key)).
Proof.
  rewrite detect_column_types_fmap, dict_get_fmap, collect_types_spec.
  by case_decide.
Qed.

Lemma unify_singleton t : unify {[t]} = t.
Proof. unfold unify. by rewrite elements_singleton. Qed.

(** ** C1: the widening table *)

(** C1. For every collection of records, inference gives each observed
    field exactly one column type (the result has no repeated key, and a
    key is in it exactly when the field was observed), and the type
    follows the widening table: observed kinds {int} give INTEGER,
    {int, bool} INTEGER, {int, float} FLOAT, {int, bool, float} FLOAT,
    {str} TEXT, {int, str} TEXT, {None, int} TEXT; a field with exactly one
    observed kind gets that kind itself, and [bool] is written INTEGER. *)
Theorem detect_column_types_widening_table (records : list record)
    (key : string) :
  let kinds := observed_kinds records key in
  let column := inferred_column_type records key in
  NoDup (keys (detect_column_types records)) ∧
  (key ∈ keys (detect_column_types records) ↔ kinds ≠ ∅) ∧
  (kinds = {[int_]} → column = Some "INTEGER") ∧
  (kinds = {[int_; bool_]} → column = Some "INTEGER") ∧
  (kinds = {[int_; float_]} → column = Some "FLOAT") ∧
  (kinds = {[int_; bool_; float_]} → column = Some "FLOAT") ∧
  (kinds = {[str_]} → column = Some "TEXT") ∧
  (kinds = {[int_; str_]} → column = Some "TEXT") ∧
  (kinds = {[NoneType; int_]} → column = Some "TEXT") ∧
  (∀ kind, kinds = {[kind]} →
     dict_get key (detect_column_types records) = Some kind) ∧
  col_type_keyword bool_ = "INTEGER".
Proof.
  intros kinds column.
  assert (∀ s : gset py_type, s ≠ ∅ → kinds = s →
            dict_get key (detect_column_types records) = Some (unify s))
    as Hget.
  { intros s Hs Hk. rewrite detect_column_types_spec. fold kinds.
    rewrite Hk. by rewrite decide_False. }
  assert (∀ (s : gset py_type) kw, s ≠ ∅ → col_type_keyword (unify s) = kw →
            kinds = s → column = Some kw) as Hrow.
  { intros s kw Hs Hkw Hk. unfold column, inferred_column_type.
    rewrite (Hget s Hs Hk). simpl. by rewrite Hkw. }
  split_and!.
  - rewrite detect_column_types_fmap, keys_fmap.
    apply NoDup_keys_collect_types.
  - rewrite <- dict_get_is_Some, detect_column_types_spec. fold kinds.
    case_decide as Hk; split; done || by intros [? ?].
  - apply Hrow; [set_solver | by vm_compute].
  - apply Hrow; [set_solver | by vm_compute].
  - apply Hrow; [set_solver | by vm_compute].
  - apply Hrow; [set_solver | by vm_compute].
  - apply Hrow; [set_solver | by vm_compute].
  - apply Hrow; [set_solver | by vm_compute].
  - apply Hrow; [set_solver | by vm_compute].
  - intros kind Hk. rewrite (Hget {[kind]}); [|set_solver|done].
    by rewrite unify_singleton.
  - done.
Qed.

(** The table read on a concrete batch: field [n] holds an int, a bool
    and a float, so its column is FLOAT. *)
Lemma detect_column_types_widening_table_witness :
  inferred_column_type
    [[("n", VInt 1)]; [("n", VBool true); ("s", VStr "x")];
     [("n", VFloat S754_nan)]] "n" = Some "FLOAT".
Proof.
  apply (detect_column_types_widening_table
           [[("n", VInt 1)]; [("n", VBool true); ("s", VStr "x")];
            [("n", VFloat S754_nan)]] "n").
  vm_compute. reflexivity.
Defined.

(** ** chunks *)

Section chunks_facts.
Context {A : Type}.
Implicit Types (l : list A) (size : Z).

Lemma slice_chunk l i size :
  (0 ≤ i)%Z → (0 < size)%Z →
  slice l i (i + size) = take (Z.to_nat size) (drop (Z.to_nat i) l).
Proof.
  intros Hi Hsize. unfold slice, slice_bound.
  rewrite !decide_False by lia.
  destruct (decide (i + size ≤ Z.of_nat (length l))%Z) as [Hle|Hgt].
  - rewrite Z.min_l, Z.min_l by lia. do 2 f_equal. lia.
  - destruct (decide (i ≤ Z.of_nat (length l))%Z).
    + rewrite (Z.min_l i), Z.min_r by lia.
      rewrite !take_ge; [done|rewrite length_drop; lia..].
    + rewrite !Z.min_r by lia. rewrite Z.sub_diag.
      rewrite (drop_ge l (Z.to_nat i)) by lia. by rewrite take_nil.
Qed.

(** From position [i] on, the chunks are the pieces of [drop i l]. *)
Lemma chunks_from l size fuel i cs :
  (0 < size)%Z → (0 ≤ i)%Z → (Z.of_nat (length l) - i ≤ Z.of_nat fuel)%Z →
  cs = ((λ j, slice l j (j + size)) <$>
          range_up fuel i (Z.of_nat (length l)) size) →
  mjoin cs = drop (Z.to_nat i) l ∧
  Forall (λ c, 0 < length c ∧ (Z.of_nat (length c) ≤ size)%Z) cs ∧
  (∀ k c, cs !! k = Some c → S k < length cs →
          Z.of_nat (length c) = size).
Proof.
  intros Hsize. revert i cs.
  induction fuel as [|fuel IH]; intros i cs Hi Hfuel ->; cbn [range_up].
  - split_and!; [|constructor|done].
    rewrite drop_ge; [done | lia].
  - destruct (i <? Z.of_nat (length l))%Z eqn:Hlt.
    + apply Z.ltb_lt in Hlt. rewrite fmap_cons, slice_chunk by done.
      destruct (IH (i + size)%Z _ ltac:(lia) ltac:(lia) eq_refl)
        as (IH1 & IH2 & IH3).
      remember ((λ j, slice l j (j + size)%Z) <$>
                  range_up fuel (i + size) (Z.of_nat (length l)) size)
        as rest eqn:Hrest.
      clear Hrest IH.
      split_and!.
      * change (mjoin (?c :: rest)) with (c ++ mjoin rest). rewrite IH1.
        rewrite Z2Nat.inj_add by lia. rewrite <- drop_drop.
        apply take_drop.
      * constructor; [|done]. rewrite length_take, length_drop. lia.
      * intros [|k] c Hk Hlen; cbn in Hk.
        -- injection Hk as <-. rewrite length_take, length_drop.
           destruct rest as [|c' rest']; [cbn in Hlen; lia|].
           assert (0 < length c') as Hc'.
           { by apply Forall_cons_1 in IH2 as [[? _] _]. }
           change (mjoin (c' :: rest')) with (c' ++ mjoin rest') in IH1.
           apply (f_equal length) in IH1.
           rewrite length_app, length_drop in IH1. lia.
        -- apply (IH3 k c Hk). cbn in Hlen. lia.
    + apply Z.ltb_ge in Hlt. split_and!; [|constructor|done].
      rewrite drop_ge; [done | lia].
Qed.

(** For a positive size, [chunks] cuts the sequence into consecutive
    non-empty pieces of at most [size] items, all of them of [size]
    items except possibly the last. *)
Lemma chunks_positive l size :
  (0 < size)%Z →
  ∃ cs, chunks l size = inr cs ∧
    mjoin cs = l ∧
    Forall (λ c, 0 < length c ∧ (Z.of_nat (length c) ≤ size)%Z) cs ∧
    (∀ k c, cs !! k = Some c → S k < length cs →
            Z.of_nat (length c) = size).
Proof.
  intros Hsize. unfold chunks, range.
  rewrite decide_False, decide_True by lia.
  eexists. split; [done|].
  rewrite Z.sub_0_r.
  destruct (chunks_from l size (Z.to_nat (Z.of_nat (length l))) 0 _
              Hsize ltac:(lia) ltac:(lia) eq_refl) as (H1 & H2 & H3).
  by split_and!.
Qed.

Lemma chunks_zero l : ∃ msg, chunks l 0 = inl (ValueError msg).
Proof. eexists. unfold chunks, range. by rewrite decide_True. Qed.

Lemma chunks_negative l size : (size < 0)%Z → chunks l size = inr [].
Proof.
  intros. unfold chunks, range. rewrite !decide_False by lia.
  replace (Z.to_nat (0 - Z.of_nat (length l))) with 0 by lia. done.
Qed.

Lemma chunks_nil size :
  chunks (@nil A) size = inr [] ∨ ∃ msg, chunks (@nil A) size = inl (ValueError msg).
Proof.
  unfold chunks, range. destruct (decide (size = 0%Z)); [right; by eexists|].
  left. by destruct (decide (0 < size)%Z).
Qed.

(** Whatever the size, the chunks produced are non-empty pieces that
    make up the sequence or there is none. *)
Lemma chunks_inr l size cs :
  chunks l size = inr cs →
  Forall (λ c, 0 < length c) cs ∧ (cs = [] ∨ mjoin cs = l).
Proof.
  intros Hcs. destruct (decide (0 < size)%Z) as [Hpos|Hneg].
  - destruct (chunks_positive l size Hpos) as (cs' & Hcs' & Hj & Hall & _).
    rewrite Hcs in Hcs'. injection Hcs' as <-. split; [|by right].
    eapply Forall_impl; [done|]. by intros ? [? _].
  - destruct (decide (size = 0%Z)) as [->|].
    + destruct (chunks_zero l) as [msg Hz]. congruence.
    + rewrite chunks_negative in Hcs by lia. injection Hcs as <-.
      split; [constructor | by left].
Qed.

Lemma elem_of_mjoin_split (cs : list (list A)) c :
  c ∈ cs → ∃ before after, mjoin cs = before ++ c ++ after.
Proof.
  intros (cs1 & cs2 & ->)%list_elem_of_split.
  exists (mjoin cs1), (mjoin cs2). by rewrite join_app.
Qed.
End chunks_facts.

(** ** What each method does to the connection *)

Lemma bind_run {S A B} (m : M S A) (k : A → M S B) (s : S) :
  bind m k s = match m s with
               | (inl e, s') => (inl e, s')
               | (inr a, s') => k a s'
               end.
Proof. done. Qed.

Section runs.
Context `{Engine}.
Implicit Types (db : Database) (self : Table) (events : list event).

Lemma replay_app events1 events2 (c : connection) :
  replay (events1 ++ events2) c = replay events2 (replay events1 c).
Proof. apply foldl_app. Qed.

Lemma consistent_app events1 events2 (c : connection) :
  consistent (events1 ++ events2) c ↔
  consistent events1 c ∧ consistent events2 (replay events1 c).
Proof.
  revert c. induction events1 as [|[sql ps out|] events1 IH]; intros c.
  - cbn. tauto.
  - cbn [app consistent]. rewrite IH. cbn. tauto.
  - cbn [app consistent]. rewrite IH. cbn. tauto.
Qed.

Lemma extends_refl db : extends db db [].
Proof. split_and!; [by rewrite app_nil_r|done..]. Qed.

Lemma extends_trans db db1 db2 events1 events2 :
  extends db db1 events1 → extends db1 db2 events2 →
  extends db db2 (events1 ++ events2).
Proof.
  intros (Ht1 & Hc1 & Ho1) (Ht2 & Hc2 & Ho2). split_and!.
  - by rewrite Ht2, Ht1, app_assoc.
  - by rewrite replay_app, <- Hc1.
  - apply consistent_app. by rewrite <- Hc1.
Qed.

Lemma extends_nil_inv db db' : extends db db' [] → db' = db.
Proof.
  intros (Ht & Hc & _). rewrite app_nil_r in Ht. cbn in Hc.
  destruct db, db'; cbn in *; congruence.
Qed.

(** [execute] makes one call; it returns the engine's cursor or raises
    the engine's error. *)
Lemma execute_run sql ps db r db' :
  Database.execute sql ps db = (r, db') →
  ∃ out, extends db db' [EvExecute sql ps out] ∧
    r = match out with
        | inl e => inl (Sqlite3Error e)
        | inr cur => inr cur
        end.
Proof.
  unfold Database.execute.
  destruct (engine_execute sql ps (conn db)) as [out c] eqn:Hout.
  intros [= <- <-]. exists out. split; [|done].
  split_and!; cbn; rewrite ?Hout; done.
Qed.

Lemma commit_run db :
  ∃ db', Database.commit db = (inr (), db') ∧ extends db db' [EvCommit].
Proof. eexists. split; [done|]. by split_and!. Qed.

(** A comprehension over a pure expression leaves the state alone. *)
Lemma comprehension_pure {S A B} (f : A → exception + B) (l : list A) (s : S) :
  (comprehension (λ x, lift_result (f x)) l s).2 = s.
Proof.
  induction l as [|x l IH]; [done|].
  cbn [comprehension]. unfold bind, lift_result at 1.
  destruct (f x); [done|].
  destruct (comprehension _ l s) as [[e|ys] s'] eqn:Hl; cbn in *; by subst.
Qed.

(** [db[name]] makes one query; the handle it returns has the name
    asked for. *)
Lemma getitem_run table_name db r db' :
  Database.getitem table_name db = (r, db') →
  ∃ out, extends db db' [EvExecute SelectTableNames [] out] ∧
    match r with
    | inl e => True
    | inr t => name t = table_name ∧ ∃ cur, out = inr cur
    end.
Proof.
  unfold Database.getitem, Database.Table__init__, Database.tables, bind.
  destruct (Database.execute SelectTableNames [] db) as [r1 db1] eqn:Hexec.
  apply execute_run in Hexec as (out & Hext & ->).
  destruct out as [e|cur].
  - intros [= <- <-]. by exists (inl e).
  - pose proof (comprehension_pure Database.first_item (fetchall cur) db1)
      as Hpure.
    destruct (comprehension _ (fetchall cur) db1) as [[e|ts] db2];
      cbn in Hpure; subst db2.
    + intros [= <- <-]. by exists (inr cur).
    + cbn. intros [= <- <-]. exists (inr cur). split; [done|].
      split; [done | by eexists].
Qed.

(** [create_table] executes the creation and, when that succeeded,
    the query of the returned handle; it commits nothing. *)
Lemma create_table_run table columns pk db r db' :
  Database.create_table table columns pk db = (r, db') →
  let sql := CreateTable table (Database.create_columns columns pk) in
  (∃ e, r = inl (Sqlite3Error e) ∧
        extends db db' [EvExecute sql [] (inl e)]) ∨
  (∃ cur out, extends db db' [EvExecute sql [] (inr cur);
                              EvExecute SelectTableNames [] out] ∧
     match r with
     | inl e => True
     | inr t => name t = table ∧ ∃ cur', out = inr cur'
     end).
Proof.
  unfold Database.create_table, bind.
  destruct (Database.execute _ [] db) as [r1 db1] eqn:Hexec.
  apply execute_run in Hexec as ([e|cur] & Hext & ->); intros Hrun.
  - injection Hrun as <- <-. left. by exists e.
  - apply getitem_run in Hrun as (out & Hext2 & Hr).
    right. exists cur, out. split; [|done].
    apply (extends_trans _ _ _ [_] [_] Hext Hext2).
Qed.

(** [add_foreign_key] executes the alteration and, when that
    succeeded, commits. *)
Lemma add_foreign_key_run c ty ot oc self db r self' db' :
  Table.add_foreign_key c ty ot oc (self, db) = (r, (self', db')) →
  let sql := AlterTableAddColumn (name self) c ty ot oc in
  self' = self ∧
  ((∃ e, r = inl (Sqlite3Error e) ∧
         extends db db' [EvExecute sql [] (inl e)]) ∨
   (∃ cur, r = inr cur ∧
         extends db db' [EvExecute sql [] (inr cur); EvCommit])).
Proof.
  unfold Table.add_foreign_key, bind, Table.get_self, Table.on_db.
  destruct (Database.execute _ [] db) as [r1 db1] eqn:Hexec.
  apply execute_run in Hexec as ([e|cur] & Hext & ->).
  - intros [= <- <- <-]. split; [done|]. left. by exists e.
  - destruct (commit_run db1) as (db2 & -> & Hext2).
    intros [= <- <- <-]. split; [done|]. right. exists cur.
    split; [done|]. apply (extends_trans _ _ _ [_] [_] Hext Hext2).
Qed.
End runs.

Section loops.
Context `{Engine}.
Implicit Types (db : Database) (self : Table) (events : list event).

(** The loop over the foreign keys: every alteration is followed by a
    commit, and the first one that fails ends the loop. *)
Lemma foreign_key_loop_run fks self db r self' db' :
  for_each
    (λ args,
       let! _ := Table.add_foreign_key (column args) (column_type args)
                   (other_table args) (other_column args) in
       ret ())
    fks (self, db) = (r, (self', db')) →
  self' = self ∧
  ((r = inr () ∧ ∃ results, length results = length fks ∧
      extends db db' (foreign_key_events (name self) fks results)) ∨
   (∃ e i fk results,
      r = inl (Sqlite3Error e) ∧ fks !! i = Some fk ∧ length results = i ∧
      extends db db'
        (foreign_key_events (name self) (take i fks) results ++
         [EvExecute (alter_statement (name self) fk) [] (inl e)]))).
Proof.
  revert db. induction fks as [|fk fks IH]; intros db.
  - intros [= <- <- <-]. split; [done|]. left. split; [done|].
    exists []. split; [done|]. apply extends_refl.
  - cbn [for_each]. unfold bind at 1 2.
    destruct (Table.add_foreign_key _ _ _ _ (self, db))
      as [r1 [self1 db1]] eqn:Hfk.
    apply add_foreign_key_run in Hfk as (-> & [(e & -> & Hext)|(cur & -> & Hext)]).
    + intros [= <- <- <-]. split; [done|]. right.
      exists e, 0, fk, []. by split_and!.
    + unfold ret at 1. intros Hrest.
      apply IH in Hrest as (-> & [(-> & results & Hlen & Hext2)
                                 |(e & i & fk' & results & -> & Hi & Hlen & Hext2)]).
      * split; [done|]. left. split; [done|]. exists (cur :: results).
        split; [cbn; by rewrite Hlen|].
        apply (extends_trans _ _ _ [_; _] _ Hext Hext2).
      * split; [done|]. right. exists e, (S i), fk', (cur :: results).
        split_and!; [done|done|cbn; by rewrite Hlen|].
        apply (extends_trans _ _ _ [_; _] _ Hext Hext2).
Qed.

(** The loop over the chunks: every insert that succeeded is followed
    by a commit, the first one that fails ends the loop, and [result]
    ends as the cursor of the last insert. *)
Lemma insert_chunks_run upsert table cols cs result0 self db r self' db' :
  Table.insert_chunks upsert table cols cs result0 (self, db)
    = (r, (self', db')) →
  self' = self ∧
  ((∃ results,
      r = inr (from_option Some result0 (last results)) ∧
      length results = length cs ∧
      extends db db' (chunk_events upsert table cols cs results)) ∨
   (∃ e i chunk results,
      r = inl (Sqlite3Error e) ∧ cs !! i = Some chunk ∧
      length results = i ∧
      extends db db'
        (chunk_events upsert table cols (take i cs) results ++
         [EvExecute (insert_statement upsert table cols chunk)
                    (Table.chunk_values cols chunk) (inl e)]))).
Proof.
  revert db result0. induction cs as [|chunk cs IH]; intros db result0.
  - intros [= <- <- <-]. split; [done|]. left.
    exists []. split_and!; [done..|]. apply extends_refl.
  - cbn [Table.insert_chunks]. unfold bind at 1 2, Table.on_db at 1 2.
    destruct (Database.execute _ _ db) as [r1 db1] eqn:Hexec.
    apply execute_run in Hexec as ([e|cur] & Hext & ->).
    + intros [= <- <- <-]. split; [done|]. right.
      exists e, 0, chunk, []. by split_and!.
    + destruct (commit_run db1) as (db2 & -> & Hext1).
      intros Hrest.
      apply IH in Hrest as (-> & [(results & -> & Hlen & Hext2)
                                 |(e & i & chunk' & results & -> & Hi & Hlen & Hext2)]).
      * split; [done|]. left. exists (cur :: results). split_and!.
        -- rewrite last_cons. by destruct (last results).
        -- cbn; by rewrite Hlen.
        -- apply (extends_trans _ _ _ [_; _] _
                    (extends_trans _ _ _ [_] [_] Hext Hext1) Hext2).
      * split; [done|]. right. exists e, (S i), chunk', (cur :: results).
        split_and!; [done|done|cbn; by rewrite Hlen|].
        apply (extends_trans _ _ _ [_; _] _
                 (extends_trans _ _ _ [_] [_] Hext Hext1) Hext2).
Qed.

(** What [create] does. It raises out of [create_table], or out of
    the alteration for one foreign key, or it returns with the flag
    set. *)
Lemma create_run columns pk foreign_keys self db r self' db' :
  Table.create columns pk foreign_keys (self, db) = (r, (self', db')) →
  (∃ e, r = inl e ∧ self' = self ∧
     ((∃ e', e = Sqlite3Error e' ∧
        extends db db'
          [EvExecute (create_statement (name self) columns pk foreign_keys)
                     [] (inl e')]) ∨
      (∃ cur out,
        extends db db'
          [EvExecute (create_statement (name self) columns pk foreign_keys)
                     [] (inr cur);
           EvExecute SelectTableNames [] out]))) ∨
  (∃ cur cur' e i fk results,
     r = inl (Sqlite3Error e) ∧ self' = self ∧
     or_empty foreign_keys !! i = Some fk ∧ length results = i ∧
     extends db db'
       (create_table_events
          (create_statement (name self) columns pk foreign_keys) cur cur' ++
        foreign_key_events (name self) (take i (or_empty foreign_keys))
                           results ++
        [EvExecute (alter_statement (name self) fk) [] (inl e)])) ∨
  (∃ cur cur' results,
     r = inr () ∧ self' = present self ∧
     length results = length (or_empty foreign_keys) ∧
     extends db db'
       (create_table_events
          (create_statement (name self) columns pk foreign_keys) cur cur' ++
        foreign_key_events (name self) (or_empty foreign_keys) results)).
Proof.
  unfold Table.create, bind at 1 2, Table.get_self, Table.on_db.
  destruct (Database.create_table _ _ pk db) as [r1 db1] eqn:Hct.
  apply create_table_run in Hct.
  fold (create_statement (name self) columns pk foreign_keys) in Hct.
  destruct Hct as [(e & -> & Hext)|(cur & out & Hext & Hr)].
  { intros [= <- <- <-]. left. exists (Sqlite3Error e).
    split_and!; [done..|]. left. by exists e. }
  destruct r1 as [e|t].
  { intros [= <- <- <-]. left. exists e. split_and!; [done..|].
    right. by exists cur, out. }
  destruct Hr as (_ & cur' & ->).
  assert (
    match foreign_keys with
    | Some fks =>
        if bool_decide (fks ≠ []) then
          for_each
            (λ args,
               let! _ := Table.add_foreign_key (column args) (column_type args)
                           (other_table args) (other_column args) in
               ret ())
            fks
        else ret ()
    | None => ret ()
    end (self, db1) =
    for_each
      (λ args,
         let! _ := Table.add_foreign_key (column args) (column_type args)
                     (other_table args) (other_column args) in
         ret ())
      (or_empty foreign_keys) (self, db1)) as Hloop.
  { by destruct foreign_keys as [[|fk fks]|]. }
  rewrite bind_run, Hloop. clear Hloop.
  destruct (for_each _ (or_empty foreign_keys) (self, db1))
    as [r2 [self2 db2]] eqn:Hfks.
  apply foreign_key_loop_run in Hfks
    as (-> & [(-> & results & Hlen & Hext2)
             |(e & i & fk & results & -> & Hi & Hlen & Hext2)]).
  - intros [= <- <- <-]. right. right. exists cur, cur', results.
    split_and!; [done..|]. apply (extends_trans _ _ _ _ _ Hext Hext2).
  - intros [= <- <- <-]. right. left. exists cur, cur', e, i, fk, results.
    split_and!; [done..|]. apply (extends_trans _ _ _ _ _ Hext Hext2).
Qed.
End loops.

(** ** The unified column list and the bound values *)

Lemma elem_of_all_columns (records : list record) (key : string) :
  key ∈ Table.all_columns records ↔ ∃ r, r ∈ records ∧ key ∈ keys r.
Proof.
  unfold Table.all_columns. rewrite merge_sort_Permutation, elem_of_elements.
  assert (∀ acc : gset string,
    key ∈ foldl (λ acc (r : record), acc ∪ list_to_set (keys r)) acc records
    ↔ key ∈ acc ∨ ∃ r, r ∈ records ∧ key ∈ keys r) as Hfold.
  { induction records as [|r records IH]; intros acc; cbn [foldl].
    - split; [by left|]. intros [?|(r & Hr & _)]; [done|].
      by apply elem_of_nil in Hr.
    - rewrite IH, elem_of_union, elem_of_list_to_set. split.
      + intros [[?|?]|(r' & ? & ?)]; [by left|right..].
        * exists r. split; [left|done].
        * exists r'. split; [by right|done].
      + intros [?|(r' & [->|?]%elem_of_cons & ?)].
        * by left; left.
        * by left; right.
        * right. by exists r'. }
  rewrite Hfold. split; [|by right]. intros [Hin|?]; [|done].
  by apply not_elem_of_empty in Hin.
Qed.

Lemma NoDup_all_columns (records : list record) :
  NoDup (Table.all_columns records).
Proof.
  unfold Table.all_columns. rewrite merge_sort_Permutation.
  apply NoDup_elements.
Qed.

Lemma sorted_all_columns (records : list record) :
  StronglySorted String.le (Table.all_columns records).
Proof. apply StronglySorted_merge_sort; apply _. Qed.

Lemma chunk_values_join (cols : list string) (chunk : list record) :
  Table.chunk_values cols chunk = mjoin (Table.row_values cols <$> chunk).
Proof.
  unfold Table.chunk_values.
  assert (∀ acc, foldl (λ values r, values ++ Table.row_values cols r) acc chunk
                 = acc ++ mjoin (Table.row_values cols <$> chunk)) as Hfold.
  { induction chunk as [|r chunk IH]; intros acc; cbn [foldl].
    - by rewrite app_nil_r.
    - rewrite IH, fmap_cons. cbn. by rewrite app_assoc. }
  apply Hfold.
Qed.

(** A row binds one value per column: the record's value where it has
    the key, [None] where it lacks it. *)
Lemma row_values_lookup (cols : list string) (r : record) :
  length (Table.row_values cols r) = length cols ∧
  ∀ j key, cols !! j = Some key →
    Table.row_values cols r !! j =
      Some (match dict_get key r with Some v => v | None => VNone end).
Proof.
  unfold Table.row_values. split; [by rewrite length_fmap|].
  intros j key Hj. rewrite list_lookup_fmap, Hj. cbn.
  by destruct (dict_get key r).
Qed.

(** ** The run of insert_all *)

Section insert_all_facts.
Context `{Engine}.
Implicit Types (db : Database) (self : Table) (events : list event).

Lemma no_insert_foreign_key_events table fks results :
  Forall no_insert (foreign_key_events table fks results).
Proof.
  revert results. induction fks as [|fk fks IH]; intros [|cur results];
    cbn; try constructor; try done.
  constructor; [done|]. apply IH.
Qed.

(** The lazy creation makes no insert, never clears the flag, and does
    nothing on a handle that is present. *)
Lemma create_if_absent_run records pk foreign_keys self db r self' db' :
  Table.create_if_absent records pk foreign_keys (self, db)
    = (r, (self', db')) →
  ∃ events, extends db db' events ∧ Forall no_insert events ∧
    name self' = name self ∧
    (exists_ self = true → events = [] ∧ self' = self ∧ r = inr ()) ∧
    (r = inr () → exists_ self' = true) ∧
    (exists_ self = false →
       Table.create (detect_column_types records) pk foreign_keys (self, db)
         = (r, (self', db'))).
Proof.
  unfold Table.create_if_absent. rewrite bind_run. unfold Table.get_self.
  destruct (exists_ self) eqn:Hex; cbn [negb].
  - intros [= <- <- <-]. exists []. split_and!; try done.
    apply extends_refl.
  - intros Hrun. pose proof Hrun as Hrun'.
    apply create_run in Hrun
      as [(e & -> & -> & [(e' & -> & Hext)|(cur & out & Hext)])
         |[(cur & cur' & e & i & fk & results & -> & -> & Hi & Hlen & Hext)
          |(cur & cur' & results & -> & -> & Hlen & Hext)]];
      eexists; (split; [exact Hext|]); split_and!; try done.
    + by repeat constructor.
    + by repeat constructor.
    + apply Forall_app. split; [by repeat constructor|].
      apply Forall_app. split; [apply no_insert_foreign_key_events|].
      by repeat constructor.
    + apply Forall_app. split; [by repeat constructor|].
      apply no_insert_foreign_key_events.
Qed.

(** The whole of [insert_all]: the lazy creation, then the chunk loop
    from the state the creation left. *)
Lemma insert_all_run records pk foreign_keys upsert batch_size
    self db r self' db' :
  Table.insert_all records pk foreign_keys upsert batch_size (self, db)
    = (r, (self', db')) →
  ∃ r0 self1 db1,
    Table.create_if_absent records pk foreign_keys (self, db)
      = (r0, (self1, db1)) ∧
    self' = self1 ∧
    match r0 with
    | inl e => r = inl e ∧ db' = db1
    | inr _ =>
        match chunks records batch_size with
        | inl e => r = inl e ∧ db' = db1
        | inr cs =>
            match r with
            | inr cur =>
                ∃ results, last results = Some cur ∧
                  length results = length cs ∧
                  extends db1 db'
                    (chunk_events upsert (name self)
                       (Table.all_columns records) cs results)
            | inl e =>
                (cs = [] ∧ e = result_unbound ∧ db' = db1) ∨
                (∃ e' i chunk results,
                   e = Sqlite3Error e' ∧ cs !! i = Some chunk ∧
                   length results = i ∧
                   extends db1 db'
                     (chunk_events upsert (name self)
                        (Table.all_columns records) (take i cs) results ++
                      [EvExecute
                         (insert_statement upsert (name self)
                            (Table.all_columns records) chunk)
                         (Table.chunk_values (Table.all_columns records)
                                             chunk)
                         (inl e')]))
            end
        end
    end.
Proof.
  unfold Table.insert_all. rewrite bind_run.
  destruct (Table.create_if_absent records pk foreign_keys (self, db))
    as [r0 [self1 db1]] eqn:Hcreate.
  pose proof (create_if_absent_run _ _ _ _ _ _ _ _ Hcreate)
    as (pre & _ & _ & Hname & _).
  intros Hrun. exists r0, self1, db1. split; [done|].
  destruct r0 as [e|[]].
  { by injection Hrun as <- <- <-. }
  rewrite bind_run in Hrun. unfold lift_result at 1 in Hrun.
  destruct (chunks records batch_size) as [e|cs].
  { by injection Hrun as <- <- <-. }
  rewrite bind_run in Hrun. unfold Table.get_self at 1 in Hrun.
  rewrite bind_run in Hrun. rewrite Hname in Hrun.
  destruct (Table.insert_chunks _ _ _ cs None (self1, db1))
    as [r1 [self2 db2]] eqn:Hloop.
  apply insert_chunks_run in Hloop
    as (-> & [(results & -> & Hlen & Hext)
             |(e & i & chunk & results & -> & Hi & Hlen & Hext)]).
  - destruct (last results) as [cur|] eqn:Hlast; cbn in Hrun.
    + injection Hrun as <- <- <-. split; [done|]. by exists results.
    + injection Hrun as <- <- <-. split; [done|]. left.
      apply last_None in Hlast as ->. destruct cs; [|done].
      split_and!; [done..|]. by apply extends_nil_inv.
  - injection Hrun as <- <- <-. split; [done|]. right.
    by exists e, i, chunk, results.
Qed.
End insert_all_facts.

(** ** insert_all: columns, chunks, commits, empty input *)

Lemma elem_of_chunk_events upsert table cols cs results sql ps out :
  EvExecute sql ps out ∈ chunk_events upsert table cols cs results →
  ∃ chunk, chunk ∈ cs ∧ sql = Insert upsert table cols (length chunk) ∧
    ps = Table.chunk_values cols chunk.
Proof.
  revert results. induction cs as [|chunk cs IH]; intros [|cur results];
    cbn [chunk_events]; try (by intros ?%elem_of_nil).
  intros [Heq|[Heq|Hin]%elem_of_cons]%elem_of_cons.
  - injection Heq as -> -> ->. exists chunk. split; [left|done].
  - done.
  - apply IH in Hin as (chunk' & ? & ? & ?). exists chunk'.
    split; [by right|done].
Qed.

Lemma Forall_no_insert_elem_of events sql ps out :
  Forall no_insert events → EvExecute sql ps out ∈ events →
  is_insert sql = false.
Proof. intros Hall Hin. by apply (proj1 (Forall_forall _ _) Hall _ Hin). Qed.

(** Every insert executed by [insert_all] is the insert of a non-empty
    run of consecutive records, with the unified column list and the
    [upsert] flag of the call. *)
Lemma insert_all_inserts `{Engine}
    (records : list record) (pk : option string)
    (foreign_keys : option (list foreign_key)) (upsert : bool)
    (batch_size : Z) (self : Table) (db : Database) sql ps out :
  let run :=
    Table.insert_all records pk foreign_keys upsert batch_size (self, db) in
  let cols := Table.all_columns records in
  EvExecute sql ps out ∈ drop (length (trace db)) (trace run.2.2) →
  is_insert sql = true →
  ∃ before chunk after,
    records = before ++ chunk ++ after ∧ chunk ≠ [] ∧
    sql = Insert upsert (name self) cols (length chunk) ∧
    ps = mjoin (Table.row_values cols <$> chunk).
Proof.
  intros run cols. subst run.
  destruct (Table.insert_all _ _ _ _ _ _) as [r [self' db']] eqn:Hrun.
  apply insert_all_run in Hrun as (r0 & self1 & db1 & Hcreate & -> & Hrest).
  apply create_if_absent_run in Hcreate
    as (pre & (Hpre & _) & Hnoins & _).
  cbn [snd]. intros Hin Hins.
  assert (∀ chunk cs, chunks records batch_size = inr cs → chunk ∈ cs →
            ∃ before after,
              records = before ++ chunk ++ after ∧ chunk ≠ []) as Hsplit.
  { intros chunk cs Hcs Hchunk.
    apply chunks_inr in Hcs as [Hne [Hnil|Hjoin]].
    { subst cs. by apply elem_of_nil in Hchunk. }
    pose proof (elem_of_mjoin_split cs chunk Hchunk) as Hsp.
    destruct Hsp as (before & after & Hsp). exists before, after.
    split; [by rewrite <- Hjoin|].
    apply (proj1 (Forall_forall _ _) Hne) in Hchunk.
    intros ->. cbn in Hchunk. lia. }
  assert (∀ events, trace db' = trace db1 ++ events →
            EvExecute sql ps out ∈ events) as Hev.
  { intros events Hevents. rewrite Hevents, Hpre, <- app_assoc in Hin.
    rewrite drop_app_length in Hin.
    apply elem_of_app in Hin as [Hin|Hin]; [|done].
    apply (Forall_no_insert_elem_of _ _ _ _ Hnoins) in Hin. congruence. }
  assert (trace db' = trace db1 → False) as Hnone.
  { intros Heq. specialize (Hev []). rewrite app_nil_r in Hev.
    by apply Hev, elem_of_nil in Heq. }
  assert (∀ chunk cs, chunks records batch_size = inr cs → chunk ∈ cs →
            sql = Insert upsert (name self) cols (length chunk) →
            ps = Table.chunk_values cols chunk →
            ∃ before chunk after,
              records = before ++ chunk ++ after ∧ chunk ≠ [] ∧
              sql = Insert upsert (name self) cols (length chunk) ∧
              ps = mjoin (Table.row_values cols <$> chunk)) as Hdone.
  { intros chunk cs Hcs Hchunk -> ->.
    destruct (Hsplit chunk cs Hcs Hchunk) as (before & after & ? & ?).
    exists before, chunk, after. by rewrite chunk_values_join. }
  destruct r0 as [e|[]].
  { destruct Hrest as [_ ->]. by destruct Hnone. }
  destruct (chunks records batch_size) as [e|cs] eqn:Hcs.
  { destruct Hrest as [_ ->]. by destruct Hnone. }
  destruct r as [e|cur].
  - destruct Hrest as [(_ & _ & ->)
                      |(e' & i & chunk & results & _ & Hi & _ & Hext & _)].
    { by destruct Hnone. }
    pose proof (Hev _ Hext) as Hin'.
    apply elem_of_app in Hin' as [Hin'|Hin'].
    + apply elem_of_chunk_events in Hin' as (chunk' & Hin' & ? & ?).
      apply (Hdone chunk' cs); [done| |done..].
      by apply (subseteq_take i cs).
    + apply list_elem_of_singleton in Hin'. injection Hin' as -> -> _.
      apply (Hdone chunk cs); [done| |done..].
      by apply list_elem_of_lookup_2 in Hi.
  - destruct Hrest as (results & _ & _ & Hext & _).
    pose proof (Hev _ Hext) as Hin'.
    apply elem_of_chunk_events in Hin' as (chunk' & Hin' & ? & ?).
    by apply (Hdone chunk' cs).
Qed.

Lemma insert_calls_app (events1 events2 : list event) :
  insert_calls (events1 ++ events2)
  = insert_calls events1 ++ insert_calls events2.
Proof. apply omap_app. Qed.

Lemma insert_calls_no_insert (events : list event) :
  Forall no_insert events → insert_calls events = [].
Proof.
  induction 1 as [|ev events Hev _ IH]; [done|].
  destruct ev as [[] ps out|]; try done.
Qed.

Lemma insert_calls_chunk_events upsert table cols cs results :
  length results = length cs →
  insert_calls (chunk_events upsert table cols cs results)
  = (λ chunk : list record,
       (Insert upsert table cols (length chunk),
        mjoin (Table.row_values cols <$> chunk))) <$> cs.
Proof.
  revert results. induction cs as [|chunk cs IH]; intros [|cur results] Hlen;
    try done.
  cbn [chunk_events]. rewrite fmap_cons.
  change (insert_calls (?a :: EvCommit :: ?l)) with
    ((Insert upsert table cols (length chunk),
      Table.chunk_values cols chunk) :: insert_calls l).
  rewrite chunk_values_join, IH; [done|]. cbn in Hlen. lia.
Qed.

(** C3. For a batch that is not empty and a batch size of at least 1,
    the column list of [insert_all] is the sorted union of the keys of
    all the records (sorted, without repetition, and holding exactly the
    keys that occur), and a row binds one value for every column of the
    list: the record's value, or [None] where the record lacks the
    column. The inserts the call executes are those of the chunks of
    [chunks(records, batch_size)], in order, each with that one column
    list and binding the rows of the chunk's records one after the
    other: of every chunk when the call returns, of the chunks up to the
    one whose insert failed when it raises after the lazy creation (so
    of the first chunk at least), and of none when the creation
    raised. *)
Theorem insert_all_binds_unified_columns `{Engine}
    (records : list record) (pk : option string)
    (foreign_keys : option (list foreign_key)) (upsert : bool)
    (batch_size : Z) (self : Table) (db : Database) :
  records ≠ [] → (1 ≤ batch_size)%Z →
  let created := Table.create_if_absent records pk foreign_keys (self, db) in
  let run :=
    Table.insert_all records pk foreign_keys upsert batch_size (self, db) in
  let cols := Table.all_columns records in
  let made := insert_calls (drop (length (trace db)) (trace run.2.2)) in
  let insert_of (chunk : list record) :=
    (Insert upsert (name self) cols (length chunk),
     mjoin (Table.row_values cols <$> chunk)) in
  StronglySorted String.le cols ∧ NoDup cols ∧
  (∀ key, key ∈ cols ↔ ∃ r, r ∈ records ∧ key ∈ keys r) ∧
  (∀ r, length (Table.row_values cols r) = length cols ∧
        ∀ j key, cols !! j = Some key →
          Table.row_values cols r !! j =
            Some (match dict_get key r with Some v => v | None => VNone end)) ∧
  ∃ cs, chunks records batch_size = inr cs ∧ mjoin cs = records ∧ cs ≠ [] ∧
    match created.1, run.1 with
    | inl _, _ => made = []
    | inr _, inr _ => made = insert_of <$> cs
    | inr _, inl _ =>
        ∃ n, n < length cs ∧ made = insert_of <$> take (S n) cs
    end.
Proof.
  intros Hrec Hb created run cols made insert_of.
  split_and!.
  - apply sorted_all_columns.
  - apply NoDup_all_columns.
  - apply elem_of_all_columns.
  - intros r. apply row_values_lookup.
  - destruct (chunks_positive records batch_size ltac:(lia))
      as (cs & Hcs & Hjoin & _).
    exists cs. split; [done|]. split; [done|].
    split; [intros ->; by apply Hrec|].
    subst created run made.
    destruct (Table.insert_all _ _ _ _ _ _) as [r [self' db']] eqn:Hrun.
    apply insert_all_run in Hrun
      as (r0 & self1 & db1 & Hcreate & -> & Hrest).
    rewrite Hcreate. cbn [fst snd].
    apply create_if_absent_run in Hcreate
      as (pre & (Hpre & _) & Hnoins & Hname & _).
    destruct r0 as [e|[]].
    { destruct Hrest as [-> ->]. rewrite Hpre, drop_app_length.
      by apply insert_calls_no_insert. }
    rewrite Hcs in Hrest.
    destruct r as [e|cur].
    + destruct Hrest as [(-> & _)
                        |(e' & i & chunk & results & -> & Hi & Hlen & Hext)].
      { exfalso. cbn in Hjoin. by apply Hrec. }
      destruct Hext as (-> & _). rewrite Hpre, <- app_assoc, drop_app_length.
      exists i. split; [by apply lookup_lt_Some in Hi|].
      rewrite !insert_calls_app, (insert_calls_no_insert pre) by done.
      rewrite insert_calls_chunk_events
        by (rewrite length_take; apply lookup_lt_Some in Hi; lia).
      rewrite (take_S_r _ _ _ Hi), fmap_app. cbn [app]. f_equal.
      unfold insert_statement. cbn. by rewrite chunk_values_join.
    + destruct Hrest as (results & _ & Hlen & (-> & _)).
      rewrite Hpre, <- app_assoc, drop_app_length.
      rewrite insert_calls_app, (insert_calls_no_insert pre) by done.
      by rewrite insert_calls_chunk_events.
Qed.

(** C5. [insert_all] commits after each chunk. Once the lazy creation
    has returned and with chunks [cs]: a call that returns has executed
    the insert of every chunk, each followed by a commit, and returns
    the cursor of the last insert; a call that raises out of the insert
    of chunk [i] has executed and committed the chunks before [i], then
    the failing insert, and nothing after it (no later chunk, no commit,
    no rollback); with no chunk at all it raises without a call. When
    the creation or [chunks] raises, no chunk is attempted. *)
Theorem insert_all_commits_after_each_chunk `{Engine}
    (records : list record) (pk : option string)
    (foreign_keys : option (list foreign_key)) (upsert : bool)
    (batch_size : Z) (self : Table) (db : Database) :
  let created := Table.create_if_absent records pk foreign_keys (self, db) in
  let run :=
    Table.insert_all records pk foreign_keys upsert batch_size (self, db) in
  let cols := Table.all_columns records in
  match created.1, chunks records batch_size with
  | inr _, inr cs =>
      match run.1 with
      | inr cur =>
          ∃ results, last results = Some cur ∧ length results = length cs ∧
            extends created.2.2 run.2.2
              (chunk_events upsert (name self) cols cs results)
      | inl e =>
          (cs = [] ∧ e = result_unbound ∧ run.2.2 = created.2.2) ∨
          (∃ e' i chunk results,
             e = Sqlite3Error e' ∧ cs !! i = Some chunk ∧
             length results = i ∧
             extends created.2.2 run.2.2
               (chunk_events upsert (name self) cols (take i cs) results ++
                [EvExecute (insert_statement upsert (name self) cols chunk)
                           (Table.chunk_values cols chunk) (inl e')]))
      end
  | inl e, _ => run.1 = inl e ∧ run.2.2 = created.2.2
  | inr _, inl e => run.1 = inl e ∧ run.2.2 = created.2.2
  end.
Proof.
  intros created run cols. subst created run.
  destruct (Table.insert_all _ _ _ _ _ _) as [r [self' db']] eqn:Hrun.
  apply insert_all_run in Hrun as (r0 & self1 & db1 & -> & -> & Hrest).
  cbn [fst snd]. destruct r0 as [e|[]]; [done|].
  by destruct (chunks records batch_size).
Qed.

(** C10. On a handle that is present, [insert_all] of no record raises
    (the [return result] finds [result] unbound since no chunk ran, or
    [range] rejects a zero batch size) and makes no call on the
    connection: handle and database are left as they were. *)
Theorem insert_all_empty_on_present_handle `{Engine}
    (pk : option string) (foreign_keys : option (list foreign_key))
    (upsert : bool) (batch_size : Z) (self : Table) (db : Database) :
  exists_ self = true →
  Table.insert_all [] pk foreign_keys upsert batch_size (self, db) =
    (inl (if decide (batch_size = 0%Z)
          then ValueError "range() arg 3 must not be zero"
          else result_unbound),
     (self, db)).
Proof.
  intros Hex. unfold Table.insert_all, Table.create_if_absent.
  rewrite !bind_run. unfold Table.get_self at 1. rewrite Hex. cbn [negb].
  unfold ret at 1. rewrite bind_run. unfold lift_result, chunks, range.
  destruct (decide (batch_size = 0%Z)); [done|].
  by destruct (decide (0 < batch_size)%Z).
Qed.

Lemma insert_all_empty_on_present_handle_witness :
  (Table.insert_all [] None None false 100
     ({| name := "t"; exists_ := true |}, empty_database)).1
  = inl result_unbound.
Proof.
  rewrite (insert_all_empty_on_present_handle None None false 100
             {| name := "t"; exists_ := true |} empty_database eq_refl).
  reflexivity.
Defined.

(** C2 (what the code does). On a handle that is absent, [insert_all]
    of no record does not return: it first asks the engine to create the
    table with an empty column list, and raises. When the engine rejects
    that statement the error is the engine's, the handle stays absent
    and nothing else is called; in no case is an insert executed. *)
Theorem insert_all_empty_on_absent_handle_raises `{Engine}
    (pk : option string) (foreign_keys : option (list foreign_key))
    (upsert : bool) (batch_size : Z) (self : Table) (db : Database) :
  exists_ self = false →
  let run :=
    Table.insert_all [] pk foreign_keys upsert batch_size (self, db) in
  (∃ e, run.1 = inl e) ∧
  ∃ out rest,
    trace run.2.2 =
      trace db ++ EvExecute (CreateTable (name self) []) [] out :: rest ∧
    Forall no_insert rest ∧
    (∀ e', out = inl e' →
       run.1 = inl (Sqlite3Error e') ∧ run.2.1 = self ∧ rest = []).
Proof.
  intros Hex run. subst run.
  destruct (Table.insert_all _ _ _ _ _ _) as [r [self' db']] eqn:Hrun.
  apply insert_all_run in Hrun as (r0 & self1 & db1 & Hcreate & -> & Hrest).
  cbn [fst snd].
  apply create_if_absent_run in Hcreate as (_ & _ & _ & _ & _ & _ & Hc).
  specialize (Hc Hex). apply create_run in Hc.
  change (create_statement (name self) (detect_column_types []) pk
            foreign_keys)
    with (CreateTable (name self) []) in Hc.
  destruct Hc
    as [(e & -> & -> & [(e' & -> & Hext & _)|(cur & out & Hext & _)])
       |[(cur & cur' & e & i & fk & results & -> & -> & _ & _ & Hext & _)
        |(cur & cur' & results & -> & -> & _ & Hext & _)]].
  - destruct Hrest as [-> ->]. split; [by eexists|].
    exists (inl e'), []. split_and!; [done|constructor|].
    by intros ? [= <-].
  - destruct Hrest as [-> ->]. split; [by eexists|].
    exists (inr cur), [EvExecute SelectTableNames [] out].
    split_and!; [done|by repeat constructor|done].
  - destruct Hrest as [-> ->]. split; [by eexists|].
    eexists (inr cur), _. split_and!; [exact Hext| |done].
    constructor; [done|]. apply Forall_app.
    split; [apply no_insert_foreign_key_events | by repeat constructor].
  - assert (r = inl result_unbound ∧ db' = db1 ∨
            ∃ msg, r = inl (ValueError msg) ∧ db' = db1) as Hr.
    { destruct (chunks_nil (A:=list (string * value)) batch_size)
        as [Hcs|[msg Hcs]]; rewrite Hcs in Hrest.
      - left. destruct r as [e|cur0].
        + destruct Hrest as [(_ & -> & ->)
                            |(? & i & ? & ? & _ & Hi & _)]; [done|].
          by rewrite lookup_nil in Hi.
        + destruct Hrest as ([|] & Hlast & Hlen & _); done.
      - right. exists msg. by destruct Hrest. }
    assert (db' = db1) as -> by (by destruct Hr as [[_ ?]|(? & _ & ?)]).
    split; [destruct Hr as [[-> _]|(? & -> & _)]; by eexists|].
    eexists (inr cur), _. split_and!; [exact Hext| |done].
    constructor; [done|]. apply no_insert_foreign_key_events.
Qed.

Lemma insert_all_empty_on_absent_handle_raises_witness :
  (Table.insert_all [] None None false 100
     ({| name := "t"; exists_ := false |}, empty_database)).1
  = inl (Sqlite3Error (OperationalError "syntax error")).
Proof.
  destruct (insert_all_empty_on_absent_handle_raises None None false 100
              {| name := "t"; exists_ := false |} empty_database eq_refl)
    as (_ & out & rest & Htrace & _ & Hrej).
  vm_compute in Htrace. injection Htrace as <- _.
  apply (Hrej _ eq_refl).
Defined.

(** ** create, create_table and add_foreign_key *)

Lemma statements_app (events1 events2 : list event) :
  statements (events1 ++ events2) = statements events1 ++ statements events2.
Proof. apply omap_app. Qed.

Lemma statements_foreign_key_events table fks results :
  length results = length fks →
  statements (foreign_key_events table fks results)
    = alter_statement table <$> fks.
Proof.
  revert results. induction fks as [|fk fks IH]; intros [|cur results] Hlen;
    try done.
  cbn in Hlen. cbn [foreign_key_events]. rewrite fmap_cons.
  change (statements (?a :: EvCommit :: ?l)) with
    (alter_statement table fk :: statements l).
  f_equal. apply IH. lia.
Qed.

Lemma last_foreign_key_events table fks results :
  length results = length fks → fks ≠ [] →
  last (foreign_key_events table fks results) = Some EvCommit.
Proof.
  revert results. induction fks as [|fk fks IH]; intros [|cur results] Hlen Hne;
    try done.
  cbn [foreign_key_events]. rewrite !last_cons.
  destruct fks as [|fk' fks]; [by destruct results|].
  rewrite IH; [done|cbn in *; lia|done].
Qed.

Lemma claimed_columns_filter (columns : dict py_type)
    (foreign_keys : option (list foreign_key)) :
  filter (λ nv, nv.1 ∉ Table.claimed_columns foreign_keys) columns
  = filter (λ nv, nv.1 ∉ column <$> or_empty foreign_keys) columns.
Proof.
  apply list_filter_iff. intros [n ty]. unfold Table.claimed_columns.
  by rewrite elem_of_list_to_set.
Qed.

(** C7. [create] leaves every field claimed by a foreign key out of the
    table-creation statement (and keeps every other one, with its type
    keyword, in the order of the mapping); the creation is the first
    statement executed, and the statements executed are a prefix of:
    the creation, the query of the new handle, then one alteration per
    foreign key in the order given. When [create] returns, all of them
    were executed, each alteration followed by a commit. *)
Theorem create_excludes_foreign_key_columns `{Engine}
    (columns : dict py_type) (pk : option string)
    (foreign_keys : option (list foreign_key)) (self : Table)
    (db : Database) :
  let run := Table.create columns pk foreign_keys (self, db) in
  let fks := or_empty foreign_keys in
  let kept := filter (λ nv, nv.1 ∉ column <$> fks) columns in
  let sql := CreateTable (name self) (Database.create_columns kept pk) in
  (∀ fk, fk ∈ fks → column fk ∉ (Database.create_columns kept pk).*1.*1) ∧
  (∀ n ty, (n, ty) ∈ columns → n ∉ column <$> fks →
     (n, col_type_keyword ty, Database.primary_key pk n)
       ∈ Database.create_columns kept pk) ∧
  ∃ events, extends db run.2.2 events ∧
    head (statements events) = Some sql ∧
    statements events `prefix_of`
      sql :: SelectTableNames :: (alter_statement (name self) <$> fks) ∧
    match run.1 with
    | inr _ =>
        ∃ cur cur' results, length results = length fks ∧
          events = create_table_events sql cur cur' ++
                   foreign_key_events (name self) fks results
    | inl _ => True
    end.
Proof.
  intros run fks kept sql. split_and!.
  - intros fk Hfk Hin. unfold Database.create_columns in Hin.
    rewrite <- !list_fmap_compose in Hin.
    apply list_elem_of_fmap in Hin as ([n ty] & Hn & Hin). cbn in Hn.
    apply list_elem_of_filter in Hin as [Hnot _]. cbn in Hnot.
    apply Hnot. rewrite <- Hn. by apply list_elem_of_fmap_2.
  - intros n ty Hin Hnot. unfold Database.create_columns.
    apply list_elem_of_fmap. exists (n, ty). split; [done|].
    by apply list_elem_of_filter.
  - subst run.
    destruct (Table.create _ _ _ _) as [r [self' db']] eqn:Hrun.
    apply create_run in Hrun. unfold create_statement in Hrun.
    rewrite claimed_columns_filter in Hrun.
    fold fks kept sql in Hrun. cbn [fst snd].
    destruct Hrun
      as [(e & -> & -> & [(e' & -> & Hext)|(cur & out & Hext)])
         |[(cur & cur' & e & i & fk & results & -> & -> & Hi & Hlen & Hext)
          |(cur & cur' & results & -> & -> & Hlen & Hext)]];
      eexists; (split; [exact Hext|]).
    + split_and!; [done| |done]. by eexists (_ :: _).
    + split_and!; [done| |done]. by eexists.
    + split_and!; [done| |done].
      rewrite !statements_app, statements_foreign_key_events
        by (rewrite length_take; apply lookup_lt_Some in Hi; lia).
      cbn [statements create_table_events omap app option_bind mbind].
      do 2 apply prefix_cons.
      exists (alter_statement (name self) <$> drop (S i) fks).
      rewrite <- (take_drop_middle fks i fk Hi) at 1.
      by rewrite fmap_app, fmap_cons, <- app_assoc.
    + split_and!; [done| |by exists cur, cur', results].
      rewrite !statements_app, statements_foreign_key_events by done.
      done.
Qed.

(** ** The existence flag of a handle *)

Section flag.
Context `{Engine}.
Implicit Types (db : Database) (self : Table).

Lemma present_of_present self : exists_ self = true → present self = self.
Proof. destruct self as [n []]; [done|]. by intros [=]. Qed.

Lemma columns_keeps self db : (Table.columns (self, db)).2.1 = self.
Proof.
  unfold Table.columns. rewrite bind_run. unfold Table.get_self.
  destruct (exists_ self); cbn [negb]; [|done].
  rewrite bind_run. unfold Table.on_db.
  destruct (Database.execute _ _ db) as [[e|cur] db1]; [done|].
  by rewrite comprehension_pure.
Qed.

Lemma drop_keeps self db : (Table.drop (self, db)).2.1 = self.
Proof.
  unfold Table.drop. rewrite bind_run. unfold Table.get_self, Table.on_db.
  by destruct (Database.execute _ _ db).
Qed.

Lemma add_foreign_key_keeps c ty ot oc self db :
  (Table.add_foreign_key c ty ot oc (self, db)).2.1 = self.
Proof.
  destruct (Table.add_foreign_key _ _ _ _ _) as [r [self' db']] eqn:Hrun.
  by apply add_foreign_key_run in Hrun as [-> _].
Qed.

Lemma create_keeps_or_sets columns pk foreign_keys :
  keeps_or_sets (Table.create columns pk foreign_keys).
Proof.
  intros self db.
  destruct (Table.create _ _ _ _) as [r [self' db']] eqn:Hrun.
  apply create_run in Hrun
    as [(e & -> & -> & _)
       |[(cur & cur' & e & i & fk & results & -> & -> & _)
        |(cur & cur' & results & -> & -> & _)]]; cbn [fst snd];
    [by left..|].
  destruct (exists_ self) eqn:Hex; [left|by right].
  by apply present_of_present.
Qed.

Lemma insert_all_keeps_or_sets records pk foreign_keys upsert batch_size :
  keeps_or_sets (Table.insert_all records pk foreign_keys upsert batch_size).
Proof.
  intros self db.
  destruct (Table.insert_all _ _ _ _ _ _) as [r [self' db']] eqn:Hrun.
  apply insert_all_run in Hrun as (r0 & self1 & db1 & Hcreate & -> & _).
  cbn [fst snd].
  apply create_if_absent_run in Hcreate
    as (events & _ & _ & _ & Hpresent & _ & Habsent).
  destruct (exists_ self) eqn:Hex.
  - left. by apply Hpresent.
  - specialize (Habsent eq_refl).
    pose proof (create_keeps_or_sets (detect_column_types records) pk
                  foreign_keys self db) as Hc.
    rewrite Habsent in Hc. by rewrite Hex in Hc.
Qed.

(** Every call leaves the handle as it was, or sets the flag of a
    handle that was absent, which only the calls that reach [create]
    do. *)
Lemma invoke_flag c self db :
  (invoke c (self, db)).2.1 = self ∨
  ((invoke c (self, db)).2.1 = present self ∧ exists_ self = false ∧
   may_create c = true).
Proof.
  destruct c; cbn [invoke outcome_of may_create snd fst].
  - left. apply columns_keeps.
  - destruct (create_keeps_or_sets columns pk foreign_keys self db)
      as [?|[? ?]]; [by left | by right].
  - left. apply drop_keeps.
  - left. apply add_foreign_key_keeps.
  - destruct (insert_all_keeps_or_sets [r] pk foreign_keys upsert 100 self db)
      as [?|[? ?]]; [by left | by right].
  - destruct (insert_all_keeps_or_sets records pk foreign_keys upsert
                batch_size self db) as [?|[? ?]]; [by left | by right].
  - destruct (insert_all_keeps_or_sets [r] pk foreign_keys true 100 self db)
      as [?|[? ?]]; [by left | by right].
  - destruct (insert_all_keeps_or_sets records pk foreign_keys true 100
                self db) as [?|[? ?]]; [by left | by right].
Qed.

(** One step of a session changes at most the handle it is called on,
    and that one only from absent to present. *)
Lemma step_flag (s : session) (a : action) i t :
  handles s !! i = Some t →
  handles (step s a) !! i = Some t ∨
  (handles (step s a) !! i = Some (present t) ∧ exists_ t = false ∧
   ∃ c, a = Invoke i c ∧ may_create c = true).
Proof.
  intros Hi. destruct a as [table_name|j c|sql ps|]; cbn [step].
  - left. destruct (Database.getitem table_name (shared s)) as [[e|t'] db];
      cbn [handles]; [done|]. by apply lookup_app_l_Some.
  - destruct (handles s !! j) as [tj|] eqn:Hj; [|by left].
    destruct (invoke c (tj, shared s)) as [r [tj' db]] eqn:Hrun.
    pose proof (invoke_flag c tj (shared s)) as Hflag.
    rewrite Hrun in Hflag. cbn [fst snd] in Hflag. cbn [handles].
    destruct (decide (i = j)) as [->|Hne].
    + rewrite list_lookup_insert_eq by (by eapply lookup_lt_Some).
      assert (tj = t) as -> by congruence.
      destruct Hflag as [->|(-> & ? & ?)]; [by left|right].
      split_and!; [done..|]. by exists c.
    + left. by rewrite list_lookup_insert_ne.
  - by left.
  - by left.
Qed.
End flag.

(** C9. A handle's flag is never cleared. In a session of any number of
    handles on one database, each step (a new handle taken, a method
    called on some handle, a statement or commit made from elsewhere)
    leaves a given handle as it was, or sets its flag when it was absent,
    which only a call on that very handle that reaches [create] does;
    so a handle that is present stays the same whatever follows, drops
    included, through this handle or another. *)
Theorem exists_flag_never_cleared `{Engine} :
  (∀ (s : session) (a : action) i t,
     handles s !! i = Some t →
     handles (step s a) !! i = Some t ∨
     (handles (step s a) !! i = Some (present t) ∧ exists_ t = false ∧
      ∃ c, a = Invoke i c ∧ may_create c = true)) ∧
  (∀ (s : session) (actions : list action) i t,
     handles s !! i = Some t → exists_ t = true →
     handles (run s actions) !! i = Some t).
Proof.
  split; [apply @step_flag|].
  intros s actions. revert s.
  induction actions as [|a actions IH]; intros s i t Hi Hex; [done|].
  cbn [run foldl]. apply IH; [|done].
  destruct (step_flag s a i t Hi) as [?|(_ & Habs & _)]; [done|congruence].
Qed.

(** ** Chunked writes against the relational model *)

Lemma reshape_join {A} (k : nat) (rows : list (list A)) :
  Forall (λ r, length r = k) rows →
  reshape (replicate (length rows) k) (mjoin rows) = rows.
Proof.
  induction 1 as [|r rows Hr _ IH]; [done|].
  cbn [length replicate reshape]. change (mjoin (r :: rows)) with (r ++ mjoin rows).
  rewrite take_app_length', drop_app_length' by done. by rewrite IH.
Qed.

Lemma length_join_rows {A} (k : nat) (rows : list (list A)) :
  Forall (λ r, length r = k) rows → length (mjoin rows) = length rows * k.
Proof.
  induction 1 as [|r rows Hr _ IH]; [done|].
  change (mjoin (r :: rows)) with (r ++ mjoin rows).
  rewrite length_app, IH, Hr. cbn. lia.
Qed.

Lemma adapt_chunk_values (cols : list string) (chunk : list record) :
  adapt <$> Table.chunk_values cols chunk = mjoin (bound_rows cols chunk).
Proof.
  rewrite chunk_values_join. unfold bound_rows.
  induction chunk as [|r chunk IH]; [done|].
  rewrite !fmap_cons.
  change (mjoin (?x :: ?l)) with (x ++ mjoin l). by rewrite fmap_app, IH.
Qed.

Lemma Forall_length_bound_rows (cols : list string) (chunk : list record) :
  Forall (λ r, length r = length cols) (bound_rows cols chunk).
Proof.
  unfold bound_rows, Table.row_values. apply Forall_fmap, Forall_true.
  intros r. cbn. by rewrite !length_fmap.
Qed.

Lemma bound_rows_app cols (rs1 rs2 : list record) :
  bound_rows cols (rs1 ++ rs2) = bound_rows cols rs1 ++ bound_rows cols rs2.
Proof. apply fmap_app. Qed.

Section model_facts.
Context `{Dialect}.

Lemma insert_rows_app upsert cols td rows1 rows2 :
  insert_rows upsert cols td (rows1 ++ rows2) =
    match insert_rows upsert cols td rows1 with
    | inl e => inl e
    | inr td1 => insert_rows upsert cols td1 rows2
    end.
Proof.
  revert td. induction rows1 as [|vals rows1 IH]; intros td; [done|].
  cbn [app insert_rows]. by destruct (insert_row upsert cols td vals).
Qed.

Lemma insert_row_columns upsert cols td vals td' :
  insert_row upsert cols td vals = inr td' → td_columns td' = td_columns td.
Proof.
  unfold insert_row, insert_keyed. repeat case_match; by intros [= <-].
Qed.

Lemma insert_rows_columns upsert cols td rows td' :
  insert_rows upsert cols td rows = inr td' → td_columns td' = td_columns td.
Proof.
  revert td. induction rows as [|vals rows IH]; intros td; cbn [insert_rows].
  - by intros [= <-].
  - destruct (insert_row upsert cols td vals) as [e|td1] eqn:Hrow; [done|].
    intros Hrows. rewrite (IH _ Hrows). by eapply insert_row_columns.
Qed.

(** *** Names up to case *)

Lemma lookup_name_None {V} n (d : dict V) :
  lookup_name n d = None ↔ fold_case n ∉ fold_case <$> keys d.
Proof.
  unfold keys. induction d as [|[k w] d IH].
  - split; [intros _; apply not_elem_of_nil | done].
  - cbn [lookup_name fmap list_fmap fst]. rewrite not_elem_of_cons.
    destruct (decide (fold_case k = fold_case n)) as [Heq|Hne].
    + split; [done | by intros []].
    + rewrite IH. split; [by split | by intros []].
Qed.

Lemma lookup_name_is_Some {V} n (d : dict V) :
  is_Some (lookup_name n d) ↔ fold_case n ∈ fold_case <$> keys d.
Proof.
  rewrite <- not_eq_None_Some, lookup_name_None.
  split; [apply dec_stable | by intros ? ?].
Qed.

Lemma lookup_name_elem_of {V} n (d : dict V) :
  n ∈ keys d → is_Some (lookup_name n d).
Proof.
  intros Hin. apply lookup_name_is_Some. by apply list_elem_of_fmap_2.
Qed.

Lemma lookup_replace_name {V} n (v : V) (d : dict V) :
  lookup_name n (replace_name n v d) = Some v.
Proof.
  induction d as [|[k w] d IH]; cbn [replace_name lookup_name].
  - by rewrite decide_True.
  - destruct (decide (fold_case k = fold_case n)); cbn [lookup_name].
    + by rewrite decide_True.
    + by rewrite decide_False.
Qed.

Lemma replace_replace_name {V} n (v w : V) (d : dict V) :
  replace_name n w (replace_name n v d) = replace_name n w d.
Proof.
  induction d as [|[k u] d IH]; cbn [replace_name].
  - by rewrite decide_True.
  - destruct (decide (fold_case k = fold_case n)); cbn [replace_name].
    + by rewrite decide_True.
    + by rewrite decide_False, IH.
Qed.

Lemma replace_name_fresh {V} n (v : V) (d : dict V) :
  fold_case n ∉ fold_case <$> keys d → replace_name n v d = d ++ [(n, v)].
Proof.
  unfold keys. induction d as [|[k w] d IH]; [done|].
  cbn [replace_name fmap list_fmap fst]. rewrite not_elem_of_cons.
  intros [Hne Hd]. rewrite decide_False by done. by rewrite IH.
Qed.

Lemma lookup_remove_name {V} n (d : dict V) :
  lookup_name n (remove_name n d) = None.
Proof.
  apply lookup_name_None. unfold remove_name, keys.
  rewrite <- list_fmap_compose.
  intros ([k v] & Heq & [Hne _]%list_elem_of_filter)%list_elem_of_fmap.
  by apply Hne.
Qed.

(** *** One chunk *)

(** The values of a chunk are bound when those of its records are. *)
Lemma run_insert_chunk upsert cols (chunk : list record) td :
  run_insert upsert cols (length chunk) (Table.chunk_values cols chunk) td =
    if decide (Forall bindable (Table.chunk_values cols chunk)) then
      insert_rows upsert cols td (bound_rows cols chunk)
    else
      inl (OverflowError "Python int too large to convert to SQLite INTEGER").
Proof.
  unfold run_insert. rewrite decide_True.
  - case_decide; [|done]. rewrite adapt_chunk_values.
    rewrite <- (length_fmap (λ r, adapt <$> Table.row_values cols r) chunk).
    fold (bound_rows cols chunk).
    by rewrite reshape_join by apply Forall_length_bound_rows.
  - rewrite <- (length_fmap adapt), adapt_chunk_values.
    rewrite (length_join_rows (length cols))
      by apply Forall_length_bound_rows.
    unfold bound_rows. by rewrite length_fmap.
Qed.

Lemma chunk_values_app cols (rs1 rs2 : list record) :
  Table.chunk_values cols (rs1 ++ rs2)
  = Table.chunk_values cols rs1 ++ Table.chunk_values cols rs2.
Proof. by rewrite !chunk_values_join, fmap_app, join_app. Qed.

(** One iteration of the chunk loop on the model: an insert that is not
    prepared ends the loop with the connection as it was, one that fails
    later ends it inside the transaction it opened without a change to
    the tables, and one that succeeds is committed and the loop goes
    on. *)
Lemma sqlite_insert_chunks_cons upsert table cols chunk cs result0
    (self : Table) (db : @Database sqlite_model) :
  let sql := Insert upsert table cols (length chunk) in
  let ps := Table.chunk_values cols chunk in
  Table.insert_chunks upsert table cols (chunk :: cs) result0 (self, db) =
    match prepare_insert upsert table cols (length chunk)
            (pending (conn db)) with
    | inl e =>
        (inl (Sqlite3Error e),
         (self, {| conn := conn db;
                   trace := trace db ++ [EvExecute sql ps (inl e)] |}))
    | inr td =>
        match run_insert upsert cols (length chunk) ps td with
        | inl e =>
            (inl (Sqlite3Error e),
             (self, {| conn := {| committed := committed (conn db);
                                  transaction := Some (pending (conn db)) |};
                       trace := trace db ++ [EvExecute sql ps (inl e)] |}))
        | inr td' =>
            let cur := {| fetchall := [];
                          rowcount := Z.of_nat (length chunk) |} in
            let d := replace_name table td' (pending (conn db)) in
            Table.insert_chunks upsert table cols cs (Some cur)
              (self, {| conn := {| committed := d; transaction := None |};
                        trace := (trace db ++ [EvExecute sql ps (inr cur)])
                                 ++ [EvCommit] |})
        end
    end.
Proof.
  intros sql ps. cbn [Table.insert_chunks]. rewrite bind_run.
  unfold Table.on_db at 1, Database.execute.
  cbn [engine_execute sqlite_model sqlite_execute].
  fold sql ps.
  destruct (prepare_insert _ _ _ _ _) as [e|td]; [done|].
  by destruct (run_insert _ _ _ ps td).
Qed.

Lemma prepare_insert_prepared upsert table cols rows d td :
  lookup_name table d = Some td → prepared upsert table cols td rows →
  0 < rows → prepare_insert upsert table cols rows d = inr td.
Proof.
  intros Htd (Hp & Hne & Hsub) Hrows. unfold prepare_insert.
  rewrite Htd, Hp. cbn [negb].
  rewrite decide_False by (intros [?|?]; [done|lia]).
  by rewrite decide_True.
Qed.

Lemma prepare_insert_not_prepared upsert table cols rows d td :
  lookup_name table d = Some td → ¬ prepared upsert table cols td rows →
  ∃ e, prepare_insert upsert table cols rows d = inl e.
Proof.
  intros Htd Hno. unfold prepare_insert. rewrite Htd.
  destruct (prepares _) eqn:Hp; cbn [negb]; [|by eexists].
  case_decide as Hz; [by eexists|].
  case_decide as Hsub; [|by eexists].
  exfalso. apply Hno. split_and!; [done| |done].
  intros ->. apply Hz. by left.
Qed.

Lemma chunk_checks_cons upsert table cols td (chunk : list record) cs :
  Forall (λ c, prepared upsert table cols td (length c)) (chunk :: cs) ∧
  Forall bindable (Table.chunk_values cols (mjoin (chunk :: cs)))
  ↔ (prepared upsert table cols td (length chunk) ∧
     Forall bindable (Table.chunk_values cols chunk)) ∧
    Forall (λ c, prepared upsert table cols td (length c)) cs ∧
    Forall bindable (Table.chunk_values cols (mjoin cs)).
Proof.
  change (mjoin (chunk :: cs)) with (chunk ++ mjoin cs).
  rewrite chunk_values_app, Forall_cons, Forall_app. tauto.
Qed.

(** A loop over at least one chunk returns exactly when every insert is
    prepared, every value can be bound and the rows of all the chunks,
    taken in order, can be inserted one after the other; the table then
    holds the result, committed, and no transaction is open. *)
Lemma sqlite_insert_chunks_returns upsert table cols chunk cs result0
    (self : Table) (db : @Database sqlite_model) :
  Forall (λ c, 0 < length c) (chunk :: cs) →
  let run :=
    Table.insert_chunks upsert table cols (chunk :: cs) result0 (self, db) in
  match lookup_name table (pending (conn db)) with
  | Some td =>
      if decide (Forall (λ c, prepared upsert table cols td (length c))
                        (chunk :: cs) ∧
                 Forall bindable
                        (Table.chunk_values cols (mjoin (chunk :: cs)))) then
        match insert_rows upsert cols td
                (bound_rows cols (mjoin (chunk :: cs))) with
        | inr td' =>
            (∃ cur, run.1 = inr (Some cur)) ∧ run.2.1 = self ∧
            conn run.2.2 =
              {| committed := replace_name table td' (pending (conn db));
                 transaction := None |}
        | inl _ => ∃ e, run.1 = inl e
        end
      else ∃ e, run.1 = inl e
  | None => ∃ e, run.1 = inl e
  end.
Proof.
  revert chunk result0 db.
  induction cs as [|chunk' cs IH]; intros chunk result0 db Hne run;
    subst run; rewrite sqlite_insert_chunks_cons;
    apply Forall_cons_1 in Hne as [Hchunk Hne];
    (destruct (lookup_name table (pending (conn db))) as [td|] eqn:Htd;
       [|unfold prepare_insert; rewrite Htd; by eexists]);
    rewrite (decide_ext _ _ _ _ (chunk_checks_cons _ _ _ _ _ _));
    (destruct (decide (prepared upsert table cols td (length chunk)))
       as [Hprep|Hno];
       [|rewrite decide_False by tauto;
         destruct (prepare_insert_not_prepared _ _ _ _ _ td Htd Hno)
           as [e ->]; by eexists]);
    rewrite (prepare_insert_prepared _ _ _ _ _ td Htd Hprep Hchunk);
    rewrite run_insert_chunk;
    (destruct (decide (Forall bindable (Table.chunk_values cols chunk)))
       as [Hbind|Hno]; [|rewrite decide_False by tauto; by eexists]);
    change (mjoin (chunk :: ?l)) with (chunk ++ mjoin l).
  - change (mjoin []) with (@nil (list (string * value))).
    rewrite app_nil_r.
    rewrite decide_True by (split_and!; [done|done|constructor|constructor]).
    destruct (insert_rows upsert cols td (bound_rows cols chunk))
      as [e|td']; [by eexists|].
    cbn. split_and!; [by eexists|done..].
  - rewrite bound_rows_app, insert_rows_app.
    destruct (insert_rows upsert cols td (bound_rows cols chunk))
      as [e|td1] eqn:Hrows1; [case_decide; by eexists|].
    cbv zeta.
    match goal with
    | |- context [Table.insert_chunks _ _ _ _ ?res (self, ?db2)] =>
        specialize (IH chunk' res db2 Hne)
    end.
    cbn [conn pending committed transaction default] in IH.
    rewrite lookup_replace_name in IH.
    assert (∀ n, prepared upsert table cols td1 n
                 ↔ prepared upsert table cols td n) as Hsame.
    { intros n. unfold prepared, column_names.
      by rewrite (insert_rows_columns _ _ _ _ _ Hrows1). }
    assert (Forall (λ c, prepared upsert table cols td1 (length c))
                   (chunk' :: cs)
            ↔ Forall (λ c, prepared upsert table cols td (length c))
                     (chunk' :: cs)) as Hall.
    { split; intros Hp; (eapply Forall_impl; [exact Hp|]); intros c;
        apply Hsame. }
    destruct (decide (Forall (λ c, prepared upsert table cols td (length c))
                        (chunk' :: cs) ∧
                      Forall bindable
                        (Table.chunk_values cols (mjoin (chunk' :: cs)))))
      as [[Hp Hb]|Hno].
    + rewrite decide_True by tauto. rewrite decide_True in IH by tauto.
      cbv zeta in IH.
      destruct (insert_rows upsert cols td1 _) as [e|td']; [done|].
      destruct IH as (Hcur & Hself & Hconn). split_and!; [done..|].
      by rewrite Hconn, replace_replace_name.
    + rewrite decide_False by tauto. by rewrite decide_False in IH by tauto.
Qed.
End model_facts.
(** *** Dictionaries, continued *)

Lemma dict_set_dict_set {V} key (v w : V) (d : dict V) :
  dict_set key w (dict_set key v d) = dict_set key w d.
Proof.
  induction d as [|[k u] d IH]; cbn [dict_set].
  - by rewrite decide_True.
  - destruct (decide (k = key)) as [->|Hne]; cbn [dict_set].
    + by rewrite decide_True.
    + by rewrite decide_False, IH.
Qed.

Lemma dict_get_dict_set_eq {V} key (v : V) (d : dict V) :
  dict_get key (dict_set key v d) = Some v.
Proof. rewrite dict_get_dict_set. by rewrite decide_True. Qed.

(** [insert_all], statement by statement. *)
Lemma insert_all_unfold `{Engine} (records : list record) pk foreign_keys
    upsert batch_size (self : Table) (db : Database) :
  Table.insert_all records pk foreign_keys upsert batch_size (self, db) =
    match Table.create_if_absent records pk foreign_keys (self, db) with
    | (inl e, s) => (inl e, s)
    | (inr _, (self1, db1)) =>
        match chunks records batch_size with
        | inl e => (inl e, (self1, db1))
        | inr cs =>
            match Table.insert_chunks upsert (name self1)
                    (Table.all_columns records) cs None (self1, db1) with
            | (inl e, s) => (inl e, s)
            | (inr (Some cur), s) => (inr cur, s)
            | (inr None, s) => (inl result_unbound, s)
            end
        end
    end.
Proof.
  unfold Table.insert_all. rewrite bind_run.
  destruct (Table.create_if_absent _ _ _ _) as [[e|[]] [self1 db1]]; [done|].
  rewrite bind_run. unfold lift_result at 1.
  destruct (chunks records batch_size) as [e|cs]; [done|].
  rewrite bind_run. unfold Table.get_self at 1. rewrite bind_run.
  by destruct (Table.insert_chunks _ _ _ _ _ _) as [[e|[cur|]] s].
Qed.

Lemma create_if_absent_present `{Engine} (records : list record) pk
    foreign_keys (self : Table) (db : Database) :
  exists_ self = true →
  Table.create_if_absent records pk foreign_keys (self, db)
    = (inr (), (self, db)).
Proof.
  intros Hex. unfold Table.create_if_absent. rewrite bind_run.
  unfold Table.get_self. by rewrite Hex.
Qed.

(** What [insert_all] comes to on the model, for a positive batch
    size: it returns exactly when the lazy creation returned, there is a
    record, every insert is prepared, every value can be bound and the
    rows of all the records can be inserted one after the other; the
    table then holds the result, committed, and no transaction is
    open. *)
Lemma sqlite_insert_all_outcome `{Dialect} (records : list record) pk
    foreign_keys upsert batch_size (self : Table)
    (db : @Database sqlite_model) :
  (1 ≤ batch_size)%Z →
  let created := Table.create_if_absent records pk foreign_keys (self, db) in
  let run :=
    Table.insert_all records pk foreign_keys upsert batch_size (self, db) in
  let cols := Table.all_columns records in
  let table := name created.2.1 in
  let d := pending (conn created.2.2) in
  ∃ cs, chunks records batch_size = inr cs ∧
  match created.1 with
  | inl e => run.1 = inl e
  | inr _ =>
      match records, lookup_name table d with
      | _ :: _, Some td =>
          if decide (Forall (λ c, prepared upsert table cols td (length c))
                            cs ∧
                     Forall bindable (Table.chunk_values cols records)) then
            match insert_rows upsert cols td (bound_rows cols records) with
            | inr td' =>
                (∃ cur, run.1 = inr cur) ∧ run.2.1 = created.2.1 ∧
                conn run.2.2 = {| committed := replace_name table td' d;
                                  transaction := None |}
            | inl _ => ∃ e, run.1 = inl e
            end
          else ∃ e, run.1 = inl e
      | _, _ => ∃ e, run.1 = inl e
      end
  end.
Proof.
  intros Hb created run cols table d. subst created run cols table d.
  rewrite insert_all_unfold.
  destruct (chunks_positive records batch_size ltac:(lia))
    as (cs & Hcs & Hjoin & Hall & _).
  exists cs. split; [done|].
  destruct (Table.create_if_absent records pk foreign_keys (self, db))
    as [[e|[]] [self1 db1]]; [done|].
  cbn [fst snd]. rewrite Hcs.
  assert (Forall (λ c : list (list (string * value)), 0 < length c) cs)
    as Hne by (eapply Forall_impl; [done|]; by intros ? [? _]).
  clear Hcs Hall.
  destruct cs as [|chunk cs].
  { cbn in Hjoin. subst records. by eexists. }
  pose proof (sqlite_insert_chunks_returns upsert (name self1)
                (Table.all_columns records) chunk cs None self1 db1 Hne)
    as Hloop.
  cbv zeta in Hloop. rewrite Hjoin in Hloop.
  destruct (Table.insert_chunks _ _ _ (chunk :: cs) _ _)
    as [r1 [self2 db2]].
  cbn [fst snd] in Hloop.
  destruct records as [|r records'].
  { exfalso. apply Forall_cons_1 in Hne as [Hchunk _].
    apply (f_equal length) in Hjoin.
    change (mjoin (chunk :: cs)) with (chunk ++ mjoin cs) in Hjoin.
    rewrite length_app in Hjoin. cbn in Hjoin. lia. }
  destruct (lookup_name (name self1) (pending (conn db1))) as [td|].
  - case_decide.
    + destruct (insert_rows upsert _ td _) as [e|td'].
      * destruct Hloop as [e' ->]. by eexists.
      * destruct Hloop as ([cur ->] & -> & Hconn). cbn.
        split_and!; [by eexists|done..].
    + destruct Hloop as [e' ->]. by eexists.
  - destruct Hloop as [e' ->]. by eexists.
Qed.


(** ** Upsert *)

Section upsert_facts.
Context `{Dialect}.

Lemma filter_no_clash {A} (P : A → bool) (l : list A) :
  existsb P l = false → filter (λ x, P x = false) l = l.
Proof.
  induction l as [|x l IH]; [done|]. cbn [existsb].
  intros [Hx Hl]%orb_false_elim.
  rewrite filter_cons_True by done. by rewrite IH.
Qed.

(** With a primary key and keys the table can hold, an
    [INSERT OR REPLACE] of rows replaces row by row and never fails. *)
Lemma insert_rows_upsert cols columns rows (news : list (list value)) :
  let td := {| td_columns := columns; td_rows := rows |} in
  is_Some (pk_index td) →
  Forall (λ vals, storable_key td (bound_row td cols vals)) news →
  insert_rows true cols td news =
    inr {| td_columns := columns;
           td_rows := foldl (replace_row td) rows
                            (bound_row td cols <$> news) |}.
Proof.
  intros td. subst td. revert rows.
  induction news as [|vals news IH]; intros rows Hpk Hkeys; [done|].
  apply Forall_cons_1 in Hkeys as [[Hnull Hint] Hkeys].
  cbn [insert_rows fmap list_fmap foldl].
  assert (insert_row true cols {| td_columns := columns; td_rows := rows |}
            vals
          = inr {| td_columns := columns;
                   td_rows :=
                     replace_row {| td_columns := columns; td_rows := rows |}
                       rows
                       (bound_row {| td_columns := columns; td_rows := rows |}
                          cols vals) |}) as ->.
  { unfold insert_row. destruct Hpk as [i Hi]. rewrite Hi.
    set (row := bound_row _ cols vals) in *.
    assert (insert_keyed true {| td_columns := columns; td_rows := rows |}
              (row_key {| td_columns := columns; td_rows := rows |} row) row
            = inr {| td_columns := columns;
                     td_rows :=
                       replace_row
                         {| td_columns := columns; td_rows := rows |}
                         rows row |}) as Hkeyed.
    { unfold insert_keyed, replace_row. cbn [td_columns td_rows].
      destruct (existsb _ rows) eqn:Hex; [done|].
      by rewrite filter_no_clash. }
    destruct (integer_key _) eqn:Hik.
    - specialize (Hint eq_refl).
      destruct (row_key _ row) eqn:Hkey; try done.
    - destruct (row_key _ row) eqn:Hkey; try done. }
  exact (IH (replace_row {| td_columns := columns; td_rows := rows |} rows
               (bound_row {| td_columns := columns; td_rows := rows |}
                  cols vals))
            Hpk Hkeys).
Qed.

Lemma length_chunk_le {A} (c : list A) (cs : list (list A)) :
  c ∈ cs → (length c ≤ length (mjoin cs))%nat.
Proof.
  intros (cs1 & cs2 & ->)%list_elem_of_split.
  rewrite join_app. change (mjoin (c :: cs2)) with (c ++ mjoin cs2).
  rewrite !length_app. lia.
Qed.

(** A field the record lacks is bound as [None] and stored as NULL. *)
Lemma lookup_name_zip_default {V} (g : string → V) (v0 : V) n cols :
  (∀ k, k ∈ cols → fold_case k = fold_case n → g k = v0) →
  default v0 (lookup_name n (zip cols (g <$> cols))) = v0.
Proof.
  induction cols as [|c cols IH]; intros Hg; [done|].
  cbn [fmap list_fmap zip zip_with lookup_name].
  case_decide as Hc.
  - cbn. apply Hg; [left|done].
  - apply IH. intros k Hk. apply Hg. by right.
Qed.

Lemma bound_row_lacking td cols (r : record) i c :
  td_columns td !! i = Some c →
  (fold_case (def_name c) ∉ fold_case <$> keys r) →
  bound_row td cols (adapt <$> Table.row_values cols r) !! i = Some VNone.
Proof.
  intros Hi Hlack. unfold bound_row, Table.row_values.
  rewrite list_lookup_fmap, Hi. cbn. rewrite <- list_fmap_compose.
  rewrite (lookup_name_zip_default _ VNone); [by rewrite store_null|].
  intros k _ Hk. cbn.
  destruct (dict_get k r) as [v|] eqn:Hget; [|done].
  exfalso. apply Hlack. rewrite <- Hk. apply list_elem_of_fmap_2.
  apply dict_get_is_Some. by eexists.
Qed.
End upsert_facts.

(** C8. [upsert] is [upsert_all] of the one record, and [upsert_all]
    replaces on conflict. Through a present handle on a table with a
    primary key that has the records' columns, with inserts (of at most
    100 rows) the engine prepares, values it can bind and keys the table
    can hold,
    [upsert_all] returns and the table then holds, committed, what
    replacing row by row gives: for each record in turn, the rows with
    the record's key are deleted and the record's row is added. That row
    is the record's alone: a column the record lacks is NULL in it,
    whatever the deleted row held. *)
Theorem upsert_replaces_conflicting_row `{Dialect}
    (records : list record) (pk : option string)
    (foreign_keys : option (list foreign_key)) (self : Table)
    (db : @Database sqlite_model) (td : table_data) :
  let cols := Table.all_columns records in
  let news := bound_row td cols <$> bound_rows cols records in
  let run := Table.upsert_all records pk foreign_keys (self, db) in
  exists_ self = true →
  lookup_name (name self) (pending (conn db)) = Some td →
  is_Some (pk_index td) →
  cols ≠ [] → fold_case <$> cols ⊆ column_names td →
  (∀ n, (0 < n ≤ 100)%nat → (n ≤ length records)%nat →
        prepares (Insert true (name self) cols n) = true) →
  Forall bindable (Table.chunk_values cols records) →
  Forall (storable_key td) news →
  (∀ r, Table.upsert r pk foreign_keys (self, db)
        = Table.upsert_all [r] pk foreign_keys (self, db)) ∧
  (∃ cur, run.1 = inr cur) ∧ run.2.1 = self ∧
  (∃ td', lookup_name (name self) (pending (conn run.2.2)) = Some td' ∧
     td_columns td' = td_columns td ∧
     td_rows td' ≡ₚ foldl (replace_row td) (td_rows td) news) ∧
  committed (conn run.2.2) = pending (conn run.2.2) ∧
  (∀ r i c, td_columns td !! i = Some c →
     (fold_case (def_name c) ∉ fold_case <$> keys r) →
     bound_row td cols (adapt <$> Table.row_values cols r) !! i
       = Some VNone).
Proof.
  intros cols news run Hex Htd Hpk Hcols Hsub Hprep Hbind Hkeys.
  split; [done|].
  destruct (sqlite_insert_all_outcome records pk foreign_keys true 100
              self db ltac:(lia)) as (cs & Hcs & Hout).
  rewrite create_if_absent_present in Hout by done. cbn [fst snd] in Hout.
  fold cols in Hout. rewrite Htd in Hout.
  change (Table.insert_all records pk foreign_keys true 100 (self, db))
    with run in Hout.
  assert (Forall (λ c : list record,
                    prepared true (name self) cols td (length c)) cs
          ∧ Forall bindable (Table.chunk_values cols records)) as Hchecks.
  { split; [|done]. destruct (chunks_positive records 100 ltac:(lia))
      as (cs' & Hcs' & Hjoin & Hall & _).
    rewrite Hcs in Hcs'. injection Hcs' as <-.
    apply Forall_forall. intros c Hc.
    pose proof (proj1 (Forall_forall _ _) Hall c Hc) as [Hpos Hle].
    split_and!; [|done..]. apply Hprep; [lia|].
    rewrite <- Hjoin. by apply length_chunk_le. }
  assert (insert_rows true cols td (bound_rows cols records)
          = inr {| td_columns := td_columns td;
                   td_rows := foldl (replace_row td) (td_rows td) news |})
    as Hrows.
  { destruct td as [columns rows]. apply insert_rows_upsert; [done|].
    unfold news in Hkeys. by rewrite Forall_fmap in Hkeys. }
  destruct records as [|r0 records0].
  { exfalso. by apply Hcols. }
  rewrite decide_True in Hout by done. rewrite Hrows in Hout.
  destruct Hout as (Hcur & Hself & Hconn).
  split_and!; [done|done| |by rewrite Hconn|].
  - eexists. rewrite Hconn. cbn [pending transaction default committed].
    split; [apply lookup_replace_name|]. by split.
  - intros r i c Hi Hlack. exact (bound_row_lacking td cols r i c Hi Hlack).
Qed.

(** ** The spec's examples on the dialect for the examples *)

(** A closed [Forall] is proved item by item, each by evaluation. *)
Ltac solve_Forall :=
  repeat (apply Forall_cons_2;
          [vm_compute;
           first [exact I
                 | split; [discriminate
                          | first [reflexivity | intros _; reflexivity]]]|]);
  apply Forall_nil_2.

(** Inserting [{"id": 1, "v": "a"}] and then upserting
    [{"id": 1, "v": "b"}] with [id] as primary key leaves exactly one
    row, [(1, "b")], committed. *)
Lemma upsert_replaces_conflicting_row_witness :
  let s1 := (Table.insert (id_v_record 1 "a") (Some "id") None false
               (absent_t, empty_database)).2 in
  let run := Table.upsert (id_v_record 1 "b") (Some "id") None s1 in
  pending_rows "t" s1.2 = Some [[VInt 1; VStr "a"]] ∧
  (∃ cur, run.1 = inr cur) ∧
  pending_rows "t" run.2.2 = Some [[VInt 1; VStr "b"]] ∧
  committed_rows "t" run.2.2 = Some [[VInt 1; VStr "b"]].
Proof.
  intros s1 run.
  set (td := {| td_columns :=
                  [{| def_name := "id"; def_type := "INTEGER";
                      def_pk := true; def_references := None |};
                   {| def_name := "v"; def_type := "TEXT";
                      def_pk := false; def_references := None |}];
                td_rows := [[VInt 1; VStr "a"]] |}).
  assert (s1 = (present_t, s1.2)) as Hs1.
  { rewrite (surjective_pairing s1) at 1. by f_equal. }
  assert (lookup_name (name present_t) (pending (conn s1.2)) = Some td)
    as Htd by (vm_compute; reflexivity).
  assert (exists_ present_t = true) as H1 by reflexivity.
  assert (is_Some (pk_index td)) as H2 by (vm_compute; by eexists).
  assert (Table.all_columns [id_v_record 1 "b"] ≠ []) as H3
    by (vm_compute; discriminate).
  assert (fold_case <$> Table.all_columns [id_v_record 1 "b"]
          ⊆ column_names td) as H4.
  { vm_compute. intros x Hx. exact Hx. }
  assert (∀ n, (0 < n ≤ 100)%nat → (n ≤ length [id_v_record 1 "b"])%nat →
            prepares (Insert true (name present_t)
                        (Table.all_columns [id_v_record 1 "b"]) n) = true)
    as H5.
  { intros n Hn Hlen. cbn in Hlen. assert (n = 1) as -> by lia.
    vm_compute. reflexivity. }
  assert (Forall bindable
            (Table.chunk_values (Table.all_columns [id_v_record 1 "b"])
               [id_v_record 1 "b"])) as H6.
  { assert (Table.chunk_values (Table.all_columns [id_v_record 1 "b"])
              [id_v_record 1 "b"] = [VInt 1; VStr "b"]) as ->
      by (vm_compute; reflexivity).
    solve_Forall. }
  assert (Forall (storable_key td)
            (bound_row td (Table.all_columns [id_v_record 1 "b"])
             <$> bound_rows (Table.all_columns [id_v_record 1 "b"])
                   [id_v_record 1 "b"])) as H7.
  { assert (bound_row td (Table.all_columns [id_v_record 1 "b"])
            <$> bound_rows (Table.all_columns [id_v_record 1 "b"])
                  [id_v_record 1 "b"] = [[VInt 1; VStr "b"]]) as ->
      by (vm_compute; reflexivity).
    solve_Forall. }
  pose proof (upsert_replaces_conflicting_row [id_v_record 1 "b"]
                (Some "id") None present_t s1.2 td) as Hw.
  cbv zeta in Hw.
  destruct (Hw H1 Htd H2 H3 H4 H5 H6 H7)
    as (Hupsert & Hcur & _ & (td' & Htd' & _ & Hrows) & Hcommitted & _).
  clear Hw.
  assert (run = Table.upsert_all [id_v_record 1 "b"] (Some "id") None
                  (present_t, s1.2)) as Hrun.
  { unfold run. rewrite Hs1 at 1. apply Hupsert. }
  rewrite <- Hrun in Hcur, Htd', Hcommitted.
  assert (td_rows td' = [[VInt 1; VStr "b"]]) as Hrows'.
  { apply Permutation_singleton_r. rewrite Hrows. by vm_compute. }
  split; [by vm_compute|]. split; [exact Hcur|].
  change (name present_t) with "t" in Htd'.
  unfold pending_rows, committed_rows. rewrite Hcommitted, Htd'.
  cbn [fmap option_fmap option_map]. rewrite Hrows'. split; reflexivity.
Defined.

(** ** Chunking and failures *)



(** ** Concrete runs *)

(** Two handles on an existing table [t]: after a drop through the
    second, the first still reports present, although the table is gone
    and a handle taken afterwards reports absent. *)
Lemma exists_flag_never_cleared_witness :
  let db_t := (Table.insert (id_record 1) (Some "id") None false
                 (absent_t, empty_database)).2.2 in
  let s := run {| handles := []; shared := db_t |} [Open "t"; Open "t"] in
  let s' := run s [Invoke 1 CallDrop; Open "t"] in
  handles s !! 0 = Some present_t ∧ handles s !! 1 = Some present_t ∧
  handles s' !! 0 = Some present_t ∧
  handles s' !! 2 = Some absent_t ∧
  pending_rows "t" (shared s') = None.
Proof.
  intros db_t s s'.
  assert (handles s !! 0 = Some present_t) as H0 by (by vm_compute).
  split_and!; [done|by vm_compute| |by vm_compute..].
  apply (proj2 exists_flag_never_cleared s [Invoke 1 CallDrop; Open "t"]
           0 present_t H0 eq_refl).
Defined.

(** Columns [{a: int, b: int}] with the foreign key
    [("b", "INTEGER", "other", "id")]: [b] is not a column of the
    creation statement, and is added by the alteration that follows. *)
Lemma create_excludes_foreign_key_columns_witness :
  let columns := [("a", int_); ("b", int_)] in
  let run :=
    Table.create columns None (Some [fk_b]) (absent_t, empty_database) in
  fk_b ∈ [fk_b] ∧
  (column fk_b ∉
     (Database.create_columns
        (filter (λ nv, nv.1 ∉ column <$> [fk_b]) columns) None).*1.*1) ∧
  statements (trace run.2.2) =
    [CreateTable "t" [("a", "INTEGER", false)]; SelectTableNames;
     AlterTableAddColumn "t" "b" "INTEGER" "other" "id"].
Proof.
  intros columns run.
  assert (fk_b ∈ [fk_b]) as Hin by left.
  split_and!; [done| |by vm_compute].
  apply (proj1 (create_excludes_foreign_key_columns columns None
                  (Some [fk_b]) absent_t empty_database) fk_b Hin).
Defined.

(** Records [{"b": 1}] and [{"a": "x"}] written one per chunk: both
    inserts have the columns [a, b] of the whole batch, and each binds
    [None] for the column its record lacks. *)
Lemma insert_all_binds_unified_columns_witness :
  let records := [[("b", VInt 1)]; [("a", VStr "x")]] in
  let run :=
    Table.insert_all records None None false 1 (absent_t, empty_database) in
  Table.all_columns records = ["a"; "b"] ∧
  insert_calls (drop (length (trace empty_database)) (trace run.2.2)) =
    [(Insert false "t" ["a"; "b"] 1, [VNone; VInt 1]);
     (Insert false "t" ["a"; "b"] 1, [VStr "x"; VNone])].
Proof.
  intros records run. split; [by vm_compute|].
  assert (records ≠ []) as Hne by discriminate.
  destruct (insert_all_binds_unified_columns records None None false 1
              absent_t empty_database Hne ltac:(lia))
    as (_ & _ & _ & _ & cs & Hcs & _ & _ & Hmade).
  fold run in Hmade.
  assert ((Table.create_if_absent records None None
             (absent_t, empty_database)).1 = inr ()) as Hc
    by (vm_compute; reflexivity).
  assert (run.1 = inr {| fetchall := []; rowcount := 1 |}) as Hr
    by (vm_compute; reflexivity).
  rewrite Hc, Hr in Hmade. rewrite Hmade.
  assert (cs = [[[("b", VInt 1)]]; [[("a", VStr "x")]]]) as ->.
  { vm_compute in Hcs. by injection Hcs as <-. }
  vm_compute. reflexivity.
Defined.

(** Three records in chunks of one, the second repeating the key of the
    first: the call raises out of the insert of a chunk, after the
    insert and the commit of the chunks before it; the committed table
    holds the first row only. *)
Lemma insert_all_commits_after_each_chunk_witness :
  let records := [id_record 1; id_record 1; id_record 2] in
  let cs := [[id_record 1]; [id_record 1]; [id_record 2]] in
  let e := Sqlite3Error (IntegrityError "UNIQUE constraint failed") in
  let created :=
    Table.create_if_absent records (Some "id") None (absent_t, empty_database) in
  let run :=
    Table.insert_all records (Some "id") None false 1
      (absent_t, empty_database) in
  let cols := Table.all_columns records in
  run.1 = inl e ∧
  committed_rows "t" run.2.2 = Some [[VInt 1]] ∧
  ((cs = [] ∧ e = result_unbound ∧ run.2.2 = created.2.2) ∨
   (∃ e' i chunk results,
      e = Sqlite3Error e' ∧ cs !! i = Some chunk ∧ length results = i ∧
      extends created.2.2 run.2.2
        (chunk_events false (name absent_t) cols (take i cs) results ++
         [EvExecute (insert_statement false (name absent_t) cols chunk)
                    (Table.chunk_values cols chunk) (inl e')]))).
Proof.
  intros records cs e created run cols.
  assert (run.1 = inl e) as Hr by (vm_compute; reflexivity).
  assert (committed_rows "t" run.2.2 = Some [[VInt 1]]) as Hrows
    by (vm_compute; reflexivity).
  split; [exact Hr|]. split; [exact Hrows|].
  pose proof (insert_all_commits_after_each_chunk records (Some "id") None
                false 1 absent_t empty_database) as Hw.
  cbv zeta in Hw. fold created run cols in Hw.
  assert (created.1 = inr ()) as Hc by (vm_compute; reflexivity).
  assert (chunks records 1 = inr cs) as Hcs by (vm_compute; reflexivity).
  rewrite Hc, Hcs, Hr in Hw. exact Hw.
Defined.

(** ** What the schema operations commit *)

Lemma comprehension_returns {S A B} (f : A → exception + B) (l : list A)
    (ys : list B) (s : S) :
  Forall2 (λ x y, f x = inr y) l ys →
  comprehension (λ x, lift_result (f x)) l s = (inr ys, s).
Proof.
  induction 1 as [|x y l ys Hx _ IH]; [done|].
  cbn [comprehension]. rewrite bind_run. unfold lift_result at 1.
  rewrite Hx. rewrite bind_run, IH. done.
Qed.

Section schema_on_model.
Context `{Dialect}.

(** On the model, taking a handle always returns and leaves the
    connection as it was. *)
Lemma sqlite_getitem (table_name : string) (db : @Database sqlite_model) :
  ∃ t db',
    Database.getitem table_name db = (inr t, db') ∧ conn db' = conn db.
Proof.
  unfold Database.getitem, Database.Table__init__, Database.tables.
  rewrite !bind_run. unfold Database.execute.
  cbn [engine_execute sqlite_model sqlite_execute fetchall].
  rewrite (comprehension_returns _ _ (VStr <$> keys (pending (conn db)))).
  - by eexists _, _.
  - apply Forall2_fmap, Forall_Forall2_diag, Forall_true. done.
Qed.

(** [create_table] on the model: a creation that the engine accepts
    joins the open transaction, and is committed at once when none is
    open. *)
Lemma sqlite_create_table table columns pk (db : @Database sqlite_model) :
  let run := Database.create_table table columns pk db in
  match sqlite_create table (Database.create_columns columns pk)
          (pending (conn db)) with
  | inl e => run.1 = inl (Sqlite3Error e) ∧ conn run.2 = conn db
  | inr d =>
      (∃ t, run.1 = inr t) ∧
      conn run.2 =
        match transaction (conn db) with
        | Some _ => {| committed := committed (conn db);
                       transaction := Some d |}
        | None => {| committed := d; transaction := None |}
        end
  end.
Proof.
  intros run. subst run.
  assert (Database.create_table table columns pk db =
          match sqlite_create table (Database.create_columns columns pk)
                  (pending (conn db)) with
          | inl e =>
              (inl (Sqlite3Error e),
               {| conn := conn db;
                  trace := trace db ++
                    [EvExecute (CreateTable table
                                  (Database.create_columns columns pk))
                               [] (inl e)] |})
          | inr d =>
              Database.getitem table
                {| conn :=
                     match transaction (conn db) with
                     | Some _ => {| committed := committed (conn db);
                                    transaction := Some d |}
                     | None => {| committed := d; transaction := None |}
                     end;
                   trace := trace db ++
                     [EvExecute (CreateTable table
                                   (Database.create_columns columns pk))
                                []
                                (inr {| fetchall := [];
                                        rowcount := (-1)%Z |})] |}
          end) as ->.
  { unfold Database.create_table. rewrite bind_run.
    unfold Database.execute at 1.
    cbn [engine_execute sqlite_model sqlite_execute].
    by destruct (sqlite_create _ _ _). }
  destruct (sqlite_create _ _ _) as [e|d]; [done|].
  match goal with
  | |- context [Database.getitem ?n ?d] =>
      destruct (sqlite_getitem n d) as (t & db1 & -> & Hconn)
  end.
  cbn [fst snd]. split; [by eexists|]. by rewrite Hconn.
Qed.

(** [add_foreign_key] on the model: an alteration that the engine
    accepts is committed with everything else that was pending. *)
Lemma sqlite_add_foreign_key c ty ot oc (self : Table)
    (db : @Database sqlite_model) :
  let run := Table.add_foreign_key c ty ot oc (self, db) in
  match sqlite_alter (name self) c ty ot oc (pending (conn db)) with
  | inl e =>
      run.1 = inl (Sqlite3Error e) ∧ run.2.1 = self ∧ conn run.2.2 = conn db
  | inr d =>
      run.1 = inr {| fetchall := []; rowcount := (-1)%Z |} ∧
      run.2.1 = self ∧
      conn run.2.2 = {| committed := d; transaction := None |}
  end.
Proof.
  intros run. subst run.
  assert (∃ db',
    Table.add_foreign_key c ty ot oc (self, db) =
      (match sqlite_alter (name self) c ty ot oc (pending (conn db)) with
       | inl e => inl (Sqlite3Error e)
       | inr _ => inr {| fetchall := []; rowcount := (-1)%Z |}
       end, (self, db')) ∧
    conn db' =
      match sqlite_alter (name self) c ty ot oc (pending (conn db)) with
      | inl e => conn db
      | inr d => {| committed := d; transaction := None |}
      end) as (db' & -> & Hconn).
  { unfold Table.add_foreign_key. rewrite bind_run.
    unfold Table.get_self at 1. rewrite bind_run.
    unfold Table.on_db at 1, Database.execute.
    cbn [engine_execute sqlite_model sqlite_execute].
    destruct (sqlite_alter _ _ _ _ _ _) as [e|d]; [by eexists|].
    rewrite bind_run. unfold Table.on_db at 1, Database.commit.
    eexists. split; [reflexivity|]. cbn.
    by destruct (transaction (conn db)). }
  cbn [fst snd]. by destruct (sqlite_alter _ _ _ _ _ _).
Qed.

Lemma sqlite_create_inr table columns db d :
  sqlite_create table columns db = inr d →
  (fold_case table ∉ fold_case <$> keys db) ∧
  prepares (CreateTable table columns) = true ∧
  d = db ++
      [(table,
        {| td_columns :=
             (λ '(n, ty, pk),
                {| def_name := n; def_type := ty; def_pk := pk;
                   def_references := None |}) <$> columns;
           td_rows := [] |})].
Proof.
  unfold sqlite_create. case_decide; [done|]. case_decide; [done|].
  destruct (prepares _); [|done]. cbn [negb].
  repeat case_decide; try done. by intros [= <-].
Qed.

Lemma sqlite_alter_inr table c ty ot oc db d :
  sqlite_alter table c ty ot oc db = inr d →
  ∃ td, lookup_name table db = Some td ∧
    (fold_case c ∉ column_names td) ∧
    d = replace_name table
          {| td_columns :=
               td_columns td ++
               [{| def_name := c; def_type := ty; def_pk := false;
                   def_references := Some (ot, oc) |}];
             td_rows := (λ r, r ++ [VNone]) <$> td_rows td |}
          db.
Proof.
  unfold sqlite_alter. destruct (lookup_name table db) as [td|]; [|done].
  destruct (prepares _); [|done]. cbn [negb].
  case_decide; [done|]. destruct (references _ _ _); [|done].
  cbn [negb]. intros [= <-]. by exists td.
Qed.
End schema_on_model.




(** ** More on type inference *)

Lemma elements_singleton_inv (s : gset py_type) t :
  elements s = [t] → s = {[t]}.
Proof.
  intros He. apply set_eq. intros x.
  rewrite <- elem_of_elements, He, list_elem_of_singleton.
  by rewrite elem_of_singleton.
Qed.

(** The reduction of [detect_column_types] followed by the keyword table
    of [create_table], in closed form. *)
Lemma keyword_unify (s : gset py_type) :
  col_type_keyword (unify s) = widest_keyword s.
Proof.
  unfold unify, widest_keyword.
  destruct (elements s) as [|t [|t' l]] eqn:He.
  - apply elements_empty_inv in He. apply leibniz_equiv in He. subst s.
    rewrite decide_True by set_solver.
    rewrite decide_False by set_solver. by rewrite decide_False by set_solver.
  - apply elements_singleton_inv in He. subst s.
    destruct t; cbn [col_type_keyword];
      repeat case_decide; try done; set_solver.
  - clear He. destruct (decide (s ⊆ {[int_; bool_]})) as [Hib|Hib].
    + rewrite decide_False by set_solver. by rewrite decide_False by set_solver.
    + destruct (decide (s ⊆ {[int_; float_; bool_]})) as [Hifb|Hifb].
      * rewrite decide_False by set_solver. rewrite decide_True; [done|].
        destruct (decide (float_ ∈ s)) as [|Hf]; [done|].
        exfalso. apply Hib. intros x Hx. specialize (Hifb x Hx).
        destruct x; set_solver.
      * rewrite decide_True; [done|].
        destruct (decide (str_ ∈ s)) as [|Hs]; [by left|].
        destruct (decide (NoneType ∈ s)) as [|Hn]; [by right|].
        exfalso. apply Hifb. intros x Hx. destruct x; set_solver.
Qed.

Lemma observed_kinds_app (records more : list record) key :
  observed_kinds (records ++ more) key
  = observed_kinds records key ∪ observed_kinds more key.
Proof.
  unfold observed_kinds.
  by rewrite join_app, filter_app, fmap_app, list_to_set_app_L.
Qed.

Lemma observed_kinds_Permutation (records records' : list record) key :
  records ≡ₚ records' →
  observed_kinds records key = observed_kinds records' key.
Proof.
  intros Hperm. unfold observed_kinds. apply list_to_set_perm_L.
  by rewrite Hperm.
Qed.

Lemma inferred_column_type_kinds (records : list record) (key : string) :
  inferred_column_type records key =
    widest_keyword <$>
      (if decide (observed_kinds records key = ∅) then None
       else Some (observed_kinds records key)).
Proof.
  unfold inferred_column_type. rewrite detect_column_types_spec.
  case_decide; [done|]. cbn. by rewrite keyword_unify.
Qed.

(** X1. The column type of a field, in closed form: an observed field is
    TEXT as soon as some record holds a [str] or [None] under it, else
    FLOAT as soon as some record holds a [float], else INTEGER; a field
    no record has gets no column. *)
Theorem inferred_column_type_closed_form (records : list record)
    (key : string) :
  inferred_column_type records key =
    if decide (observed_kinds records key = ∅) then None
    else Some (widest_keyword (observed_kinds records key)).
Proof.
  unfold inferred_column_type. rewrite detect_column_types_spec.
  case_decide; [done|]. cbn. by rewrite keyword_unify.
Qed.

(** X2. Inference does not depend on the order of the records: records
    given in another order yield the same type for every field. *)
Theorem detect_column_types_order_independent
    (records records' : list record) (key : string) :
  records ≡ₚ records' →
  dict_get key (detect_column_types records)
  = dict_get key (detect_column_types records').
Proof.
  intros Hperm. rewrite !detect_column_types_spec.
  by rewrite (observed_kinds_Permutation _ _ _ Hperm).
Qed.

Lemma detect_column_types_order_independent_witness :
  dict_get "n" (detect_column_types
                  [[("n", VInt 1)]; [("n", VFloat S754_nan)]; [("s", VNone)]])
  = dict_get "n" (detect_column_types
                    [[("s", VNone)]; [("n", VFloat S754_nan)]; [("n", VInt 1)]]).
Proof.
  apply detect_column_types_order_independent.
  apply Permutation_sym. rewrite <- reverse_Permutation. reflexivity.
Defined.

(** X3. More records never narrow a column: a field that is TEXT stays
    TEXT, a field that is FLOAT stays FLOAT or becomes TEXT, and an
    observed field stays observed, whatever records are added. *)
Theorem more_records_never_narrow (records more : list record)
    (key : string) :
  (inferred_column_type records key = Some "TEXT" →
   inferred_column_type (records ++ more) key = Some "TEXT") ∧
  (inferred_column_type records key = Some "FLOAT" →
   inferred_column_type (records ++ more) key = Some "FLOAT" ∨
   inferred_column_type (records ++ more) key = Some "TEXT") ∧
  (inferred_column_type records key ≠ None →
   inferred_column_type (records ++ more) key ≠ None).
Proof.
  rewrite !inferred_column_type_kinds, observed_kinds_app.
  set (k := observed_kinds records key). set (m := observed_kinds more key).
  unfold widest_keyword.
  destruct (decide (k = ∅)) as [Hk|Hk].
  { split_and!; done. }
  rewrite (decide_False (P := k ∪ m = ∅)) by set_solver.
  cbn [fmap option_fmap option_map].
  split_and!; [| |done].
  - destruct (decide (str_ ∈ k ∨ NoneType ∈ k)) as [Hsn|Hsn].
    + intros _. by rewrite decide_True by set_solver.
    + by destruct (decide (float_ ∈ k)).
  - destruct (decide (str_ ∈ k ∨ NoneType ∈ k)) as [Hsn|Hsn]; [done|].
    destruct (decide (float_ ∈ k)) as [Hf|Hf]; [|done]. intros _.
    destruct (decide (str_ ∈ k ∪ m ∨ NoneType ∈ k ∪ m)); [by right|].
    left. by rewrite decide_True by set_solver.
Qed.

Lemma more_records_never_narrow_witness :
  inferred_column_type
    ([[("n", VFloat S754_nan)]] ++ [[("n", VInt 1)]; [("n", VBool true)]]) "n"
  = Some "FLOAT" ∨
  inferred_column_type
    ([[("n", VFloat S754_nan)]] ++ [[("n", VInt 1)]; [("n", VBool true)]]) "n"
  = Some "TEXT".
Proof.
  apply (proj1 (proj2 (more_records_never_narrow
                         [[("n", VFloat S754_nan)]]
                         [[("n", VInt 1)]; [("n", VBool true)]] "n"))).
  by vm_compute.
Defined.

Lemma first_occurrences_snoc (l : list string) k :
  first_occurrences (l ++ [k]) =
    if decide (k ∈ first_occurrences l) then first_occurrences l
    else first_occurrences l ++ [k].
Proof.
  unfold first_occurrences. rewrite reverse_snoc. cbn [remove_dups].
  destruct (decide_rel elem_of k (reverse l)) as [Hin|Hin].
  - rewrite decide_True; [done|].
    by rewrite elem_of_reverse, elem_of_remove_dups.
  - rewrite decide_False by (by rewrite elem_of_reverse, elem_of_remove_dups).
    by rewrite reverse_cons.
Qed.

Lemma keys_observe_order acc k v :
  keys (observe acc k v) =
    if decide (k ∈ keys acc) then keys acc else keys acc ++ [k].
Proof.
  unfold observe, dict_setdefault.
  destruct (dict_get k acc) as [s|] eqn:Hk.
  - rewrite keys_dict_set. apply decide_ext. done.
  - apply dict_get_None in Hk. rewrite !keys_dict_set.
    rewrite (decide_False (P := k ∈ keys acc)) by done.
    rewrite decide_True; [done|].
    rewrite elem_of_app, list_elem_of_singleton. by right.
Qed.

(** X4. The fields of the inferred mapping come in the order in which
    they first occur in the records (each record's fields in its own
    order), which is the order of the columns of the table created from
    it. *)
Theorem detect_column_types_key_order (records : list record)
    (pk : option string) :
  keys (detect_column_types records)
    = first_occurrences (keys (mjoin records)) ∧
  (Database.create_columns (detect_column_types records) pk).*1.*1
    = first_occurrences (keys (mjoin records)).
Proof.
  assert (keys (detect_column_types records)
          = first_occurrences (keys (mjoin records))) as Hkeys.
  { rewrite detect_column_types_fmap, keys_fmap, collect_types_concat.
    induction (mjoin records) as [|[k v] items IH] using rev_ind; [done|].
    rewrite foldl_snoc. unfold keys at 2. rewrite fmap_app.
    fold (keys items). cbn [fmap list_fmap fst].
    rewrite first_occurrences_snoc, <- IH. apply keys_observe_order. }
  split; [done|]. rewrite <- Hkeys. unfold Database.create_columns, keys.
  rewrite <- !list_fmap_compose. apply list_fmap_ext. by intros ? [? ?].
Qed.

(** ** More on chunks *)

Lemma range_up_lookup fuel i stop step k :
  (0 < step)%Z → (stop - i ≤ Z.of_nat fuel)%Z →
  range_up fuel i stop step !! k =
    if decide (i + Z.of_nat k * step < stop)%Z
    then Some (i + Z.of_nat k * step)%Z else None.
Proof.
  intros Hstep. revert i k.
  induction fuel as [|fuel IH]; intros i k Hfuel; cbn [range_up].
  - rewrite decide_False by nia. done.
  - destruct (i <? stop)%Z eqn:Hlt.
    + apply Z.ltb_lt in Hlt. destruct k as [|k]; cbn [lookup list_lookup].
      * rewrite decide_True by lia. f_equal. lia.
      * change (range_up fuel (i + step) stop step !! k = 
                 if decide (i + Z.of_nat (S k) * step < stop)%Z
                 then Some (i + Z.of_nat (S k) * step)%Z else None).
        rewrite IH by lia.
        replace (i + step + Z.of_nat k * step)%Z
          with (i + Z.of_nat (S k) * step)%Z by lia.
        done.
    + apply Z.ltb_ge in Hlt. rewrite decide_False by nia. done.
Qed.

(** X5. For a positive size, [chunks] yields ceil(len / size) chunks,
    and the [k]-th is the [size] items from position [k * size] on (fewer
    at the end of the sequence). *)
Theorem chunks_count_and_content {A} (l : list A) (size : Z) :
  (0 < size)%Z →
  ∃ cs, chunks l size = inr cs ∧
    length cs = Z.to_nat ((Z.of_nat (length l) + size - 1) / size) ∧
    ∀ k, k < length cs →
      cs !! k = Some (take (Z.to_nat size) (drop (k * Z.to_nat size) l)).
Proof.
  intros Hsize. unfold chunks, range.
  rewrite decide_False, decide_True by lia. rewrite Z.sub_0_r.
  eexists. split; [done|].
  set (len := Z.of_nat (length l)).
  set (n := Z.to_nat ((len + size - 1) / size)).
  assert (∀ k, (0 + Z.of_nat k * size < len)%Z ↔ k < n) as Hn.
  { intros k. subst n.
    assert (0 ≤ len)%Z by lia.
    pose proof (Z.div_mod (len + size - 1) size ltac:(lia)) as Hdm.
    pose proof (Z.mod_pos_bound (len + size - 1) size Hsize) as Hmod.
    split; intros Hk.
    - apply Nat2Z.inj_lt. rewrite Z2Nat.id by (apply Z.div_pos; lia). nia.
    - apply Nat2Z.inj_lt in Hk. rewrite Z2Nat.id in Hk
        by (apply Z.div_pos; lia). nia. }
  assert (∀ k,
    ((λ i, slice l i (i + size)%Z) <$>
       range_up (Z.to_nat len) 0 len size) !! k =
    if decide (k < n)
    then Some (take (Z.to_nat size) (drop (k * Z.to_nat size) l))
    else None) as Hlookup.
  { intros k. rewrite list_lookup_fmap, range_up_lookup by lia.
    destruct (decide (k < n)) as [Hk|Hk].
    - rewrite decide_True by (by apply Hn). cbn.
      rewrite slice_chunk by lia. do 3 f_equal. lia.
    - rewrite decide_False by (by rewrite Hn). done. }
  split.
  - apply Nat.le_antisymm.
    + apply Nat.nlt_ge. intros Hlt.
      apply lookup_lt_is_Some_2 in Hlt as [c Hc].
      rewrite Hlookup, decide_False in Hc by lia. done.
    + apply Nat.nlt_ge. intros Hlt.
      pose proof (Hlookup (length ((λ i, slice l i (i + size)%Z) <$>
                     range_up (Z.to_nat len) 0 len size))) as Hc.
      rewrite decide_True in Hc by done.
      by rewrite lookup_ge_None_2 in Hc.
  - intros k Hk. rewrite Hlookup. rewrite decide_True; [done|].
    destruct (decide (k < n)) as [|Hge]; [done|].
    apply lookup_lt_is_Some_2 in Hk as [c Hc].
    rewrite Hlookup, decide_False in Hc by done. done.
Qed.

Lemma chunks_count_and_content_witness :
  ∃ cs, chunks (seq 0 250) 100 = inr cs ∧
    length cs = Z.to_nat ((Z.of_nat (length (seq 0 250)) + 100 - 1) / 100) ∧
    ∀ k, k < length cs →
      cs !! k = Some (take (Z.to_nat 100) (drop (k * Z.to_nat 100) (seq 0 250))).
Proof. apply chunks_count_and_content. lia. Defined.

(** X6. With a batch size of zero or below no chunk is ever written:
    [insert_all] runs the lazy creation (so a table that was absent is
    still created) and then raises, [ValueError] for zero and the unbound
    [result] for a negative size, leaving handle and database as the
    creation left them. *)
Theorem insert_all_non_positive_batch_size `{Engine}
    (records : list record) (pk : option string)
    (foreign_keys : option (list foreign_key)) (upsert : bool)
    (batch_size : Z) (self : Table) (db : Database) :
  (batch_size ≤ 0)%Z →
  let created := Table.create_if_absent records pk foreign_keys (self, db) in
  Table.insert_all records pk foreign_keys upsert batch_size (self, db) =
    (match created.1 with
     | inl e => inl e
     | inr _ =>
         inl (if decide (batch_size = 0%Z)
              then ValueError "range() arg 3 must not be zero"
              else result_unbound)
     end,
     created.2).
Proof.
  intros Hb created. subst created. rewrite insert_all_unfold.
  destruct (Table.create_if_absent _ _ _ _) as [[e|[]] [self1 db1]]; [done|].
  cbn [fst snd]. destruct (decide (batch_size = 0%Z)) as [->|Hne].
  - unfold chunks, range. by rewrite decide_True.
  - by rewrite chunks_negative by lia.
Qed.

Lemma insert_all_non_positive_batch_size_witness :
  (Table.insert_all [id_record 1] None None false (-5)
     (absent_t, empty_database)).1 = inl result_unbound ∧
  pending_rows "t"
    (Table.insert_all [id_record 1] None None false (-5)
       (absent_t, empty_database)).2.2 = Some [].
Proof.
  rewrite (insert_all_non_positive_batch_size [id_record 1] None None false
             (-5) absent_t empty_database ltac:(lia)).
  by vm_compute.
Defined.

(** ** More on create and insert_all *)

Section more_runs.
Context `{Engine}.
Implicit Types (db : Database) (self : Table).

(** The first call of [create] is the creation statement. *)
Lemma create_first_event columns pk foreign_keys self db r self' db' :
  Table.create columns pk foreign_keys (self, db) = (r, (self', db')) →
  ∃ out rest,
    trace db' =
      trace db ++
      EvExecute (create_statement (name self) columns pk foreign_keys) [] out
      :: rest.
Proof.
  intros Hrun. apply create_run in Hrun
    as [(e & -> & -> & [(e' & -> & Hext & _)|(cur & out & Hext & _)])
       |[(cur & cur' & e & i & fk & results & -> & -> & _ & _ & Hext & _)
        |(cur & cur' & results & -> & -> & _ & Hext & _)]];
    rewrite Hext; by eexists _, _.
Qed.

(** The calls of [insert_all] come after those of the lazy creation. *)
Lemma insert_all_after_creation records pk foreign_keys upsert batch_size
    self db :
  ∃ rest,
    trace (Table.insert_all records pk foreign_keys upsert batch_size
             (self, db)).2.2
    = trace (Table.create_if_absent records pk foreign_keys (self, db)).2.2
      ++ rest.
Proof.
  destruct (Table.insert_all _ _ _ _ _ _) as [r [self' db']] eqn:Hrun.
  apply insert_all_run in Hrun as (r0 & self1 & db1 & -> & -> & Hrest).
  cbn [fst snd].
  assert (db' = db1 → ∃ rest, trace db' = trace db1 ++ rest) as Hsame.
  { intros ->. exists []. by rewrite app_nil_r. }
  destruct r0 as [e|[]]; [by apply Hsame, Hrest|].
  destruct (chunks records batch_size) as [e|cs]; [by apply Hsame, Hrest|].
  destruct r as [e|cur].
  - destruct Hrest as [(_ & _ & ?)|(? & ? & ? & ? & _ & _ & _ & Hext & _)];
      [by apply Hsame | by eexists].
  - destruct Hrest as (? & _ & _ & Hext & _). by eexists.
Qed.
End more_runs.

Lemma dict_get_NoDup {V} key (v : V) (d : dict V) :
  NoDup (keys d) → (key, v) ∈ d → dict_get key d = Some v.
Proof.
  unfold keys. induction d as [|[k w] d IH]; [by intros _ ?%elem_of_nil|].
  cbn [fmap list_fmap fst dict_get]. intros [Hk Hd]%NoDup_cons.
  intros [[= -> ->]|Hin]%elem_of_cons.
  - by rewrite decide_True.
  - rewrite decide_False; [by apply IH|]. intros ->. apply Hk.
    by apply (list_elem_of_fmap_2 fst _ (key, v)).
Qed.

Lemma elem_of_keys_detect_column_types (records : list record) key :
  key ∈ keys (detect_column_types records) ↔ key ∈ Table.all_columns records.
Proof.
  rewrite elem_of_all_columns, <- dict_get_is_Some, detect_column_types_spec.
  case_decide as Hk.
  - split; [by intros [? ?]|]. intros (r & Hr & Hin). exfalso.
    apply list_elem_of_fmap in Hin as ([k v] & -> & Hin).
    apply (not_elem_of_empty (C:=gset py_type) (type v)).
    rewrite <- Hk. apply elem_of_observed_kinds. by exists r, v.
  - split; [|by eexists]. intros _.
    apply set_choose_L in Hk as [t Ht].
    apply elem_of_observed_kinds in Ht as (r & v & Hr & Hin & _).
    exists r. split; [done|]. by apply (list_elem_of_fmap_2 fst _ (key, v)).
Qed.

(** X7. The table [insert_all] creates for an absent handle has columns
    for all of the data: the creation statement, which is the first call
    made, lists exactly the fields of the records that no foreign key
    claims, each with the keyword of its inferred type; so every column
    the inserts name is created there or is one of the foreign keys. *)
Theorem lazy_create_covers_all_columns `{Engine}
    (records : list record) (pk : option string)
    (foreign_keys : option (list foreign_key)) (upsert : bool)
    (batch_size : Z) (self : Table) (db : Database) :
  exists_ self = false →
  let run :=
    Table.insert_all records pk foreign_keys upsert batch_size (self, db) in
  let claimed := column <$> or_empty foreign_keys in
  let cols :=
    Database.create_columns
      (filter (λ nv, nv.1 ∉ claimed) (detect_column_types records)) pk in
  (∃ out rest,
     trace run.2.2 =
       trace db ++ EvExecute (CreateTable (name self) cols) [] out :: rest) ∧
  (∀ key, key ∈ Table.all_columns records →
     key ∈ cols.*1.*1 ∨ key ∈ claimed) ∧
  (∀ n kw p, (n, kw, p) ∈ cols →
     n ∈ Table.all_columns records ∧ (n ∉ claimed) ∧
     inferred_column_type records n = Some kw).
Proof.
  intros Hex run claimed cols. split_and!.
  - subst run.
    destruct (insert_all_after_creation records pk foreign_keys upsert
                batch_size self db) as [rest ->].
    destruct (Table.create_if_absent _ _ _ _) as [r0 [self1 db1]] eqn:Hc.
    apply create_if_absent_run in Hc as (ev & _ & _ & _ & _ & _ & Hc).
    specialize (Hc Hex). apply create_first_event in Hc as (out & rest' & Hc).
    cbn [snd]. rewrite Hc. unfold create_statement.
    rewrite claimed_columns_filter.
    exists out, (rest' ++ rest). by rewrite <- app_assoc.
  - intros key Hkey. destruct (decide (key ∈ claimed)) as [|Hnot]; [by right|].
    left. apply elem_of_keys_detect_column_types in Hkey.
    apply list_elem_of_fmap in Hkey as ([k ty] & -> & Hin).
    unfold cols, Database.create_columns. rewrite <- !list_fmap_compose.
    apply list_elem_of_fmap. exists (k, ty). split; [done|].
    by apply list_elem_of_filter.
  - intros n kw p Hin. unfold cols, Database.create_columns in Hin.
    apply list_elem_of_fmap in Hin as ([k ty] & [= -> -> ->] & Hin).
    apply list_elem_of_filter in Hin as [Hnot Hin]. cbn in Hnot.
    split_and!; [|done|].
    + apply elem_of_keys_detect_column_types.
      by apply (list_elem_of_fmap_2 fst _ (k, ty)).
    + unfold inferred_column_type.
      assert (NoDup (keys (detect_column_types records))) as Hnd.
      { rewrite detect_column_types_fmap, keys_fmap.
        apply NoDup_keys_collect_types. }
      by rewrite (dict_get_NoDup k ty _ Hnd Hin).
Qed.

Lemma lazy_create_covers_all_columns_witness :
  ∃ out rest,
    trace (Table.insert_all [[("b", VInt 1)]; [("a", VStr "x")]] None None
             false 100 (absent_t, empty_database)).2.2 =
      trace empty_database ++
      EvExecute
        (CreateTable (name absent_t)
           (Database.create_columns
              (filter (λ nv, nv.1 ∉ column <$> or_empty None)
                 (detect_column_types [[("b", VInt 1)]; [("a", VStr "x")]]))
              None)) [] out :: rest.
Proof.
  apply (lazy_create_covers_all_columns [[("b", VInt 1)]; [("a", VStr "x")]]
           None None false 100 absent_t empty_database eq_refl).
Defined.

(** X8. The values bound by an insert of [insert_all] always match its
    placeholders: an insert of [n] rows over the column list binds
    [n * len(columns)] values, and [n] is at least 1. *)
Theorem insert_all_binds_one_value_per_placeholder `{Engine}
    (records : list record) (pk : option string)
    (foreign_keys : option (list foreign_key)) (upsert : bool)
    (batch_size : Z) (self : Table) (db : Database) :
  let run :=
    Table.insert_all records pk foreign_keys upsert batch_size (self, db) in
  ∀ u table cols n ps out,
    EvExecute (Insert u table cols n) ps out
      ∈ drop (length (trace db)) (trace run.2.2) →
    length ps = n * length cols ∧ 0 < n.
Proof.
  intros run u table cols n ps out Hin.
  destruct (insert_all_inserts records pk foreign_keys upsert batch_size
              self db _ ps out Hin eq_refl)
    as (before & chunk & after & _ & Hne & [= -> -> -> ->] & ->).
  split; [|destruct chunk; [done|cbn; lia]].
  rewrite (length_join_rows (length (Table.all_columns records))).
  - by rewrite length_fmap.
  - apply Forall_fmap, Forall_true. intros r. apply row_values_lookup.
Qed.

Lemma insert_all_binds_one_value_per_placeholder_witness :
  length [VStr "x"; VNone] = 1 * length ["a"; "b"] ∧ 0 < 1.
Proof.
  apply (insert_all_binds_one_value_per_placeholder
           [[("b", VInt 1)]; [("a", VStr "x")]] None None false 1
           absent_t empty_database false "t" ["a"; "b"] 1 [VStr "x"; VNone]
           (inr {| fetchall := []; rowcount := 1 |})).
  vm_compute. apply (list_elem_of_lookup_2 _ 4). reflexivity.
Defined.

Lemma insert_all_present_self `{Engine} (records : list record) pk
    foreign_keys upsert batch_size (self : Table) (db : Database) :
  exists_ self = true →
  (Table.insert_all records pk foreign_keys upsert batch_size (self, db)).2.1
    = self.
Proof.
  intros Hex.
  destruct (Table.insert_all _ _ _ _ _ _) as [r [self' db']] eqn:Hrun.
  apply insert_all_run in Hrun as (r0 & self1 & db1 & Hc & -> & _).
  rewrite create_if_absent_present in Hc by done. by injection Hc as _ <- _.
Qed.

(** X9. Once the handle is present, [insert_all] never creates or alters
    anything: [pk] and [foreign_keys] are ignored (any other values give
    the same result and state), every statement it executes is an
    insert, and the handle is left as it was. *)
Theorem insert_all_on_present_handle `{Engine}
    (records : list record) (pk : option string)
    (foreign_keys : option (list foreign_key)) (upsert : bool)
    (batch_size : Z) (self : Table) (db : Database) :
  exists_ self = true →
  let run :=
    Table.insert_all records pk foreign_keys upsert batch_size (self, db) in
  (∀ pk' foreign_keys',
     Table.insert_all records pk' foreign_keys' upsert batch_size (self, db)
       = run) ∧
  run.2.1 = self ∧
  (∀ sql ps out,
     EvExecute sql ps out ∈ drop (length (trace db)) (trace run.2.2) →
     is_insert sql = true).
Proof.
  intros Hex run. split_and!.
  - intros pk' foreign_keys'. subst run.
    by rewrite !insert_all_unfold, !create_if_absent_present.
  - by apply insert_all_present_self.
  - subst run. intros sql ps out Hin.
    destruct (Table.insert_all _ _ _ _ _ _) as [r [self' db']] eqn:Hrun.
    apply insert_all_run in Hrun as (r0 & self1 & db1 & Hc & -> & Hrest).
    rewrite create_if_absent_present in Hc by done.
    injection Hc as <- <- <-. cbn [snd] in Hin.
    assert (db' = db → is_insert sql = true) as Hsame.
    { intros ->. rewrite drop_all in Hin. by apply elem_of_nil in Hin. }
    assert (∀ events, extends db db' events →
              EvExecute sql ps out ∈ events) as Hev.
    { intros events (Ht & _). rewrite Ht, drop_app_length in Hin. done. }
    destruct (chunks records batch_size) as [e|cs]; [by apply Hsame, Hrest|].
    destruct r as [e|cur].
    + destruct Hrest as [(_ & _ & ?)|(? & i & ? & ? & _ & _ & _ & Hext)];
        [by apply Hsame|].
      apply Hev, elem_of_app in Hext as [Hin'|Hin'].
      * by apply elem_of_chunk_events in Hin' as (? & _ & -> & _).
      * apply list_elem_of_singleton in Hin'. by injection Hin' as -> _ _.
    + destruct Hrest as (? & _ & _ & Hext).
      by apply Hev, elem_of_chunk_events in Hext as (? & _ & -> & _).
Qed.

Lemma insert_all_on_present_handle_witness :
  Table.insert_all [id_record 1] (Some "id") (Some [fk_b]) false 100
    (present_t, empty_database)
  = Table.insert_all [id_record 1] None None false 100
      (present_t, empty_database).
Proof.
  apply (proj1 (insert_all_on_present_handle [id_record 1] None None false
                  100 present_t empty_database eq_refl)).
Defined.

Lemma dict_get_all_columns_singleton (r : record) key :
  key ∈ Table.all_columns [r] → is_Some (dict_get key r).
Proof.
  rewrite elem_of_all_columns. intros (r' & Hr & Hin).
  apply list_elem_of_singleton in Hr as ->. by apply dict_get_is_Some.
Qed.

(** X10. [insert] of one record on a present handle makes exactly one
    insert of one row, over the record's own fields in sorted order and
    binding the record's own values (no [None] is filled in), and commits
    when the insert succeeded; it returns the engine's cursor or raises
    the engine's error, never the unbound [result]. *)
Theorem insert_one_record `{Engine} (r : record) (pk : option string)
    (foreign_keys : option (list foreign_key)) (upsert : bool)
    (self : Table) (db : Database) :
  exists_ self = true →
  let run := Table.insert r pk foreign_keys upsert (self, db) in
  let cols := Table.all_columns [r] in
  let ps := Table.row_values cols r in
  Forall2 (λ key v, dict_get key r = Some v) cols ps ∧
  run.2.1 = self ∧
  ∃ out,
    run.1 = match out with
            | inl e => inl (Sqlite3Error e)
            | inr cur => inr cur
            end ∧
    extends db run.2.2
      (EvExecute (Insert upsert (name self) cols 1) ps out
       :: match out with inr _ => [EvCommit] | inl _ => [] end).
Proof.
  intros Hex run cols ps. split_and!.
  - unfold ps, Table.row_values. apply Forall2_fmap_r, Forall_Forall2_diag.
    apply Forall_forall. intros key Hkey. cbn.
    apply dict_get_all_columns_singleton in Hkey as [v Hv]. by rewrite Hv.
  - apply (insert_all_present_self [r] pk foreign_keys upsert 100
             self db Hex).
  - subst run cols ps. unfold Table.insert.
    rewrite insert_all_unfold, create_if_absent_present by done.
    cbv beta iota.
    change (chunks [r] 100) with (@inr exception _ [[r]]).
    cbv beta iota.
    destruct (Table.insert_chunks upsert (name self) _ [[r]] None
                (self, db)) as [r1 [self' db']] eqn:Hloop.
    apply insert_chunks_run in Hloop
      as (-> & [(results & -> & Hlen & Hext)
               |(e & i & chunk & results & -> & Hi & Hlen & Hext)]).
    + destruct results as [|cur [|? ?]]; try done.
      exists (inr cur). split; [done|]. exact Hext.
    + destruct i as [|i]; [|done]. injection Hi as <-.
      destruct results; [|done].
      exists (inl e). split; [done|]. exact Hext.
Qed.

Lemma insert_one_record_witness :
  Forall2 (λ key v, dict_get key (id_v_record 1 "a") = Some v)
    (Table.all_columns [id_v_record 1 "a"])
    (Table.row_values (Table.all_columns [id_v_record 1 "a"])
       (id_v_record 1 "a")).
Proof.
  apply (insert_one_record (id_v_record 1 "a") None None false present_t
           empty_database eq_refl).
Defined.

(** X11. The creation statement of [create] marks as primary key exactly
    the kept column named [pk]: a column that is in the mapping, is not
    claimed by a foreign key and equals [pk]. So when [pk] names a field
    that a foreign key claims, or no field of the mapping at all, the
    table is created without any primary key. *)
Theorem create_primary_key_marker (table : string) (columns : dict py_type)
    (pk : option string) (foreign_keys : option (list foreign_key)) :
  let claimed := column <$> or_empty foreign_keys in
  let cols :=
    Database.create_columns (filter (λ nv, nv.1 ∉ claimed) columns) pk in
  create_statement table columns pk foreign_keys = CreateTable table cols ∧
  (∀ n kw, (n, kw, true) ∈ cols ↔
     pk = Some n ∧ (n ∉ claimed) ∧
     ∃ ty, (n, ty) ∈ columns ∧ kw = col_type_keyword ty) ∧
  (∀ p, pk = Some p → p ∈ claimed ∨ p ∉ keys columns →
     ∀ c, c ∈ cols → c.2 = false) ∧
  (pk = None → ∀ c, c ∈ cols → c.2 = false).
Proof.
  intros claimed cols.
  assert (∀ n kw, (n, kw, true) ∈ cols ↔
     pk = Some n ∧ (n ∉ claimed) ∧
     ∃ ty, (n, ty) ∈ columns ∧ kw = col_type_keyword ty) as Hmark.
  { intros n kw. unfold cols, Database.create_columns.
    rewrite list_elem_of_fmap. split.
    - intros ([k ty] & [= -> -> Hpk] & [Hnot Hin]%list_elem_of_filter).
      symmetry in Hpk. apply bool_decide_eq_true in Hpk.
      split_and!; [done..|]. by exists ty.
    - intros (-> & Hnot & ty & Hin & ->). exists (n, ty).
      split; [|by apply list_elem_of_filter].
      unfold Database.primary_key. by rewrite bool_decide_eq_true_2. }
  split_and!; [|done| |].
  - unfold create_statement. by rewrite claimed_columns_filter.
  - intros p -> Hp [[n kw] [|]] Hc; [|done]. exfalso.
    apply Hmark in Hc as ([= ->] & Hnot & ty & Hin & _).
    destruct Hp as [?|Hp]; [done|]. apply Hp.
    by apply (list_elem_of_fmap_2 fst _ (n, ty)).
  - intros -> [[n kw] [|]] Hc; [|done]. by apply Hmark in Hc as ([=] & _).
Qed.

Lemma create_primary_key_marker_witness :
  "b" ∈ column <$> or_empty (Some [fk_b]) ∧
  Forall (λ c, c.2 = false)
    (Database.create_columns
       (filter (λ nv, nv.1 ∉ column <$> or_empty (Some [fk_b]))
          [("a", int_); ("b", int_)]) (Some "b")).
Proof.
  assert ("b" ∈ column <$> or_empty (Some [fk_b])) as Hb
    by (vm_compute; left).
  split; [exact Hb|]. apply Forall_forall.
  apply (proj1 (proj2 (proj2 (create_primary_key_marker "t"
                  [("a", int_); ("b", int_)] (Some "b") (Some [fk_b]))))
           "b" eq_refl).
  left. exact Hb.
Defined.

(** ** More on handles: construction, columns, staleness *)

Lemma comprehension_inv {S A B} (f : A → exception + B) (l : list A) (s : S) :
  match (comprehension (λ x, lift_result (f x)) l s).1 with
  | inr ys => Forall2 (λ x y, f x = inr y) l ys
  | inl e => ∃ x, x ∈ l ∧ f x = inl e
  end.
Proof.
  induction l as [|x l IH]; [by constructor|].
  cbn [comprehension]. rewrite bind_run. unfold lift_result at 1.
  destruct (f x) as [e|y] eqn:Hx.
  - cbn. exists x. split; [left|done].
  - rewrite bind_run.
    destruct (comprehension _ l s) as [[e|ys] s'] eqn:Hl; cbn in *.
    + destruct IH as (x' & ? & ?). exists x'. split; [by right|done].
    + by constructor.
Qed.

Lemma Column_of_row_inr row c :
  Table.Column_of_row row = inr c → Column_fields c = row.
Proof.
  destruct row as [|a [|b [|c' [|d [|e [|f [|? ?]]]]]]]; try done.
  by intros [= <-].
Qed.

Lemma Column_of_row_inl row e :
  Table.Column_of_row row = inl e → length row ≠ 6 ∧ ∃ msg, e = TypeError msg.
Proof.
  destruct row as [|a [|b [|c' [|d [|e' [|f [|? ?]]]]]]]; try done;
    intros [= <-]; (split; [done | by eexists]).
Qed.

(** X12. [columns] never changes the handle. On an absent handle it
    returns the empty list without a call on the connection; on a
    present one it makes exactly one call, the [PRAGMA table_info] of
    its table, and returns one [Column] per row, in order and with the
    row's six values as its fields, or raises [TypeError] when some row
    does not have six values. *)
Theorem columns_reads_table_info `{Engine} (self : Table) (db : Database) :
  let run := Table.columns (self, db) in
  run.2.1 = self ∧
  if exists_ self then
    ∃ out,
      extends db run.2.2 [EvExecute (PragmaTableInfo (name self)) [] out] ∧
      match out with
      | inl e => run.1 = inl (Sqlite3Error e)
      | inr cur =>
          match run.1 with
          | inr cols => Column_fields <$> cols = fetchall cur
          | inl e =>
              ∃ row msg,
                row ∈ fetchall cur ∧ length row ≠ 6 ∧ e = TypeError msg
          end
      end
  else run = (inr [], (self, db)).
Proof.
  intros run. split; [apply columns_keeps|]. subst run.
  unfold Table.columns. rewrite bind_run. unfold Table.get_self.
  destruct (exists_ self); cbn [negb]; [|done].
  rewrite bind_run. unfold Table.on_db.
  destruct (Database.execute _ _ db) as [r1 db1] eqn:Hexec.
  apply execute_run in Hexec as (out & Hext & ->). exists out.
  destruct out as [e|cur]; [done|].
  pose proof (comprehension_pure Table.Column_of_row (fetchall cur) (self, db1))
    as Hpure.
  pose proof (comprehension_inv Table.Column_of_row (fetchall cur) (self, db1))
    as Hinv.
  destruct (comprehension _ (fetchall cur) (self, db1)) as [r2 s2].
  simpl in Hpure, Hinv. subst s2. split; [done|].
  destruct r2 as [e|cols]; cbn.
  - destruct Hinv as (row & Hrow & Herr).
    apply Column_of_row_inl in Herr as (Hlen & msg & ->).
    by exists row, msg.
  - induction Hinv as [|row c rows cols Hc _ IH]; [done|].
    rewrite fmap_cons, IH. f_equal. by apply Column_of_row_inr.
Qed.

Lemma first_item_inr row v :
  Database.first_item row = inr v → head row = Some v.
Proof. destruct row; [done|]. by intros [= <-]. Qed.

(** X13. Taking a handle with [db[name]] makes exactly one call, the
    query of the table list, and no other. The handle has the name
    asked for, and its flag is set exactly when that name is the first
    item of some row of the answer; an empty row raises [IndexError] and
    a failing query raises the engine's error. *)
Theorem getitem_reads_table_list `{Engine} (table_name : string)
    (db : Database) :
  let run := Database.getitem table_name db in
  ∃ out,
    extends db run.2 [EvExecute SelectTableNames [] out] ∧
    match out with
    | inl e => run.1 = inl (Sqlite3Error e)
    | inr cur =>
        match run.1 with
        | inr t =>
            name t = table_name ∧
            (exists_ t = true ↔
             ∃ row, row ∈ fetchall cur ∧ head row = Some (VStr table_name))
        | inl e => [] ∈ fetchall cur ∧ ∃ msg, e = IndexError msg
        end
    end.
Proof.
  intros run. subst run.
  unfold Database.getitem, Database.Table__init__, Database.tables.
  rewrite !bind_run.
  destruct (Database.execute SelectTableNames [] db) as [r1 db1] eqn:Hexec.
  apply execute_run in Hexec as (out & Hext & ->). exists out.
  destruct out as [e|cur]; [done|].
  pose proof (comprehension_pure Database.first_item (fetchall cur) db1)
    as Hpure.
  pose proof (comprehension_inv Database.first_item (fetchall cur) db1)
    as Hinv.
  destruct (comprehension _ (fetchall cur) db1) as [r2 s2].
  simpl in Hpure, Hinv. subst s2.
  destruct r2 as [e|ts]; (split; [done|]); cbn.
  - destruct Hinv as ([|v row] & Hrow & Herr); [|done].
    injection Herr as <-. split; [done | by eexists].
  - split; [done|]. rewrite bool_decide_eq_true. split.
    + intros Hin. clear Hext.
      induction Hinv as [|row v rows ts Hv _ IH]; [by apply elem_of_nil in Hin|].
      apply elem_of_cons in Hin as [<-|Hin].
      * exists row. split; [left | by apply first_item_inr].
      * destruct (IH Hin) as (row' & ? & ?). exists row'. split; [by right|done].
    + intros (row & Hrow & Hhead). clear Hext.
      induction Hinv as [|row' v rows ts Hv _ IH]; [by apply elem_of_nil in Hrow|].
      apply elem_of_cons in Hrow as [->|Hrow].
      * apply first_item_inr in Hv. rewrite Hhead in Hv.
        injection Hv as <-. left.
      * right. by apply IH.
Qed.

(** X14. A handle is changed only by its own creating calls: whatever
    else happens in a session (handles taken, calls on other handles,
    statements from elsewhere, and on this handle [columns], [drop] and
    [add_foreign_key]), it stays as it was; in particular an absent
    handle stays absent when its table is created through another
    handle. *)
Theorem handle_changed_only_by_own_create `{Engine} (s : session)
    (actions : list action) (i : nat) (t : Table) :
  handles s !! i = Some t →
  (∀ c, Invoke i c ∈ actions → may_create c = false) →
  handles (run s actions) !! i = Some t.
Proof.
  revert s. induction actions as [|a actions IH]; intros s Hi Hown; [done|].
  cbn [run foldl]. apply IH.
  - destruct (step_flag s a i t Hi) as [?|(_ & _ & c & -> & Hc)]; [done|].
    rewrite (Hown c) in Hc; [done|left].
  - intros c Hc. apply Hown. by right.
Qed.

Lemma handle_changed_only_by_own_create_witness :
  let s := run {| handles := []; shared := empty_database |}
             [Open "t"; Open "t"] in
  let actions :=
    [Invoke 1 (CallInsert (id_record 1) None None false); Invoke 0 CallColumns] in
  handles s !! 0 = Some absent_t ∧
  handles (run s actions) !! 0 = Some absent_t ∧
  handles (run s actions) !! 1 = Some present_t.
Proof.
  intros s actions.
  assert (handles s !! 0 = Some absent_t) as H0 by (by vm_compute).
  split_and!; [done| |by vm_compute].
  apply (handle_changed_only_by_own_create s actions 0 absent_t H0).
  intros c [Hc|[Hc|Hc%elem_of_nil]%elem_of_cons]%elem_of_cons; [done| |done].
  by injection Hc as ->.
Defined.

(** ** Stale handles on the relational model *)

(** Through a present handle whose table is not there, the first insert
    is rejected and nothing changes. *)
Lemma sqlite_insert_all_missing_table `{Dialect} (records : list record)
    pk foreign_keys upsert batch_size (self : Table)
    (db : @Database sqlite_model) :
  exists_ self = true →
  lookup_name (name self) (pending (conn db)) = None →
  records ≠ [] → (1 ≤ batch_size)%Z →
  let run :=
    Table.insert_all records pk foreign_keys upsert batch_size (self, db) in
  run.1 = inl (Sqlite3Error (OperationalError "no such table")) ∧
  run.2.1 = self ∧ conn run.2.2 = conn db.
Proof.
  intros Hex Hnone Hne Hb run. subst run.
  rewrite insert_all_unfold, create_if_absent_present by done.
  cbv beta iota.
  destruct (chunks_positive records batch_size ltac:(lia))
    as (cs & -> & Hjoin & _).
  destruct cs as [|chunk cs]; [by rewrite <- Hjoin in Hne|].
  rewrite sqlite_insert_chunks_cons. unfold prepare_insert.
  by rewrite Hnone.
Qed.

(** X15. After a drop through a handle, the same handle cannot be
    written through: it still counts as present, so [insert_all] does
    not create the table again, and the engine rejects the first insert
    (no such table); nothing is written. *)
Theorem insert_after_drop_fails `{Dialect} (records : list record)
    (pk : option string) (foreign_keys : option (list foreign_key))
    (upsert : bool) (batch_size : Z) (self : Table)
    (db : @Database sqlite_model) :
  exists_ self = true → records ≠ [] → (1 ≤ batch_size)%Z →
  let dropped := Table.drop (self, db) in
  (∃ cur, dropped.1 = inr cur) →
  let run :=
    Table.insert_all records pk foreign_keys upsert batch_size dropped.2 in
  dropped.2.1 = self ∧
  run.1 = inl (Sqlite3Error (OperationalError "no such table")) ∧
  run.2.1 = self ∧ conn run.2.2 = conn dropped.2.2.
Proof.
  intros Hex Hne Hb dropped [cur Hcur] run. subst run dropped.
  revert Hcur. unfold Table.drop. rewrite bind_run.
  unfold Table.get_self, Table.on_db, Database.execute.
  cbn [engine_execute sqlite_model sqlite_execute]. unfold sqlite_drop.
  case_decide; [|done]. destruct (prepares _); [|done].
  cbn [fst snd]. intros _. split; [done|].
  apply sqlite_insert_all_missing_table; [done| |done..].
  destruct (transaction (conn db)); cbn [conn pending transaction
    committed default]; apply lookup_remove_name.
Qed.

Lemma insert_after_drop_fails_witness :
  let db_t := (Table.insert (id_record 1) (Some "id") None false
                 (absent_t, empty_database)).2.2 in
  let dropped := Table.drop (present_t, db_t) in
  (Table.insert_all [id_record 2] None None false 100 dropped.2).1
  = inl (Sqlite3Error (OperationalError "no such table")).
Proof.
  intros db_t dropped.
  apply (insert_after_drop_fails [id_record 2] None None false 100
           present_t db_t eq_refl ltac:(done) ltac:(lia)).
  eexists. by vm_compute.
Defined.

(** The lazy creation for a table that already exists. *)
Lemma sqlite_create_existing `{Dialect} (records : list record) pk
    foreign_keys (self : Table) (db : @Database sqlite_model) :
  exists_ self = false → name self ∈ keys (pending (conn db)) →
  ∃ db',
    Table.create_if_absent records pk foreign_keys (self, db)
      = (inl (Sqlite3Error (OperationalError "table already exists")),
         (self, db')) ∧
    conn db' = conn db.
Proof.
  intros Hex Hin.
  unfold Table.create_if_absent. rewrite bind_run.
  unfold Table.get_self at 1. rewrite Hex.
  cbv [negb]. unfold Table.create. rewrite bind_run.
  unfold Table.get_self at 1. rewrite bind_run. unfold Table.on_db at 1.
  pose proof (sqlite_create_table (name self)
                (filter (λ nv, nv.1 ∉ Table.claimed_columns foreign_keys)
                   (detect_column_types records)) pk db) as Hrun.
  cbv zeta in Hrun. unfold sqlite_create in Hrun.
  rewrite decide_True in Hrun by (by apply list_elem_of_fmap_2).
  destruct (Database.create_table _ _ _ _) as [r db'].
  cbn [fst snd] in Hrun. destruct Hrun as [-> Hconn]. by eexists.
Qed.

(** X16. Through a handle that is absent although its table exists
    (created after the handle was taken), [insert_all] does not insert:
    it tries to create the table again, the engine rejects the creation
    (table already exists), and nothing is written; the handle stays
    absent. *)
Theorem insert_through_stale_absent_handle_fails `{Dialect}
    (records : list record) (pk : option string) (foreign_keys : option (list foreign_key))
    (upsert : bool) (batch_size : Z) (self : Table)
    (db : @Database sqlite_model) :
  exists_ self = false → name self ∈ keys (pending (conn db)) →
  let run :=
    Table.insert_all records pk foreign_keys upsert batch_size (self, db) in
  run.1 = inl (Sqlite3Error (OperationalError "table already exists")) ∧
  run.2.1 = self ∧ conn run.2.2 = conn db.
Proof.
  intros Hex Hin run. subst run. rewrite insert_all_unfold.
  destruct (sqlite_create_existing records pk foreign_keys self db Hex Hin)
    as (db' & -> & Hconn).
  done.
Qed.

Lemma insert_through_stale_absent_handle_fails_witness :
  let db_t := (Table.insert (id_record 1) (Some "id") None false
                 (absent_t, empty_database)).2.2 in
  (Table.insert_all [id_record 2] None None false 100 (absent_t, db_t)).1
  = inl (Sqlite3Error (OperationalError "table already exists")).
Proof.
  intros db_t.
  apply (insert_through_stale_absent_handle_fails [id_record 2] None None
           false 100 absent_t db_t eq_refl).
  vm_compute. left.
Defined.

(** ** Lazy creation and first write on the relational model *)

Section round_trip.
Context `{Dialect}.

Lemma filter_all {A} (P : A → Prop) `{!∀ x, Decision (P x)} (l : list A) :
  (∀ x, P x) → filter P l = l.
Proof.
  intros HP. induction l as [|x l IH]; [done|].
  by rewrite filter_cons_True, IH.
Qed.

Lemma filter_none {A} (P : A → Prop) `{!∀ x, Decision (P x)} (l : list A) :
  Forall (λ x, ¬ P x) l → filter P l = [].
Proof.
  induction 1 as [|x l Hx _ IH]; [done|].
  by rewrite filter_cons_False.
Qed.

Lemma create_columns_no_pk (columns : dict py_type) :
  (λ '(n, ty, pk),
     {| def_name := n; def_type := ty; def_pk := pk;
        def_references := None |})
  <$> Database.create_columns columns None
  = plain_columns columns.
Proof.
  unfold Database.create_columns, plain_columns.
  rewrite <- list_fmap_compose. apply list_fmap_ext. by intros ? [n ty].
Qed.

Lemma create_columns_names (columns : dict py_type) pk :
  (Database.create_columns columns pk).*1.*1 = keys columns.
Proof.
  unfold Database.create_columns, keys. rewrite <- !list_fmap_compose.
  apply list_fmap_ext. by intros ? [? ?] _.
Qed.

Lemma column_names_plain_columns (columns : dict py_type) rows :
  column_names {| td_columns := plain_columns columns; td_rows := rows |}
  = fold_case <$> keys columns.
Proof.
  unfold column_names, plain_columns, keys. cbn [td_columns]. f_equal.
  rewrite <- list_fmap_compose. apply list_fmap_ext. by intros ? [? ?] _.
Qed.

Lemma lookup_name_app_fresh {V} n (v : V) (d : dict V) :
  (fold_case n ∉ fold_case <$> keys d) →
  lookup_name n (d ++ [(n, v)]) = Some v.
Proof.
  intros Hfresh. rewrite <- (replace_name_fresh n v d) by done.
  apply lookup_replace_name.
Qed.

Lemma replace_name_app_fresh {V} n (v w : V) (d : dict V) :
  (fold_case n ∉ fold_case <$> keys d) →
  replace_name n w (d ++ [(n, v)]) = d ++ [(n, w)].
Proof.
  intros Hfresh. rewrite <- (replace_name_fresh n v d) by done.
  rewrite replace_replace_name. by apply replace_name_fresh.
Qed.

(** The lazy creation, on the model, of a table that is not there, with
    no primary key and no foreign key. *)
Lemma sqlite_lazy_create (records : list record) (self : Table)
    (db : @Database sqlite_model) :
  let columns := detect_column_types records in
  exists_ self = false →
  (fold_case (name self) ∉ fold_case <$> keys (pending (conn db))) →
  columns ≠ [] → NoDup (fold_case <$> keys columns) →
  prepares (CreateTable (name self) (Database.create_columns columns None))
    = true →
  ∃ db1,
    Table.create_if_absent records None None (self, db)
      = (inr (), (present self, db1)) ∧
    pending (conn db1) =
      pending (conn db) ++
      [(name self,
        {| td_columns := plain_columns columns; td_rows := [] |})] ∧
    (transaction (conn db) = None → transaction (conn db1) = None).
Proof.
  intros columns Hex Hfresh Hcols Hdup Hprep.
  unfold Table.create_if_absent. rewrite bind_run.
  unfold Table.get_self at 1. rewrite Hex. cbv [negb].
  unfold Table.create. rewrite bind_run. unfold Table.get_self at 1.
  rewrite filter_all by (intros [n ty]; apply not_elem_of_empty).
  rewrite bind_run. unfold Table.on_db at 1.
  pose proof (sqlite_create_table (name self) columns None db) as Hrun.
  cbv zeta in Hrun. unfold sqlite_create in Hrun.
  rewrite decide_False in Hrun by done.
  rewrite decide_False in Hrun
    by (unfold Database.create_columns; by intros ?%fmap_nil_inv).
  fold columns. rewrite Hprep in Hrun. cbn [negb] in Hrun.
  rewrite decide_True in Hrun by (by rewrite create_columns_names).
  rewrite decide_True in Hrun.
  2:{ rewrite filter_none; [cbn; lia|].
      unfold Database.create_columns. apply Forall_fmap, Forall_true.
      by intros [n ty]. }
  rewrite create_columns_no_pk in Hrun.
  destruct (Database.create_table _ _ _ _) as [r db1].
  cbn [fst snd] in Hrun. destruct Hrun as ([t ->] & Hconn).
  cbn. eexists. split; [done|]. rewrite Hconn.
  by destruct (transaction (conn db)).
Qed.

Lemma pk_index_plain_columns (columns : dict py_type) rows :
  pk_index {| td_columns := plain_columns columns; td_rows := rows |} = None.
Proof.
  unfold pk_index. cbn [td_columns].
  rewrite (proj2 (list_find_None _ _)); [done|].
  unfold plain_columns. apply Forall_fmap, Forall_true. by intros [n ty].
Qed.

(** Without a primary key every row is stored, after the rows already
    there. *)
Lemma insert_rows_no_pk upsert cols td rows :
  pk_index td = None →
  insert_rows upsert cols td rows =
    inr {| td_columns := td_columns td;
           td_rows := td_rows td ++ (bound_row td cols <$> rows) |}.
Proof.
  revert td. induction rows as [|vals rows IH]; intros td Hpk.
  - cbn. rewrite app_nil_r. by destruct td.
  - cbn [insert_rows]. unfold insert_row. rewrite Hpk.
    rewrite IH by done. cbn [td_columns td_rows fmap list_fmap].
    by rewrite <- app_assoc.
Qed.

Lemma lookup_name_zip_fmap {V} (g : string → V) (cols : list string) n :
  NoDup (fold_case <$> cols) → n ∈ cols →
  lookup_name n (zip cols (g <$> cols)) = Some (g n).
Proof.
  induction cols as [|c cols IH]; [by intros _ ?%elem_of_nil|].
  rewrite fmap_cons, NoDup_cons. intros [Hc Hdup].
  cbn [fmap list_fmap zip zip_with lookup_name].
  intros [->|Hin]%elem_of_cons.
  - by rewrite decide_True.
  - rewrite decide_False; [by apply IH|].
    intros Heq. apply Hc. rewrite Heq. by apply list_elem_of_fmap_2.
Qed.

Lemma bound_row_stored_row (columns : dict py_type) rows cols (r : record) :
  NoDup (fold_case <$> cols) → keys columns ⊆ cols →
  bound_row {| td_columns := plain_columns columns; td_rows := rows |} cols
            (adapt <$> Table.row_values cols r)
  = stored_row columns r.
Proof.
  intros Hdup Hsub. unfold bound_row, stored_row, plain_columns.
  cbn [td_columns]. unfold Table.row_values.
  rewrite <- !list_fmap_compose.
  apply list_fmap_ext. intros i [n ty] Hi. cbn.
  rewrite (lookup_name_zip_fmap
             (λ key, adapt (default VNone (dict_get key r)))); [done..|].
  apply Hsub. unfold keys. apply list_elem_of_fmap. exists (n, ty).
  split; [done|]. by eapply list_elem_of_lookup_2.
Qed.
End round_trip.



(** ** Adding a foreign key column on the relational model *)

(** On the model, [columns] through a present handle lists the columns
    of the handle's table as the next statement finds it. *)
Lemma sqlite_columns `{Dialect} (self : Table) (db : @Database sqlite_model)
    td :
  exists_ self = true →
  lookup_name (name self) (pending (conn db)) = Some td →
  prepares (PragmaTableInfo (name self)) = true →
  ∃ db',
    Table.columns (self, db)
      = (inr (imap described_column (td_columns td)), (self, db')) ∧
    conn db' = conn db.
Proof.
  intros Hex Htd Hprep. unfold Table.columns. rewrite bind_run.
  unfold Table.get_self at 1. rewrite Hex. cbv [negb].
  rewrite bind_run. unfold Table.on_db at 1, Database.execute.
  cbn [engine_execute sqlite_model sqlite_execute fetchall].
  rewrite Hprep, Htd. cbn [fmap option_fmap option_map default fetchall].
  rewrite (comprehension_returns _ _ (imap described_column (td_columns td))).
  - by eexists.
  - unfold table_info, id. apply Forall2_same_length_lookup_2.
    + by rewrite !length_imap.
    + intros i row c. rewrite !list_lookup_imap.
      destruct (td_columns td !! i) as [d|]; [|done].
      by intros [= <-] [= <-].
Qed.



(** ** A creation that fails *)

(** X19. [create] is not undone when it fails. Its statements are, in
    order, the [CREATE TABLE], the query of the table list and one
    [ALTER TABLE] per foreign key; when it returns it has made all of
    them and the flag is set, and when it raises the handle is as it was
    although a non-empty prefix of them has been executed (the last one
    being the one that failed): no statement removes what was created
    before the failure. *)
Theorem failed_create_is_not_undone `{Engine} (columns : dict py_type)
    (pk : option string) (foreign_keys : option (list foreign_key))
    (self : Table) (db : Database) :
  let run := Table.create columns pk foreign_keys (self, db) in
  let made := statements (drop (length (trace db)) (trace run.2.2)) in
  let planned :=
    create_statement (name self) columns pk foreign_keys
    :: SelectTableNames
    :: (alter_statement (name self) <$> or_empty foreign_keys) in
  match run.1 with
  | inr _ => run.2.1 = present self ∧ made = planned
  | inl _ => run.2.1 = self ∧ ∃ n, 0 < n ∧ made = take n planned
  end.
Proof.
  intros run made planned. subst run made planned.
  destruct (Table.create _ _ _ _) as [r [self' db']] eqn:Hrun.
  apply create_run in Hrun
    as [(e & -> & -> & [(e' & -> & Hext)|(cur & out & Hext)])
       |[(cur & cur' & e & i & fk & results & -> & -> & Hi & Hlen & Hext)
        |(cur & cur' & results & -> & -> & Hlen & Hext)]];
    cbn [fst snd]; destruct Hext as (-> & _); rewrite drop_app_length.
  - split; [done|]. exists 1. split; [lia|done].
  - split; [done|]. exists 2. split; [lia|done].
  - split; [done|]. exists (S (S (S i))). split; [lia|].
    unfold create_table_events. cbn [app take].
    rewrite <- fmap_take, (take_S_r _ _ _ Hi), fmap_app.
    change (statements (?a :: ?b :: ?l)) with
      (create_statement (name self) columns pk foreign_keys
       :: SelectTableNames :: statements l).
    rewrite statements_app, statements_foreign_key_events; [done|].
    apply lookup_lt_Some in Hi. rewrite length_take. lia.
  - split; [done|]. unfold create_table_events. cbn [app].
    change (statements (?a :: ?b :: ?l)) with
      (create_statement (name self) columns pk foreign_keys
       :: SelectTableNames :: statements l).
    by rewrite statements_foreign_key_events.
Qed.
